(** * ActorManager (BeamFactory.cpp): slot registry, sleep/wake state machine,
      frame scheduler, physics step dispatcher, player selection and
      stream events.

    Shallow embedding of [source/main/physics/BeamFactory.cpp].

    Conventions of the embedding:
    - the array [Actor* m_actors[MAX_TRUCKS]] is a finite map from slot
      index to actor; a null pointer is an absent key;
    - a finite [float] is the rational [Q] it denotes; the float
      operations of the state machine, of the overlap oracle and of
      [update_binary32] round as IEEE 754 binary32 does, to the nearest
      float, ties to even; infinities and NaN are outside the embedding,
      and a statement about a float result that can overflow assumes it
      finite;
    - [int] values that can hold the sentinel [-1] are [Z], loop counters
      and slot indices are [nat];
    - calls into collaborators that do not touch the modelled fields
      (logging, GUI, sound, networking packets, joining the simulation
      thread) are left out;
    - members of [Actor] that only the player-selection, box and stream
      requests read (the rescuer flag, the terrain-preload accessor, the
      position of the first node, the stream results of the other clients)
      are given as functions of the slot index, and what the manager writes
      outside the embedded fields is returned as a list of effects. *)

From Stdlib Require Import ZArith QArith Qround Qpower Qabs Lia Lqa.
From stdpp Require Import base option list gmap sets sorting.

(** ** Floating-point arithmetic

    A finite [float] is the rational it denotes; an operation on floats is
    the exact operation followed by the rounding of IEEE 754 binary32, to
    the nearest representable value, ties to the one with an even
    significand. *)

(** Position of the leading binary digit of a positive rational: the [e]
    with [2 ^ e <= q < 2 ^ (e + 1)]. *)
Definition ilog2 (q : Q) : Z :=
  let e := (Z.log2 (Qnum q) - Z.log2 (Zpos (Qden q)))%Z in
  if Qle_bool (2 ^ e) q then e else (e - 1)%Z.

(** Nearest integer, ties to the even one. *)
Definition round_half_even (q : Q) : Z :=
  let f := Qfloor q in
  match Qcompare (q - inject_Z f) (1 # 2) with
  | Lt => f
  | Gt => (f + 1)%Z
  | Eq => if Z.even f then f else (f + 1)%Z
  end.

(** Rounding to the format with [prec] significant bits whose smallest
    positive value is [2 ^ emin]: the result is the multiple of the unit
    in the last place [2 ^ p] nearest to [q]. *)
Definition round_float (prec emin : Z) (q : Q) : Q :=
  let q := Qred q in
  if Qeq_bool q 0 then 0%Q
  else
    let p := Z.max (ilog2 (Qabs q) - prec + 1) emin in
    Qred (inject_Z (round_half_even (q / 2 ^ p)) * 2 ^ p).

(** [float]. *)
Definition binary32 : Q -> Q := round_float 24 (-149).

(** [double]. *)
Definition binary64 : Q -> Q := round_float 53 (-1074).

Definition fadd (x y : Q) : Q := binary32 (x + y).
Definition fsub (x y : Q) : Q := binary32 (x - y).
Definition fmul (x y : Q) : Q := binary32 (x * y).
Definition fdiv (x y : Q) : Q := binary32 (x / y).

Global Arguments round_float : simpl never.
Global Arguments binary32 : simpl never.
Global Arguments binary64 : simpl never.
Global Arguments fadd : simpl never.
Global Arguments fsub : simpl never.
Global Arguments fmul : simpl never.
Global Arguments fdiv : simpl never.

(** ** Ogre geometry used by the overlap oracle *)

Record Vector3 := mkVector3 { vx : Q; vy : Q; vz : Q }.

Definition v3_add (a b : Vector3) : Vector3 :=
  mkVector3 (fadd (vx a) (vx b)) (fadd (vy a) (vy b)) (fadd (vz a) (vz b)).
Definition v3_sub (a b : Vector3) : Vector3 :=
  mkVector3 (fsub (vx a) (vx b)) (fsub (vy a) (vy b)) (fsub (vz a) (vz b)).
Definition v3_scale (a : Vector3) (k : Q) : Vector3 :=
  mkVector3 (fmul (vx a) k) (fmul (vy a) k) (fmul (vz a) k).

(** [Ogre::Vector3::squaredLength]. *)
Definition squaredLength (a : Vector3) : Q :=
  fadd (fadd (fmul (vx a) (vx a)) (fmul (vy a) (vy a))) (fmul (vz a) (vz a)).

(** [Ogre::AxisAlignedBox] with finite extent. *)
Record AxisAlignedBox := mkAABB { mMinimum : Vector3; mMaximum : Vector3 }.

Definition getCenter (a : AxisAlignedBox) : Vector3 :=
  v3_scale (v3_add (mMaximum a) (mMinimum a)) (1 # 2).
Definition getHalfSize (a : AxisAlignedBox) : Vector3 :=
  v3_scale (v3_sub (mMaximum a) (mMinimum a)) (1 # 2).
Definition setMaximum (v : Vector3) (a : AxisAlignedBox) : AxisAlignedBox :=
  mkAABB (mMinimum a) v.
Definition setMinimum (v : Vector3) (a : AxisAlignedBox) : AxisAlignedBox :=
  mkAABB v (mMaximum a).

Definition Qlt_bool (a b : Q) : bool := negb (Qle_bool b a).

(** [Ogre::AxisAlignedBox::intersects]: six separating-plane tests. *)
Definition intersects (a b : AxisAlignedBox) : bool :=
  if Qlt_bool (vx (mMaximum a)) (vx (mMinimum b)) then false
  else if Qlt_bool (vy (mMaximum a)) (vy (mMinimum b)) then false
  else if Qlt_bool (vz (mMaximum a)) (vz (mMinimum b)) then false
  else if Qlt_bool (vx (mMaximum b)) (vx (mMinimum a)) then false
  else if Qlt_bool (vy (mMaximum b)) (vy (mMinimum a)) then false
  else if Qlt_bool (vz (mMaximum b)) (vz (mMinimum a)) then false
  else true.

(** [ActorManager::intersectionAABB]. *)
Definition rescale (a : AxisAlignedBox) (scale : Q) : AxisAlignedBox :=
  let a_center := getCenter a in
  let a_half_size := getHalfSize a in
  let a := setMaximum (v3_add a_center (v3_scale a_half_size scale)) a in
  setMinimum (v3_sub a_center (v3_scale a_half_size scale)) a.

Definition intersectionAABB (a b : AxisAlignedBox) (scale : Q) : bool :=
  if negb (Qeq_bool scale 1)
  then intersects (rescale a scale) (rescale b scale)
  else intersects a b.

(** ** Actors *)

Inductive SimState := LOCAL_SIMULATED | NETWORKED_OK | LOCAL_SLEEPING | INVALID.

Global Instance SimState_eq_dec : EqDecision SimState.
Proof. solve_decision. Defined.

(** The fields of [Actor] that the manager reads or writes. *)
Record Actor := mkActor {
  ar_instance_id : nat;
  ar_sim_state : SimState;
  ar_sleep_counter : Q;
  ar_update_physics : bool;
  ar_disable_self_collision : bool;
  ar_disable_actor2actor_collision : bool;
  ar_net_source_id : Z;
  ar_net_stream_id : Z;
  getVelocity : Vector3;
  ar_bounding_box : AxisAlignedBox;
  ar_predicted_bounding_box : AxisAlignedBox;
  ar_collision_bounding_boxes : list AxisAlignedBox;
  ar_predicted_coll_bounding_boxes : list AxisAlignedBox
}.

Definition set_ar_instance_id (n : nat) (a : Actor) : Actor :=
  mkActor n (ar_sim_state a) (ar_sleep_counter a) (ar_update_physics a)
    (ar_disable_self_collision a) (ar_disable_actor2actor_collision a)
    (ar_net_source_id a) (ar_net_stream_id a) (getVelocity a)
    (ar_bounding_box a) (ar_predicted_bounding_box a)
    (ar_collision_bounding_boxes a) (ar_predicted_coll_bounding_boxes a).

Definition set_ar_sim_state (st : SimState) (a : Actor) : Actor :=
  mkActor (ar_instance_id a) st (ar_sleep_counter a) (ar_update_physics a)
    (ar_disable_self_collision a) (ar_disable_actor2actor_collision a)
    (ar_net_source_id a) (ar_net_stream_id a) (getVelocity a)
    (ar_bounding_box a) (ar_predicted_bounding_box a)
    (ar_collision_bounding_boxes a) (ar_predicted_coll_bounding_boxes a).

Definition set_ar_sleep_counter (c : Q) (a : Actor) : Actor :=
  mkActor (ar_instance_id a) (ar_sim_state a) c (ar_update_physics a)
    (ar_disable_self_collision a) (ar_disable_actor2actor_collision a)
    (ar_net_source_id a) (ar_net_stream_id a) (getVelocity a)
    (ar_bounding_box a) (ar_predicted_bounding_box a)
    (ar_collision_bounding_boxes a) (ar_predicted_coll_bounding_boxes a).

Definition set_ar_update_physics (b : bool) (a : Actor) : Actor :=
  mkActor (ar_instance_id a) (ar_sim_state a) (ar_sleep_counter a) b
    (ar_disable_self_collision a) (ar_disable_actor2actor_collision a)
    (ar_net_source_id a) (ar_net_stream_id a) (getVelocity a)
    (ar_bounding_box a) (ar_predicted_bounding_box a)
    (ar_collision_bounding_boxes a) (ar_predicted_coll_bounding_boxes a).

Definition set_getVelocity (v : Vector3) (a : Actor) : Actor :=
  mkActor (ar_instance_id a) (ar_sim_state a) (ar_sleep_counter a)
    (ar_update_physics a)
    (ar_disable_self_collision a) (ar_disable_actor2actor_collision a)
    (ar_net_source_id a) (ar_net_stream_id a) v
    (ar_bounding_box a) (ar_predicted_bounding_box a)
    (ar_collision_bounding_boxes a) (ar_predicted_coll_bounding_boxes a).

(** ** Overlap oracle on two actors

    The source takes two slot indices and dereferences [m_actors]; the
    embedding takes the two actors found there. *)

Definition truckIntersectionAABB (a b : Actor) (scale : Q) : bool :=
  intersectionAABB (ar_bounding_box a) (ar_bounding_box b) scale.

Definition predictTruckIntersectionAABB (a b : Actor) (scale : Q) : bool :=
  intersectionAABB (ar_predicted_bounding_box a) (ar_predicted_bounding_box b) scale.

Definition is_empty {A} (l : list A) : bool :=
  match l with [] => true | _ => false end.

Definition truckIntersectionCollAABB (a b : Actor) (scale : Q) : bool :=
  if is_empty (ar_collision_bounding_boxes a) && is_empty (ar_collision_bounding_boxes b)
  then truckIntersectionAABB a b scale
  else if is_empty (ar_collision_bounding_boxes a)
  then existsb (fun it => intersectionAABB it (ar_bounding_box a) scale)
         (ar_collision_bounding_boxes b)
  else if is_empty (ar_collision_bounding_boxes b)
  then existsb (fun it => intersectionAABB it (ar_bounding_box b) scale)
         (ar_collision_bounding_boxes a)
  else existsb (fun it_a =>
         existsb (fun it_b => intersectionAABB it_a it_b scale)
           (ar_collision_bounding_boxes b))
         (ar_collision_bounding_boxes a).

Definition predictTruckIntersectionCollAABB (a b : Actor) (scale : Q) : bool :=
  if is_empty (ar_predicted_coll_bounding_boxes a)
     && is_empty (ar_predicted_coll_bounding_boxes b)
  then predictTruckIntersectionAABB a b scale
  else if is_empty (ar_predicted_coll_bounding_boxes a)
  then existsb (fun it => intersectionAABB it (ar_predicted_bounding_box a) scale)
         (ar_predicted_coll_bounding_boxes b)
  else if is_empty (ar_predicted_coll_bounding_boxes b)
  then existsb (fun it => intersectionAABB it (ar_predicted_bounding_box b) scale)
         (ar_predicted_coll_bounding_boxes a)
  else existsb (fun it_a =>
         existsb (fun it_b => intersectionAABB it_a it_b scale)
           (ar_predicted_coll_bounding_boxes b))
         (ar_predicted_coll_bounding_boxes a).

(** ** The manager *)

Record ActorManager := mkActorManager {
  m_actors : gmap nat Actor;
  m_free_actor_slot : nat;
  m_player_actor : Z;
  m_prev_player_actor : Z;
  m_simulated_actor : Z;
  m_forced_active : bool;
  m_dt_remainder : Q;
  m_physics_steps : Z;
  m_physics_frames : Z;
  m_simulation_speed : Q;
  m_stream_mismatches : gmap Z (gset Z);
  mrTime : Q   (* gEnv->mrTime, the process-wide simulation clock *)
}.

Definition set_m_actors (m : gmap nat Actor) (s : ActorManager) : ActorManager :=
  mkActorManager m (m_free_actor_slot s) (m_player_actor s)
    (m_prev_player_actor s) (m_simulated_actor s) (m_forced_active s)
    (m_dt_remainder s) (m_physics_steps s) (m_physics_frames s)
    (m_simulation_speed s) (m_stream_mismatches s) (mrTime s).

Definition set_m_free_actor_slot (n : nat) (s : ActorManager) : ActorManager :=
  mkActorManager (m_actors s) n (m_player_actor s)
    (m_prev_player_actor s) (m_simulated_actor s) (m_forced_active s)
    (m_dt_remainder s) (m_physics_steps s) (m_physics_frames s)
    (m_simulation_speed s) (m_stream_mismatches s) (mrTime s).

Definition set_player (prev cur : Z) (s : ActorManager) : ActorManager :=
  mkActorManager (m_actors s) (m_free_actor_slot s) cur prev
    (m_simulated_actor s) (m_forced_active s)
    (m_dt_remainder s) (m_physics_steps s) (m_physics_frames s)
    (m_simulation_speed s) (m_stream_mismatches s) (mrTime s).

Definition set_m_simulated_actor (n : Z) (s : ActorManager) : ActorManager :=
  mkActorManager (m_actors s) (m_free_actor_slot s) (m_player_actor s)
    (m_prev_player_actor s) n (m_forced_active s)
    (m_dt_remainder s) (m_physics_steps s) (m_physics_frames s)
    (m_simulation_speed s) (m_stream_mismatches s) (mrTime s).

Definition set_m_stream_mismatches (mm : gmap Z (gset Z)) (s : ActorManager)
  : ActorManager :=
  mkActorManager (m_actors s) (m_free_actor_slot s) (m_player_actor s)
    (m_prev_player_actor s) (m_simulated_actor s) (m_forced_active s)
    (m_dt_remainder s) (m_physics_steps s) (m_physics_frames s)
    (m_simulation_speed s) mm (mrTime s).

Definition set_timing (frames steps : Z) (remainder clock : Q) (s : ActorManager)
  : ActorManager :=
  mkActorManager (m_actors s) (m_free_actor_slot s) (m_player_actor s)
    (m_prev_player_actor s) (m_simulated_actor s) (m_forced_active s)
    remainder steps frames
    (m_simulation_speed s) (m_stream_mismatches s) clock.

(** State right after [ActorManager::ActorManager]. *)
Definition ActorManager_new : ActorManager :=
  mkActorManager ∅ 0 (-1) (-1) 0 false 0 2000 0 1 ∅ 0.

(** [ActorManager::getTruck]: bounds-checked lookup. *)
Definition getTruck (number : Z) (s : ActorManager) : option Actor :=
  if bool_decide (0 <= number)%Z && bool_decide (number < Z.of_nat (m_free_actor_slot s))%Z
  then m_actors s !! Z.to_nat number
  else None.

Definition GetPlayerActorInternal (s : ActorManager) : option Actor :=
  getTruck (m_player_actor s) s.

(** ** Sleep / wake state machine *)

(** State threaded through [RecursiveActivation]: the actor table and the
    [std::bitset<MAX_TRUCKS> visited] passed by reference. *)
Definition WakeState : Type := gmap nat Actor * gset nat.

(** A [for] loop over slot indices whose body may run out of fuel. *)
Fixpoint for_each {S : Type} (body : nat -> S -> option S) (ts : list nat) (s : S)
  : option S :=
  match ts with
  | [] => Some s
  | t :: ts' =>
      match body t s with
      | Some s' => for_each body ts' s'
      | None => None
      end
  end.

(** Body of the loop of [RecursiveActivation], for the loop variable [t];
    [rec] is the recursive call.  The dilation [1.2f] is the float nearest
    to 12/10; the
    call [predictTruckIntersectionCollAABB(t, j)] uses the default scale of
    the header, 1.0. *)
Definition RecursiveActivation_body (rec : nat -> WakeState -> option WakeState)
    (j t : nat) (st : WakeState) : option WakeState :=
  let '(actors, visited) := st in
  match actors !! t with
  | None => Some st
  | Some at_ =>
      if bool_decide (t = j) || bool_decide (t ∈ visited) then Some st
      else
        match actors !! j with
        | None => Some st
        | Some aj =>
            let r1 :=
              if bool_decide (ar_sim_state at_ = LOCAL_SIMULATED)
                 && truckIntersectionCollAABB at_ aj (binary32 (12 # 10))
              then rec t (<[t := set_ar_sleep_counter 0 at_]> actors, visited)
              else Some st in
            match r1 with
            | None => None
            | Some (actors1, visited1) =>
                match actors1 !! t, actors1 !! j with
                | Some at1, Some aj1 =>
                    if bool_decide (ar_sim_state at1 = LOCAL_SLEEPING)
                       && predictTruckIntersectionCollAABB at1 aj1 1
                    then rec t (<[t := set_ar_sim_state LOCAL_SIMULATED
                                         (set_ar_sleep_counter 0 at1)]> actors1,
                                visited1)
                    else Some (actors1, visited1)
                | _, _ => Some (actors1, visited1)
                end
            end
        end
  end.

(** [ActorManager::RecursiveActivation(j, visited)]; [nslots] is
    [m_free_actor_slot].  The recursion depth is bounded by the number of
    slots not yet visited; [fuel] bounds it explicitly and [None] means
    the bound was too small. *)
Fixpoint RecursiveActivation (fuel : nat) (nslots : nat) (j : nat) (st : WakeState)
  : option WakeState :=
  match fuel with
  | O => None
  | S fuel' =>
      let '(actors, visited) := st in
      match actors !! j with
      | None => Some st
      | Some aj =>
          if bool_decide (j ∈ visited)
             || negb (bool_decide (ar_sim_state aj = LOCAL_SIMULATED))
          then Some st
          else
            for_each (RecursiveActivation_body (RecursiveActivation fuel' nslots) j)
              (seq 0 nslots) (actors, {[j]} ∪ visited)
      end
  end.

(** First loop of [UpdateSleepingState]: the sleep accumulator.  The
    threshold [0.01f] is the float nearest to 1/100. *)
Definition sleep_step (dt : Q) (a : Actor) : Actor :=
  if negb (bool_decide (ar_sim_state a = LOCAL_SIMULATED)) then a
  else if Qlt_bool (binary32 (1 # 100)) (squaredLength (getVelocity a)) then a
  else
    let a1 := set_ar_sleep_counter (fadd (ar_sleep_counter a) dt) a in
    if Qle_bool 10 (ar_sleep_counter a1)
    then set_ar_sim_state LOCAL_SLEEPING a1
    else a1.

Definition sleep_loop (dt : Q) (nslots : nat) (actors : gmap nat Actor)
  : gmap nat Actor :=
  foldl (fun m t =>
           match m !! t with
           | None => m
           | Some a => <[t := sleep_step dt a]> m
           end) actors (seq 0 nslots).

(** Snowball loop of [UpdateSleepingState]. *)
Definition snowball_body (fuel nslots : nat) (t : nat) (st : WakeState)
  : option WakeState :=
  match st.1 !! t with
  | Some a =>
      if bool_decide (ar_sim_state a = LOCAL_SIMULATED)
         && Qeq_bool (ar_sleep_counter a) 0
      then RecursiveActivation fuel nslots t st
      else Some st
  | None => Some st
  end.

(** First block of [UpdateSleepingState]: the sleep accumulator, skipped
    while [m_forced_active] is set. *)
Definition sleep_phase (dt : Q) (s : ActorManager) : ActorManager :=
  if negb (m_forced_active s)
  then set_m_actors (sleep_loop dt (m_free_actor_slot s) (m_actors s)) s
  else s.

(** Second block: a sleeping player actor is woken.  [current_truck] is a
    pointer into [m_actors]: the write goes to the player's slot. *)
Definition wake_player (s : ActorManager) : ActorManager :=
  match GetPlayerActorInternal s with
  | Some cur =>
      if bool_decide (ar_sim_state cur = LOCAL_SLEEPING)
      then set_m_actors
             (<[Z.to_nat (m_player_actor s) := set_ar_sim_state LOCAL_SIMULATED cur]>
                (m_actors s)) s
      else s
  | None => s
  end.

(** Third block: activation from the player actor, with a fresh bitset. *)
Definition player_activation (fuel : nat) (s : ActorManager) : option WakeState :=
  match GetPlayerActorInternal s with
  | Some cur =>
      if bool_decide (ar_sim_state cur = LOCAL_SIMULATED)
      then RecursiveActivation fuel (m_free_actor_slot s) (Z.to_nat (m_player_actor s))
             (<[Z.to_nat (m_player_actor s) := set_ar_sleep_counter 0 cur]> (m_actors s), ∅)
      else Some (m_actors s, ∅)
  | None => Some (m_actors s, ∅)
  end.

(** [ActorManager::UpdateSleepingState(dt)], returning also the final
    [visited] bitset (a local of the source function). *)
Definition UpdateSleepingState_visited (fuel : nat) (dt : Q) (s : ActorManager)
  : option (ActorManager * gset nat) :=
  let s2 := wake_player (sleep_phase dt s) in
  match player_activation fuel s2 with
  | None => None
  | Some st3 =>
      match for_each (snowball_body fuel (m_free_actor_slot s2))
              (seq 0 (m_free_actor_slot s2)) st3 with
      | None => None
      | Some (actors4, visited4) => Some (set_m_actors actors4 s2, visited4)
      end
  end.

(** Recursion depth needed by one pass: one call per slot below the
    high-water mark, plus the call that finds its slot already visited. *)
Definition wake_fuel (s : ActorManager) : nat := S (m_free_actor_slot s).

(** [ActorManager::UpdateSleepingState(dt)].  The fall-back branch is never
    taken: the pass never runs out of [wake_fuel s]. *)
Definition UpdateSleepingState (dt : Q) (s : ActorManager) : ActorManager :=
  match UpdateSleepingState_visited (wake_fuel s) dt s with
  | Some (s', _) => s'
  | None => s
  end.

(** The slots visited as wake sources by one pass. *)
Definition wake_sources (dt : Q) (s : ActorManager) : gset nat :=
  match UpdateSleepingState_visited (wake_fuel s) dt s with
  | Some (_, visited) => visited
  | None => ∅
  end.

(** ** Player selection and deletion *)

(** [ActorManager::setCurrentTruck]; the notification of the simulation
    controller ([ChangedCurrentVehicle]) is external. *)
Definition setCurrentTruck (new_truck : Z) (s : ActorManager) : ActorManager :=
  UpdateSleepingState 0 (set_player (m_player_actor s) new_truck s).

(** [ActorManager::DeleteTruck(b)]; a null [b] is [None]. *)
Definition DeleteTruck (b : option Actor) (s : ActorManager) : ActorManager :=
  match b with
  | None => s
  | Some b =>
      let s1 :=
        if bool_decide (m_player_actor s = Z.of_nat (ar_instance_id b))
        then setCurrentTruck (-1) s
        else s in
      set_m_actors (delete (ar_instance_id b) (m_actors s1)) s1
  end.

(** [ActorManager::removeTruck]. *)
Definition removeTruck (truck : Z) (s : ActorManager) : ActorManager :=
  if bool_decide (truck < 0)%Z || bool_decide (Z.of_nat (m_free_actor_slot s) < truck)%Z
  then s
  else
    match m_actors s !! Z.to_nat truck with
    | None => s
    | Some a =>
        if bool_decide (ar_sim_state a = NETWORKED_OK) then s
        else DeleteTruck (Some a) s
    end.


(** [ActorManager::CleanUpAllTrucks]. *)
Definition CleanUpAllTrucks (s : ActorManager) : ActorManager :=
  let actors :=
    foldl (fun m i => match m !! i with
                      | None => m
                      | Some _ => delete i m
                      end)
      (m_actors s) (seq 0 (m_free_actor_slot s)) in
  set_player (m_prev_player_actor s) (-1) (set_m_actors actors s).

(** ** Slot allocation and spawning *)

Section Registry.

(** Capacity of [m_actors] (a macro of BeamConstants.h). *)
Variable MAX_TRUCKS : nat.

(** The scan of [GetFreeTruckSlot]: first [t] of the list with an empty
    slot at or above the high-water mark. *)
Fixpoint first_free_slot (actors : gmap nat Actor) (free : nat) (ts : list nat)
  : option nat :=
  match ts with
  | [] => None
  | t :: ts' =>
      if bool_decide (actors !! t = None) && (free <=? t)
      then Some t
      else first_free_slot actors free ts'
  end.

(** [ActorManager::GetFreeTruckSlot]. *)
Definition GetFreeTruckSlot (s : ActorManager) : Z * ActorManager :=
  match first_free_slot (m_actors s) (m_free_actor_slot s) (seq 0 MAX_TRUCKS) with
  | Some t =>
      (Z.of_nat t,
       if m_free_actor_slot s <=? t then set_m_free_actor_slot (t + 1) s else s)
  | None => (-1, s)%Z
  end.

(** Modelled from the spec: the constructor of [Actor] (Beam.cpp) is not
    part of the sources at hand.  It builds the actor from the spawn
    request, here the already parsed actor [proto], and records the slot
    index it was given in the actor's own index field ("a live actor
    whose own index field equals the slot index"); an actor that failed
    its validation has state [INVALID]. *)
Definition new_Actor (truck_num : nat) (proto : Actor) : Actor :=
  set_ar_instance_id truck_num proto.

(** [ActorManager::CreateLocalRigInstance]: the spawned actor, or [None]
    for the null pointer. *)
Definition CreateLocalRigInstance (proto : Actor) (s : ActorManager)
  : option Actor * ActorManager :=
  let '(truck_num, s1) := GetFreeTruckSlot s in
  if bool_decide (truck_num = -1)%Z then (None, s1)
  else
    let b := new_Actor (Z.to_nat truck_num) proto in
    if bool_decide (ar_sim_state b = INVALID)
    then (None, DeleteTruck (Some b) s1)
    else (Some b, set_m_actors (<[Z.to_nat truck_num := b]> (m_actors s1)) s1).

End Registry.

(** ** Sessions of registry operations *)

Inductive RegistryOp :=
| OpAllocate                 (* GetFreeTruckSlot on its own *)
| OpSpawn (proto : Actor)    (* CreateLocalRigInstance *)
| OpDelete (slot : nat)      (* DeleteTruck(m_actors[slot]) *)
| OpRemove (truck : Z)       (* removeTruck(truck) *)
| OpClearAll.                (* CleanUpAllTrucks *)

(** The slot a call of [GetFreeTruckSlot] handed out, if any. *)
Definition allocated (r : Z) : list nat :=
  if bool_decide (r = -1)%Z then [] else [Z.to_nat r].

(** One operation: the new state and the slots [GetFreeTruckSlot] handed
    out while it ran. *)
Definition registry_step (MAX_TRUCKS : nat) (op : RegistryOp) (s : ActorManager)
  : ActorManager * list nat :=
  match op with
  | OpAllocate =>
      ((GetFreeTruckSlot MAX_TRUCKS s).2, allocated (GetFreeTruckSlot MAX_TRUCKS s).1)
  | OpSpawn proto =>
      ((CreateLocalRigInstance MAX_TRUCKS proto s).2,
       allocated (GetFreeTruckSlot MAX_TRUCKS s).1)
  | OpDelete slot => (DeleteTruck (m_actors s !! slot) s, [])
  | OpRemove truck => (removeTruck truck s, [])
  | OpClearAll => (CleanUpAllTrucks s, [])
  end.

Fixpoint registry_run (MAX_TRUCKS : nat) (ops : list RegistryOp) (s : ActorManager)
  : ActorManager * list nat :=
  match ops with
  | [] => (s, [])
  | op :: ops' =>
      let r1 := registry_step MAX_TRUCKS op s in
      let r2 := registry_run MAX_TRUCKS ops' r1.1 in
      (r2.1, r1.2 ++ r2.2)
  end.

(** ** Stream health query *)

(** [std::map::operator[]]: a missing key is inserted with an empty value. *)
Definition map_subscript (k : Z) (m : gmap Z (gset Z)) : gset Z * gmap Z (gset Z) :=
  match m !! k with
  | Some v => (v, m)
  | None => (∅, <[k := ∅]> m)
  end.

(** The scan of [checkStreamsOK] for a networked actor of the source. *)
Fixpoint has_networked_actor (actors : gmap nat Actor) (sourceid : Z) (ts : list nat)
  : bool :=
  match ts with
  | [] => false
  | t :: ts' =>
      match actors !! t with
      | None => has_networked_actor actors sourceid ts'
      | Some a =>
          if negb (bool_decide (ar_sim_state a = NETWORKED_OK))
          then has_networked_actor actors sourceid ts'
          else if bool_decide (ar_net_source_id a = sourceid) then true
          else has_networked_actor actors sourceid ts'
      end
  end.

(** [ActorManager::checkStreamsOK]. *)
Definition checkStreamsOK (sourceid : Z) (s : ActorManager) : Z * ActorManager :=
  let '(mismatches, mm) := map_subscript sourceid (m_stream_mismatches s) in
  let s1 := set_m_stream_mismatches mm s in
  if bool_decide (0 < size mismatches) then (0%Z, s1)
  else if has_networked_actor (m_actors s1) sourceid (seq 0 (m_free_actor_slot s1))
  then (1%Z, s1)
  else (2%Z, s1).

(** ** Frame scheduler *)

(** Modelled from the spec: the macro [PHYSICS_DT] (BeamConstants.h) is not
    part of the sources at hand; the spec gives the fixed substep as
    0.0005 s. *)
Definition PHYSICS_DT : Q := 1 # 2000.

(** [std::min]. *)
Definition std_min (a b : Q) : Q := if Qlt_bool b a then b else a.

(** Conversion of a floating value to [int]: truncation toward zero. *)
Definition Qtruncate (q : Q) : Z := Z.quot (Qnum q) (Zpos (Qden q)).

(** First loop of the choice of [m_simulated_actor]. *)
Fixpoint first_simulated (actors : gmap nat Actor) (ts : list nat) : option nat :=
  match ts with
  | [] => None
  | t :: ts' =>
      match actors !! t with
      | Some a =>
          if bool_decide (ar_sim_state a = LOCAL_SIMULATED) then Some t
          else first_simulated actors ts'
      | None => first_simulated actors ts'
      end
  end.

(** [ActorManager::update(dt)] up to the point where the physics task is
    launched.  The per-actor hooks of the middle loop (reset requests,
    scripting, AI, network send/receive, engine and prop animation) act
    inside the actors and are external; the launch itself is
    [UpdatePhysicsSimulation] below.  The frame time is computed in exact
    arithmetic here; [update_binary32] below computes it as the code
    does. *)
Definition update (dt : Q) (s : ActorManager) : ActorManager :=
  let frames := (m_physics_frames s + 1)%Z in
  let dt := std_min dt (1 / 20)%Q in
  let dt := (dt * m_simulation_speed s)%Q in
  let dt := (dt + m_dt_remainder s)%Q in
  let steps := Qtruncate (dt / PHYSICS_DT)%Q in
  let remainder := (dt - (inject_Z steps * PHYSICS_DT))%Q in
  let dt := (PHYSICS_DT * inject_Z steps)%Q in
  let s1 := set_timing frames steps remainder (mrTime s + dt)%Q s in
  let s2 := UpdateSleepingState dt s1 in
  let s3 := set_m_simulated_actor (m_player_actor s2) s2 in
  if bool_decide (m_simulated_actor s3 = -1)%Z
  then match first_simulated (m_actors s3) (seq 0 (m_free_actor_slot s3)) with
       | Some t => set_m_simulated_actor (Z.of_nat t) s3
       | None => s3
       end
  else s3.

(** *** The frame time in floating-point arithmetic *)

(** The macro [PHYSICS_DT] is not part of the sources at hand: it is the
    constant nearest to 0.0005 in its type, [double] when [wide] is set
    and [float] otherwise. *)
Definition PHYSICS_DT_of (wide : bool) : Q :=
  if wide then binary64 (1 # 2000) else binary32 (1 # 2000).

(** The rounding of an operation one operand of which is [PHYSICS_DT]:
    the operation is done in the type of the constant, the other operand
    being converted to it. *)
Definition round_dt (wide : bool) (x : Q) : Q :=
  if wide then binary64 x else binary32 x.

(** The conversion to [float] of the result of such an operation, on
    assignment to a [float]. *)
Definition to_float (wide : bool) (x : Q) : Q :=
  if wide then binary32 x else x.

(** Conversion of a floating value to [int]: truncation toward zero,
    undefined ([None]) when the truncated value does not fit 32 bits. *)
Definition float_to_int (q : Q) : option Z :=
  if bool_decide (- 2 ^ 31 <= Qtruncate q)%Z && bool_decide (Qtruncate q < 2 ^ 31)%Z
  then Some (Qtruncate q)
  else None.

(** [ActorManager::update(dt)] with the arithmetic of the code: [dt],
    [m_simulation_speed], [m_dt_remainder] and [gEnv->mrTime] are floats,
    [m_physics_steps] is an [int], and every operation rounds to its
    type; [1.0f / 20.0f] is the float nearest to 1/20.  [None] when the
    conversion of the quotient to [int] is undefined. *)
Definition update_binary32 (wide : bool) (dt : Q) (s : ActorManager)
  : option ActorManager :=
  let frames := (m_physics_frames s + 1)%Z in
  let dt := std_min dt (fdiv 1 20) in
  let dt := fmul dt (m_simulation_speed s) in
  let dt := fadd dt (m_dt_remainder s) in
  match float_to_int (round_dt wide (dt / PHYSICS_DT_of wide)) with
  | None => None
  | Some steps =>
      let remainder :=
        to_float wide
          (round_dt wide
             (dt - round_dt wide (round_dt wide (inject_Z steps)
                                  * PHYSICS_DT_of wide))) in
      let dt :=
        to_float wide
          (round_dt wide (PHYSICS_DT_of wide * round_dt wide (inject_Z steps))) in
      let s1 := set_timing frames steps remainder (fadd (mrTime s) dt) s in
      let s2 := UpdateSleepingState dt s1 in
      let s3 := set_m_simulated_actor (m_player_actor s2) s2 in
      Some
        (if bool_decide (m_simulated_actor s3 = -1)%Z
         then match first_simulated (m_actors s3) (seq 0 (m_free_actor_slot s3)) with
              | Some t => set_m_simulated_actor (Z.of_nat t) s3
              | None => s3
              end
         else s3)
  end.

Global Arguments PHYSICS_DT_of : simpl never.
Global Arguments round_dt : simpl never.
Global Arguments to_float : simpl never.

(** ** Physics step dispatcher *)

(** The per-actor force and collision kernels (Beam.cpp, BeamForcesEuler.cpp,
    DynamicCollisions.cpp) are opaque operations on the physics state [W] of
    the simulation (nodes, beams, contacts), indexed by the slot of the
    actor they are invoked on.  [calcForcesEuler*] receive
    [(i == 0, PHYSICS_DT, i, m_physics_steps)]; the constant is left out. *)
Record Kernels (W : Type) := mkKernels {
  preUpdatePhysics : nat -> Q -> W -> W;
  postUpdatePhysics : nat -> Q -> W -> W;
  calcForcesEulerPrepare : nat -> bool -> nat -> Z -> W -> bool * W;
  calcForcesEulerCompute : nat -> bool -> nat -> Z -> W -> W;
  calcForcesEulerFinal : nat -> bool -> nat -> Z -> W -> W;
  (* IntraPointCD()->update(actor) followed by intraTruckCollisions(...) *)
  intraTruckCollisions : nat -> W -> W;
  (* InterPointCD()->update(actor, m_actors, m_free_actor_slot) *)
  InterPointCD_update : nat -> W -> W;
  ar_collision_relevant : nat -> W -> bool;
  interTruckCollisions : nat -> W -> W
}.

Arguments preUpdatePhysics {W}.
Arguments postUpdatePhysics {W}.
Arguments calcForcesEulerPrepare {W}.
Arguments calcForcesEulerCompute {W}.
Arguments calcForcesEulerFinal {W}.
Arguments intraTruckCollisions {W}.
Arguments InterPointCD_update {W}.
Arguments ar_collision_relevant {W}.
Arguments interTruckCollisions {W}.

(** Modelled from the spec: the class [ThreadPool] (ThreadPool.h) is not
    part of the sources at hand; the spec has the tasks of a batch submitted
    to the worker pool as one batch, and the caller wait for the whole
    batch to complete.  The pool chooses the order in which the tasks of a
    batch take effect, and a task takes effect as a unit.  A task is
    identified by the slot [t] its closure captured; a pool is given by the
    order it runs a batch in: [pool i inter tasks] for the batch [tasks]
    of substep [i], the batch of compute tasks ([inter = false]) or of
    inter-actor collision tasks ([inter = true]). *)
Definition ThreadPool : Type := nat -> bool -> list nat -> list nat.

(** The pool that runs every batch in the order of submission. *)
Definition submission_order : ThreadPool := fun _ _ tasks => tasks.

Section Dispatcher.

Context {W : Type}.
Variable K : Kernels W.

(** [ThreadPool::Parallelize(tasks)]: runs the batch, in the order [order]
    of the pool, and returns when every task has finished. *)
Definition Parallelize (order : list nat -> list nat) (run : nat -> W -> W)
    (tasks : list nat) (w : W) : W :=
  foldl (fun w t => run t w) w (order tasks).

(** Self-collision part shared by both modes. *)
Definition self_collision (actors : gmap nat Actor) (t : nat) (w : W) : W :=
  match actors !! t with
  | Some a =>
      if negb (ar_disable_self_collision a) then intraTruckCollisions K t w else w
  | None => w
  end.

(** Body of an inter-actor collision task. *)
Definition inter_task (t : nat) (w : W) : W :=
  let w1 := InterPointCD_update K t w in
  if ar_collision_relevant K t w1 then interTruckCollisions K t w1 else w1.

(** *** With a worker pool *)

(** First loop of a substep: prepare every actor, queue a task for the
    participating ones. *)
Definition parallel_prepare_body (i : nat) (steps : Z) (t : nat)
    (st : gmap nat Actor * nat * list nat * W) : gmap nat Actor * nat * list nat * W :=
  let '(actors, num_simulated_trucks, tasks, w) := st in
  match actors !! t with
  | None => st
  | Some a =>
      let '(b, w1) := calcForcesEulerPrepare K t (i =? 0) i steps w in
      let actors1 := <[t := set_ar_update_physics b a]> actors in
      if b
      then (actors1, S num_simulated_trucks, tasks ++ [t], w1)
      else (actors1, num_simulated_trucks, tasks, w1)
  end.

(** The closure queued for slot [t]. *)
Definition compute_task (actors : gmap nat Actor) (i : nat) (steps : Z)
    (t : nat) (w : W) : W :=
  self_collision actors t (calcForcesEulerCompute K t (i =? 0) i steps w).

Definition final_body (actors : gmap nat Actor) (i : nat) (steps : Z)
    (w : W) (t : nat) : W :=
  match actors !! t with
  | Some a =>
      if ar_update_physics a then calcForcesEulerFinal K t (i =? 0) i steps w else w
  | None => w
  end.

Definition inter_tasks (actors : gmap nat Actor) (nslots : nat) : list nat :=
  List.filter
    (fun t => match actors !! t with
              | Some a => ar_update_physics a
                          && negb (ar_disable_actor2actor_collision a)
              | None => false
              end)
    (seq 0 nslots).

Definition parallel_substep (pool : ThreadPool) (nslots : nat) (steps : Z)
    (st : gmap nat Actor * W) (i : nat) : gmap nat Actor * W :=
  let '(actors, w) := st in
  let '(actors1, num_simulated_trucks, tasks, w1) :=
    foldl (fun st t => parallel_prepare_body i steps t st)
      (actors, 0, [], w) (seq 0 nslots) in
  let w2 := Parallelize (pool i false) (compute_task actors1 i steps) tasks w1 in
  let w3 := foldl (final_body actors1 i steps) w2 (seq 0 nslots) in
  if 1 <? num_simulated_trucks
  then (actors1,
        Parallelize (pool i true) inter_task (inter_tasks actors1 nslots) w3)
  else (actors1, w3).

(** *** Without a worker pool *)

Definition serial_body (i : nat) (steps : Z) (t : nat)
    (st : gmap nat Actor * nat * W) : gmap nat Actor * nat * W :=
  let '(actors, num_simulated_trucks, w) := st in
  match actors !! t with
  | None => st
  | Some a =>
      let '(b, w1) := calcForcesEulerPrepare K t (i =? 0) i steps w in
      let actors1 := <[t := set_ar_update_physics b a]> actors in
      if b
      then
        let w2 := calcForcesEulerCompute K t (i =? 0) i steps w1 in
        let w3 := calcForcesEulerFinal K t (i =? 0) i steps w2 in
        (actors1, S num_simulated_trucks, self_collision actors1 t w3)
      else (actors1, num_simulated_trucks, w1)
  end.

Definition serial_inter_body (actors : gmap nat Actor) (w : W) (t : nat) : W :=
  match actors !! t with
  | Some a =>
      if ar_update_physics a && negb (ar_disable_actor2actor_collision a)
      then inter_task t w
      else w
  | None => w
  end.

Definition serial_substep (nslots : nat) (steps : Z)
    (st : gmap nat Actor * W) (i : nat) : gmap nat Actor * W :=
  let '(actors, w) := st in
  let '(actors1, num_simulated_trucks, w1) :=
    foldl (fun st t => serial_body i steps t st) (actors, 0, w) (seq 0 nslots) in
  if 1 <? num_simulated_trucks
  then (actors1, foldl (serial_inter_body actors1) w1 (seq 0 nslots))
  else (actors1, w1).

(** *** [ActorManager::UpdatePhysicsSimulation]

    [threadPool] is [gEnv->threadPool]: the pool, or [None] for the null
    pointer. *)
Definition UpdatePhysicsSimulation (threadPool : option ThreadPool)
    (s : ActorManager) (w : W) : ActorManager * W :=
  let n := m_free_actor_slot s in
  let steps := m_physics_steps s in
  let frame_dt := (inject_Z steps * PHYSICS_DT)%Q in
  let w0 :=
    foldl (fun w t => match m_actors s !! t with
                      | Some _ => preUpdatePhysics K t frame_dt w
                      | None => w
                      end) w (seq 0 n) in
  let '(actors1, w1) :=
    foldl (match threadPool with
           | Some pool => parallel_substep pool n steps
           | None => serial_substep n steps
           end)
      (m_actors s, w0) (seq 0 (Z.to_nat steps)) in
  let w2 :=
    foldl (fun w t => match actors1 !! t with
                      | Some a =>
                          if ar_update_physics a
                          then postUpdatePhysics K t frame_dt w
                          else w
                      | None => w
                      end) w1 (seq 0 n) in
  (set_m_actors actors1 s, w2).

End Dispatcher.

(** ** Remote actors *)

Definition set_ar_net_source_id (n : Z) (a : Actor) : Actor :=
  mkActor (ar_instance_id a) (ar_sim_state a) (ar_sleep_counter a)
    (ar_update_physics a)
    (ar_disable_self_collision a) (ar_disable_actor2actor_collision a)
    n (ar_net_stream_id a) (getVelocity a)
    (ar_bounding_box a) (ar_predicted_bounding_box a)
    (ar_collision_bounding_boxes a) (ar_predicted_coll_bounding_boxes a).

Definition set_ar_net_stream_id (n : Z) (a : Actor) : Actor :=
  mkActor (ar_instance_id a) (ar_sim_state a) (ar_sleep_counter a)
    (ar_update_physics a)
    (ar_disable_self_collision a) (ar_disable_actor2actor_collision a)
    (ar_net_source_id a) n (getVelocity a)
    (ar_bounding_box a) (ar_predicted_bounding_box a)
    (ar_collision_bounding_boxes a) (ar_predicted_coll_bounding_boxes a).

(** The scan of [getBeam] over the slots [ts]. *)
Fixpoint getBeam_scan (actors : gmap nat Actor) (source_id stream_id : Z)
    (ts : list nat) : option Actor :=
  match ts with
  | [] => None
  | t :: ts' =>
      match actors !! t with
      | None => getBeam_scan actors source_id stream_id ts'
      | Some a =>
          if negb (bool_decide (ar_sim_state a = NETWORKED_OK))
          then getBeam_scan actors source_id stream_id ts'
          else if bool_decide (ar_net_source_id a = source_id)
                  && bool_decide (ar_net_stream_id a = stream_id)
          then Some a
          else getBeam_scan actors source_id stream_id ts'
      end
  end.

(** [ActorManager::getBeam]; the null pointer is [None]. *)
Definition getBeam (source_id stream_id : Z) (s : ActorManager) : option Actor :=
  getBeam_scan (m_actors s) source_id stream_id (seq 0 (m_free_actor_slot s)).

(** [ActorManager::CreateRemoteInstance(reg)].  [checkResourceLoaded] is
    the answer of the cache system for [reg->name]; [origin_sourceid] and
    [origin_streamid] are the fields of [reg]; the name and the
    [truckconfig] strings of [reg] only feed the constructor of [Actor],
    whose outcome is [proto] as in [CreateLocalRigInstance].  The chat
    message and the refresh of the vehicle list are external. *)
Definition CreateRemoteInstance (MAX_TRUCKS : nat) (checkResourceLoaded : bool)
    (origin_sourceid origin_streamid : Z) (proto : Actor) (s : ActorManager)
  : Z * ActorManager :=
  if negb checkResourceLoaded then ((-1)%Z, s)
  else
    let '(truck_num, s1) := GetFreeTruckSlot MAX_TRUCKS s in
    if bool_decide (truck_num = -1)%Z then ((-1)%Z, s1)
    else
      let b := new_Actor (Z.to_nat truck_num) proto in
      if bool_decide (ar_sim_state b = INVALID)
      then ((-1)%Z, DeleteTruck (Some b) s1)
      else
        let b := set_ar_net_stream_id origin_streamid
                   (set_ar_net_source_id origin_sourceid b) in
        (1%Z, set_m_actors (<[Z.to_nat truck_num := b]> (m_actors s1)) s1).

(** Body of the loop of [RemoveStreamSource]. *)
Definition RemoveStreamSource_body (sourceid : Z) (s : ActorManager) (t : nat)
  : ActorManager :=
  match m_actors s !! t with
  | None => s
  | Some a =>
      if negb (bool_decide (ar_sim_state a = NETWORKED_OK)) then s
      else if bool_decide (ar_net_source_id a = sourceid)
      then DeleteTruck (Some a) s
      else s
  end.

(** [ActorManager::RemoveStreamSource].  The loop bound [m_free_actor_slot]
    is read once: [DeleteTruck] does not change it. *)
Definition RemoveStreamSource (sourceid : Z) (s : ActorManager) : ActorManager :=
  let s1 := set_m_stream_mismatches (delete sourceid (m_stream_mismatches s)) s in
  foldl (RemoveStreamSource_body sourceid) s1 (seq 0 (m_free_actor_slot s1)).

(** The scan of [checkStreamsRemoteOK].  [stream_result t] is the value of
    [m_actors[t]->ar_net_stream_results[sourceid]], a per-actor table of the
    answers of the other clients that is kept outside [Actor] here (a
    missing entry reads as 0, the default of [std::map::operator[]]; the
    entry that the operator inserts is not part of the embedding). *)
Fixpoint checkStreamsRemoteOK_scan (actors : gmap nat Actor) (stream_result : nat -> Z)
    (result : Z) (ts : list nat) : Z :=
  match ts with
  | [] => result
  | t :: ts' =>
      match actors !! t with
      | None => checkStreamsRemoteOK_scan actors stream_result result ts'
      | Some a =>
          if bool_decide (ar_sim_state a = NETWORKED_OK)
          then checkStreamsRemoteOK_scan actors stream_result result ts'
          else if bool_decide (stream_result t = -1)%Z then 0%Z
          else if bool_decide (stream_result t = 1)%Z
          then checkStreamsRemoteOK_scan actors stream_result 1%Z ts'
          else checkStreamsRemoteOK_scan actors stream_result result ts'
      end
  end.

(** [ActorManager::checkStreamsRemoteOK]. *)
Definition checkStreamsRemoteOK (stream_result : nat -> Z) (s : ActorManager) : Z :=
  checkStreamsRemoteOK_scan (m_actors s) stream_result 2%Z
    (seq 0 (m_free_actor_slot s)).

(** ** Waking and sleeping on request *)

Definition set_m_forced_active (b : bool) (s : ActorManager) : ActorManager :=
  mkActorManager (m_actors s) (m_free_actor_slot s) (m_player_actor s)
    (m_prev_player_actor s) (m_simulated_actor s) b
    (m_dt_remainder s) (m_physics_steps s) (m_physics_frames s)
    (m_simulation_speed s) (m_stream_mismatches s) (mrTime s).

(** [ActorManager::activateAllTrucks].  Besides the manager the function
    returns the slots whose [ar_disable_aerodyn_turbulent_drag] it
    overwrites, in the order of the writes; the value written there is
    [getTruck(m_simulated_actor)->ar_driveable == AIRPLANE], two fields of
    the flight model that are not part of [Actor] here. *)
Definition activateAllTrucks (s : ActorManager) : ActorManager * list nat :=
  let '(actors, drag_writes) :=
    foldl (fun (st : gmap nat Actor * list nat) t =>
             let '(m, writes) := st in
             match m !! t with
             | Some a =>
                 if bool_decide (ar_sim_state a = LOCAL_SLEEPING)
                 then (<[t := set_ar_sleep_counter 0
                                (set_ar_sim_state LOCAL_SIMULATED a)]> m,
                       match getTruck (m_simulated_actor s) (set_m_actors m s) with
                       | Some _ => writes ++ [t]
                       | None => writes
                       end)
                 else st
             | None => st
             end)
      (m_actors s, []) (seq 0 (m_free_actor_slot s)) in
  (set_m_actors actors s, drag_writes).

(** [ActorManager::sendAllTrucksSleeping]. *)
Definition sendAllTrucksSleeping (s : ActorManager) : ActorManager :=
  let s1 := set_m_forced_active false s in
  set_m_actors
    (foldl (fun m t =>
              match m !! t with
              | Some a =>
                  if bool_decide (ar_sim_state a = LOCAL_SIMULATED)
                  then <[t := set_ar_sim_state LOCAL_SLEEPING a]> m
                  else m
              | None => m
              end)
       (m_actors s1) (seq 0 (m_free_actor_slot s1))) s1.

(** ** Actors in a collision box *)

(** The loop of [FindTruckInsideBox].  [isInside t] is the answer of
    [collisions->isInside(m_actors[t]->ar_nodes[0].AbsPosition, inst, box)]:
    whether the first node of the actor of slot [t] lies in the box. *)
Fixpoint FindTruckInsideBox_loop (actors : gmap nat Actor) (isInside : nat -> bool)
    (id : Z) (ts : list nat) : Z :=
  match ts with
  | [] => id
  | t :: ts' =>
      match actors !! t with
      | None => FindTruckInsideBox_loop actors isInside id ts'
      | Some _ =>
          if isInside t
          then if bool_decide (id = -1)%Z
               then FindTruckInsideBox_loop actors isInside (Z.of_nat t) ts'
               else (-1)%Z
          else FindTruckInsideBox_loop actors isInside id ts'
      end
  end.

(** [ActorManager::FindTruckInsideBox]. *)
Definition FindTruckInsideBox (isInside : nat -> bool) (s : ActorManager) : Z :=
  FindTruckInsideBox_loop (m_actors s) isInside (-1)%Z (seq 0 (m_free_actor_slot s)).

(** [ActorManager::RemoveActorByCollisionBox]. *)
Definition RemoveActorByCollisionBox (isInside : nat -> bool) (s : ActorManager)
  : ActorManager :=
  removeTruck (FindTruckInsideBox isInside s) s.

(** ** Cycling through the actors *)

(** [ActorManager::GetMostRecentTruckSlot]. *)
Definition GetMostRecentTruckSlot (s : ActorManager) : Z :=
  match getTruck (m_player_actor s) s with
  | Some _ => m_player_actor s
  | None =>
      match getTruck (m_prev_player_actor s) s with
      | Some _ => m_prev_player_actor s
      | None => (-1)%Z
      end
  end.

(** The test of the three loops of [enterNextTruck] and
    [enterPreviousTruck] on [m_actors[i]].  [isPreloadedWithTerrain i] is
    the answer of that accessor for the actor of slot [i]. *)
Definition can_enter (isPreloadedWithTerrain : nat -> bool) (s : ActorManager)
    (i : nat) : bool :=
  match m_actors s !! i with
  | Some a =>
      negb (bool_decide (ar_sim_state a = NETWORKED_OK))
      && negb (isPreloadedWithTerrain i)
  | None => false
  end.

(** A loop that enters the first slot of [slots] passing the test and
    returns; [None] when the loop runs to its end. *)
Fixpoint enter_first (isPreloadedWithTerrain : nat -> bool) (s : ActorManager)
    (slots : list nat) : option ActorManager :=
  match slots with
  | [] => None
  | i :: slots' =>
      if can_enter isPreloadedWithTerrain s i
      then Some (setCurrentTruck (Z.of_nat i) s)
      else enter_first isPreloadedWithTerrain s slots'
  end.

(** The slots [from, from + 1, ..., to - 1]. *)
Definition slots_between (from to : Z) : list nat :=
  seq (Z.to_nat from) (Z.to_nat to - Z.to_nat from).

(** [ActorManager::enterNextTruck]. *)
Definition enterNextTruck (isPreloadedWithTerrain : nat -> bool) (s : ActorManager)
  : ActorManager :=
  let pivot_index := GetMostRecentTruckSlot s in
  match enter_first isPreloadedWithTerrain s
          (slots_between (pivot_index + 1) (Z.of_nat (m_free_actor_slot s))) with
  | Some s' => s'
  | None =>
      match enter_first isPreloadedWithTerrain s (slots_between 0 pivot_index) with
      | Some s' => s'
      | None =>
          if bool_decide (0 <= pivot_index)%Z
             && can_enter isPreloadedWithTerrain s (Z.to_nat pivot_index)
          then setCurrentTruck pivot_index s
          else s
      end
  end.

(** [ActorManager::enterPreviousTruck]: the same loops, downwards. *)
Definition enterPreviousTruck (isPreloadedWithTerrain : nat -> bool) (s : ActorManager)
  : ActorManager :=
  let pivot_index := GetMostRecentTruckSlot s in
  match enter_first isPreloadedWithTerrain s
          (rev (slots_between 0 pivot_index)) with
  | Some s' => s'
  | None =>
      match enter_first isPreloadedWithTerrain s
              (rev (slots_between (pivot_index + 1)
                      (Z.of_nat (m_free_actor_slot s)))) with
      | Some s' => s'
      | None =>
          if bool_decide (0 <= pivot_index)%Z
             && can_enter isPreloadedWithTerrain s (Z.to_nat pivot_index)
          then setCurrentTruck pivot_index s
          else s
      end
  end.

(** The scan of [enterRescueTruck]; [ar_rescuer_flag t] is that flag of
    the actor of slot [t]. *)
Fixpoint first_rescuer (actors : gmap nat Actor) (ar_rescuer_flag : nat -> bool)
    (ts : list nat) : option nat :=
  match ts with
  | [] => None
  | t :: ts' =>
      match actors !! t with
      | Some _ =>
          if ar_rescuer_flag t then Some t
          else first_rescuer actors ar_rescuer_flag ts'
      | None => first_rescuer actors ar_rescuer_flag ts'
      end
  end.

(** [ActorManager::enterRescueTruck]. *)
Definition enterRescueTruck (ar_rescuer_flag : nat -> bool) (s : ActorManager)
  : bool * ActorManager :=
  match first_rescuer (m_actors s) ar_rescuer_flag (seq 0 (m_free_actor_slot s)) with
  | Some t => (true, setCurrentTruck (Z.of_nat t) (setCurrentTruck (-1) s))
  | None => (false, s)
  end.

(** ** Worker pool set up by the constructor *)

(** The body of [ActorManager::ActorManager]: the value of
    [m_num_cpu_cores] and the number of threads of [gEnv->threadPool] and
    of [m_sim_thread_pool], [None] for a pool that is not created.
    [app_multithread], [NumThreadsInThreadPool] and [DisableThreadPool] are
    the settings read; [logical_cpus] and [physical_cpus] are the answers
    of [hardware_concurrency()] and [getNumberOfCPUCores()] converted to
    [int]. *)
Definition ActorManager_thread_pool (app_multithread : bool) (NumThreadsInThreadPool : Z)
    (DisableThreadPool : bool) (logical_cpus physical_cpus : Z)
  : Z * option Z * option Z :=
  if app_multithread
  then
    let m_num_cpu_cores :=
      if bool_decide (1 < NumThreadsInThreadPool)%Z then NumThreadsInThreadPool
      else if bool_decide (physical_cpus < 6)%Z
              && bool_decide (physical_cpus < logical_cpus)%Z
      then (logical_cpus - 1)%Z
      else (physical_cpus - 1)%Z in
    if bool_decide (m_num_cpu_cores < 2)%Z then (m_num_cpu_cores, None, Some 1%Z)
    else if negb DisableThreadPool
    then (m_num_cpu_cores, Some m_num_cpu_cores, Some 1%Z)
    else (m_num_cpu_cores, None, Some 1%Z)
  else (0%Z, None, None).

(** ** Network events *)

(** The commands [handleStreamData] tells apart; every other command is
    stream data for the networked actors. *)
Inductive Command :=
| MSG2_STREAM_REGISTER
| MSG2_STREAM_REGISTER_RESULT
| MSG2_STREAM_UNREGISTER
| MSG2_USER_LEAVE
| MSG2_STREAM_DATA.

(** [RoR::Networking::recv_packet_t]: the header fields the handler reads
    and its buffer read as a [RoRnet::StreamRegister] ([type], [status],
    [origin_sourceid], [origin_streamid]), together with what
    [CreateRemoteInstance] makes of the buffer: the answer of the cache
    system for the resource it names and the outcome of the constructor
    of [Actor]. *)
Record recv_packet_t := mk_recv_packet_t {
  header_command : Command;
  header_source : Z;
  header_streamid : Z;
  reg_type : Z;
  reg_status : Z;
  reg_origin_sourceid : Z;
  reg_origin_streamid : Z;
  reg_resource_loaded : bool;
  reg_proto : Actor
}.

(** What the handler does outside the fields of the embedding, in the
    order it does it. *)
Inductive StreamEffect :=
| AddPacket_REGISTER_RESULT (status : Z)
    (* RoR::Networking::AddPacket(0, MSG2_STREAM_REGISTER_RESULT, ..., reg) *)
| Set_ar_net_stream_results (t : nat) (sourceid status : Z)
    (* m_actors[t]->ar_net_stream_results[sourceid] = status *)
| receiveStreamData (t : nat).
    (* m_actors[t]->receiveStreamData(...) *)

(** The scan of the [MSG2_STREAM_REGISTER_RESULT] branch: the first local
    or invalid actor of the stream. *)
Fixpoint first_local_stream (actors : gmap nat Actor) (origin_streamid : Z)
    (ts : list nat) : option nat :=
  match ts with
  | [] => None
  | t :: ts' =>
      match actors !! t with
      | None => first_local_stream actors origin_streamid ts'
      | Some a =>
          if bool_decide (ar_sim_state a = NETWORKED_OK)
          then first_local_stream actors origin_streamid ts'
          else if bool_decide (ar_net_stream_id a = origin_streamid)
          then Some t
          else first_local_stream actors origin_streamid ts'
      end
  end.

(** The networked actors the last branch forwards the packet to. *)
Definition networked_slots (s : ActorManager) : list nat :=
  List.filter
    (fun t => match m_actors s !! t with
              | Some a => bool_decide (ar_sim_state a = NETWORKED_OK)
              | None => false
              end)
    (seq 0 (m_free_actor_slot s)).

(** Body of the loop of [handleStreamData] for one packet.  The
    mismatched streams of a source are a set: erasing the stream found by
    [std::find] removes it. *)
Definition handle_packet (MAX_TRUCKS : nat) (packet : recv_packet_t)
    (st : ActorManager * list StreamEffect) : ActorManager * list StreamEffect :=
  let '(s, effects) := st in
  match header_command packet with
  | MSG2_STREAM_REGISTER =>
      if bool_decide (reg_type packet = 0)%Z
      then
        let '(status, s1) :=
          CreateRemoteInstance MAX_TRUCKS (reg_resource_loaded packet)
            (reg_origin_sourceid packet) (reg_origin_streamid packet)
            (reg_proto packet) s in
        (s1, effects ++ [AddPacket_REGISTER_RESULT status])
      else st
  | MSG2_STREAM_REGISTER_RESULT =>
      match first_local_stream (m_actors s) (reg_origin_streamid packet)
              (seq 0 (m_free_actor_slot s)) with
      | Some t =>
          (s, effects ++ [Set_ar_net_stream_results t (header_source packet)
                            (reg_status packet)])
      | None => st
      end
  | MSG2_STREAM_UNREGISTER =>
      let s1 :=
        match getBeam (header_source packet) (header_streamid packet) s with
        | Some b =>
            if bool_decide (ar_sim_state b = NETWORKED_OK)
            then DeleteTruck (Some b) s
            else s
        | None => s
        end in
      match m_stream_mismatches s1 !! header_source packet with
      | Some mismatches =>
          (set_m_stream_mismatches
             (<[header_source packet := mismatches ∖ {[header_streamid packet]}]>
                (m_stream_mismatches s1)) s1,
           effects)
      | None => (s1, effects)
      end
  | MSG2_USER_LEAVE => (RemoveStreamSource (header_source packet) s, effects)
  | MSG2_STREAM_DATA => (s, effects ++ (receiveStreamData <$> networked_slots s))
  end.

(** [ActorManager::handleStreamData]: the new manager and what was done
    outside of it. *)
Definition handleStreamData (MAX_TRUCKS : nat) (packet_buffer : list recv_packet_t)
    (s : ActorManager) : ActorManager * list StreamEffect :=
  foldl (fun st packet => handle_packet MAX_TRUCKS packet st) (s, []) packet_buffer.

(** * Specification vocabulary *)

(** ** What wake propagation may do to an actor *)

(** Waking an actor: state [LOCAL_SIMULATED], sleep timer zero. *)
Definition wake (a : Actor) : Actor :=
  set_ar_sim_state LOCAL_SIMULATED (set_ar_sleep_counter 0 a).

Definition is_local (a : Actor) : Prop :=
  ar_sim_state a = LOCAL_SIMULATED \/ ar_sim_state a = LOCAL_SLEEPING.

(** One actor before and after wake propagation: untouched, or a local
    actor that was woken (for a simulated actor this is the timer reset). *)
Definition actor_step (a a' : Actor) : Prop :=
  a' = a \/ (is_local a /\ a' = wake a).

Definition actors_step (m m' : gmap nat Actor) : Prop :=
  forall t, option_Forall2 actor_step (m !! t) (m' !! t).

(** Every visited slot holds a simulated actor. *)
Definition vis_sim (st : WakeState) : Prop :=
  forall x, x ∈ st.2 -> exists a, st.1 !! x = Some a /\ ar_sim_state a = LOCAL_SIMULATED.

Definition vis_bounded (n : nat) (st : WakeState) : Prop :=
  forall x, x ∈ st.2 -> x < n.

(** No sleeping actor [t] below the high-water mark is left whose predicted
    geometry overlaps that of [x]. *)
Definition closed_pair (m : gmap nat Actor) (t x : nat) : Prop :=
  forall at_ ax, m !! t = Some at_ -> m !! x = Some ax ->
    predictTruckIntersectionCollAABB at_ ax 1 = true ->
    ar_sim_state at_ <> LOCAL_SLEEPING.

Definition closed_at (n : nat) (m : gmap nat Actor) (x : nat) : Prop :=
  forall t, t < n -> t <> x -> closed_pair m t x.

(** Actor [a] in slot [t] has a visited wake source [x]: another slot whose
    actor it overlaps, the way [RecursiveActivation] tests it. *)
Definition caused (m : gmap nat Actor) (v : gset nat) (t : nat) (a : Actor) : Prop :=
  exists x ax, x ∈ v /\ x <> t /\ m !! x = Some ax /\
    ((ar_sim_state a = LOCAL_SIMULATED /\ truckIntersectionCollAABB a ax (binary32 (12 # 10)) = true)
     \/ (ar_sim_state a = LOCAL_SLEEPING /\ predictTruckIntersectionCollAABB a ax 1 = true)).

(** Relation between the state before and after a stretch of wake
    propagation over the slots below [n]. *)
Record wake_post (n : nat) (st st' : WakeState) : Prop := mk_wake_post {
  wp_visited : st.2 ⊆ st'.2;
  wp_step : actors_step st.1 st'.1;
  wp_bounded : forall x, x ∈ st'.2 -> x ∈ st.2 \/ x < n;
  wp_new_sim : forall x, x ∈ st'.2 -> x ∉ st.2 ->
      exists a, st'.1 !! x = Some a /\ ar_sim_state a = LOCAL_SIMULATED;
  wp_closed : forall x, x ∈ st'.2 -> x ∉ st.2 -> closed_at n st'.1 x;
  wp_changed : forall t a a', st.1 !! t = Some a -> st'.1 !! t = Some a' ->
      a' = a \/ (t < n /\ caused st'.1 st'.2 t a);
  wp_woken : forall t a a', st.1 !! t = Some a -> st'.1 !! t = Some a' ->
      ar_sim_state a = LOCAL_SLEEPING -> ar_sim_state a' <> LOCAL_SLEEPING ->
      t ∈ st'.2
}.

(** Post-condition of a call [RecursiveActivation(j, visited)]. *)
Definition RA_post (n j : nat) (st st' : WakeState) : Prop :=
  wake_post n st st' /\
  (forall a, st.1 !! j = Some a -> ar_sim_state a = LOCAL_SIMULATED -> j ∈ st'.2).

(** Pre-condition under which a call with [fuel] does not run out. *)
Definition RA_pre (n fuel : nat) (st : WakeState) : Prop :=
  vis_sim st /\ vis_bounded n st /\ n - size st.2 < fuel.

(** Actor table at the start of wake propagation in [UpdateSleepingState]:
    after the write [current_truck->ar_sleep_counter = 0.0f]. *)
Definition reset_player (s : ActorManager) : gmap nat Actor :=
  match GetPlayerActorInternal s with
  | Some cur =>
      if bool_decide (ar_sim_state cur = LOCAL_SIMULATED)
      then <[Z.to_nat (m_player_actor s) := set_ar_sleep_counter 0 cur]> (m_actors s)
      else m_actors s
  | None => m_actors s
  end.

Definition before_wake (dt : Q) (s : ActorManager) : gmap nat Actor :=
  reset_player (wake_player (sleep_phase dt s)).

(** [a'] is [a] up to the sleep state and the sleep timer. *)
Definition same_body (a a' : Actor) : Prop :=
  a' = set_ar_sim_state (ar_sim_state a') (set_ar_sleep_counter (ar_sleep_counter a') a).

(** Slot [t] is the slot of the player actor, as [GetPlayerActorInternal]
    finds it. *)
Definition player_slot (s : ActorManager) (t : nat) : bool :=
  bool_decide (m_player_actor s = Z.of_nat t) && (t <? m_free_actor_slot s).

(** What the blocks of [UpdateSleepingState] before wake propagation do to
    the actor of slot [t]. *)
Definition pre_wake_actor (dt : Q) (s : ActorManager) (t : nat) (a : Actor) : Actor :=
  let a1 :=
    if negb (m_forced_active s) && (t <? m_free_actor_slot s)
    then sleep_step dt a else a in
  let a2 :=
    if player_slot s t && bool_decide (ar_sim_state a1 = LOCAL_SLEEPING)
    then set_ar_sim_state LOCAL_SIMULATED a1 else a1 in
  if player_slot s t && bool_decide (ar_sim_state a2 = LOCAL_SIMULATED)
  then set_ar_sleep_counter 0 a2 else a2.

(** ** Arithmetic vocabulary *)

(** [x] is within the range of the finite floats: the operation that gave
    it has not overflowed to an infinity. *)
Definition finite32 (x : Q) : Prop := (Qabs x < 2 ^ 128)%Q.

(** ** Registry vocabulary *)

(** Slot [t] can still be handed out: it is empty and not below the
    high-water mark. *)
Definition slot_free (s : ActorManager) (t : nat) : Prop :=
  m_free_actor_slot s <= t /\ m_actors s !! t = None.

(** Registry invariant: every actor sits below the high-water mark, in the
    slot its own index field names. *)
Definition registry_wf (s : ActorManager) : Prop :=
  forall t a, m_actors s !! t = Some a ->
    t < m_free_actor_slot s /\ ar_instance_id a = t.

(** The mismatch set of a source, empty when the map has no entry. *)
Definition mismatch_set (s : ActorManager) (sourceid : Z) : gset Z :=
  default ∅ (m_stream_mismatches s !! sourceid).

(** A networked actor of the source sits below the high-water mark. *)
Definition networked_actor_of (s : ActorManager) (sourceid : Z) : Prop :=
  exists t a, t < m_free_actor_slot s /\ m_actors s !! t = Some a /\
              ar_sim_state a = NETWORKED_OK /\ ar_net_source_id a = sourceid.

(** ** Scheduler vocabulary *)

(** The time a frame has to spend: the clamped delta, scaled by the
    simulation speed, plus the remainder carried from the previous frame. *)
Definition frame_total (dt : Q) (s : ActorManager) : Q :=
  (std_min dt (1 / 20) * m_simulation_speed s + m_dt_remainder s)%Q.





(** ** Dispatcher vocabulary *)

(** The kernel invocations whose order differs between the two modes. *)
Inductive KernelOp :=
| KPrepare (t : nat) (d : bool) (i : nat) (steps : Z)
| KCompute (t : nat) (d : bool) (i : nat) (steps : Z)
| KFinal (t : nat) (d : bool) (i : nat) (steps : Z)
| KIntra (t : nat).

Definition kernel_actor (o : KernelOp) : nat :=
  match o with
  | KPrepare t _ _ _ | KCompute t _ _ _ | KFinal t _ _ _ | KIntra t => t
  end.

Definition run_kernel {W : Type} (K : Kernels W) (o : KernelOp) (w : W) : W :=
  match o with
  | KPrepare t d i n => (calcForcesEulerPrepare K t d i n w).2
  | KCompute t d i n => calcForcesEulerCompute K t d i n w
  | KFinal t d i n => calcForcesEulerFinal K t d i n w
  | KIntra t => intraTruckCollisions K t w
  end.

(** The pool runs every task of a batch, once. *)
Definition runs_every_task (pool : ThreadPool) : Prop :=
  forall i inter tasks, pool i inter tasks ≡ₚ tasks.

(** Kernels of different actors do not interfere: they commute, and the
    participation answer of an actor's prepare step does not depend on
    what the kernels of other actors did before; the inter-actor collision
    tasks of different actors commute.  For the actors of [actors] with
    self-collision enabled, self-collision and finalization commute. *)
Record independent_actors {W : Type} (K : Kernels W) (actors : gmap nat Actor)
  : Prop := mk_independent_actors {
  ia_commute : forall o1 o2 w,
    kernel_actor o1 <> kernel_actor o2 ->
    run_kernel K o1 (run_kernel K o2 w) = run_kernel K o2 (run_kernel K o1 w);
  ia_participation : forall o t d i n w,
    kernel_actor o <> t ->
    (calcForcesEulerPrepare K t d i n (run_kernel K o w)).1
    = (calcForcesEulerPrepare K t d i n w).1;
  ia_self_collision : forall t a d i n w,
    actors !! t = Some a -> ar_disable_self_collision a = false ->
    intraTruckCollisions K t (calcForcesEulerFinal K t d i n w)
    = calcForcesEulerFinal K t d i n (intraTruckCollisions K t w);
  ia_inter : forall t1 t2 w,
    t1 <> t2 ->
    inter_task K t1 (inter_task K t2 w) = inter_task K t2 (inter_task K t1 w)
}.

(** [a'] is [a] with another participation flag. *)
Definition reflag (a a' : Actor) : Prop :=
  exists b, a' = set_ar_update_physics b a.

Definition flags_rel (m m' : gmap nat Actor) : Prop :=
  forall t, option_Forall2 reflag (m !! t) (m' !! t).

(** [G] only involves the actor of slot [t]. *)
Definition local_to {W : Type} (K : Kernels W) (t : nat) (G : W -> W) : Prop :=
  (forall o w, kernel_actor o <> t -> G (run_kernel K o w) = run_kernel K o (G w)) /\
  (forall t' d i n w, t' <> t ->
     (calcForcesEulerPrepare K t' d i n (G w)).1
     = (calcForcesEulerPrepare K t' d i n w).1).

Section DispatcherPhases.

Context {W : Type}.
Variables (K : Kernels W) (actors0 : gmap nat Actor) (i : nat) (steps : Z).

(** The prepare loop of a substep over the slots [l]: the actor table with
    the new participation flags, the participating slots in slot order
    and the physics state. *)
Fixpoint prepare_phase (l : list nat) (actors : gmap nat Actor) (w : W)
  : gmap nat Actor * list nat * W :=
  match l with
  | [] => (actors, [], w)
  | t :: l' =>
      match actors !! t with
      | None => prepare_phase l' actors w
      | Some a =>
          let r := calcForcesEulerPrepare K t (i =? 0) i steps w in
          let '(actors', ts, w') :=
            prepare_phase l' (<[t := set_ar_update_physics r.1 a]> actors) r.2 in
          (actors', if r.1 then t :: ts else ts, w')
      end
  end.

(** Compute, finalize and self-collision of one actor, back to back. *)
Definition fused_actor (t : nat) (w : W) : W :=
  self_collision K actors0 t
    (calcForcesEulerFinal K t (i =? 0) i steps
       (calcForcesEulerCompute K t (i =? 0) i steps w)).

(** The single loop of a substep without a worker pool. *)
Fixpoint fused_phase (l : list nat) (actors : gmap nat Actor) (w : W)
  : gmap nat Actor * list nat * W :=
  match l with
  | [] => (actors, [], w)
  | t :: l' =>
      match actors !! t with
      | None => fused_phase l' actors w
      | Some a =>
          let r := calcForcesEulerPrepare K t (i =? 0) i steps w in
          let '(actors', ts, w') :=
            fused_phase l' (<[t := set_ar_update_physics r.1 a]> actors)
              (if r.1 then fused_actor t r.2 else r.2) in
          (actors', if r.1 then t :: ts else ts, w')
      end
  end.

(** The batch of compute tasks and the finalize loop, over the
    participating slots. *)
Definition compute_phase (ts : list nat) (w : W) : W :=
  foldl (fun w t => self_collision K actors0 t
                      (calcForcesEulerCompute K t (i =? 0) i steps w)) w ts.

Definition final_phase (ts : list nat) (w : W) : W :=
  foldl (fun w t => calcForcesEulerFinal K t (i =? 0) i steps w) w ts.

End DispatcherPhases.

(** ** What a pass of the state machine may do to an actor *)

(** Only the sleep state and the sleep timer change, a local actor stays
    local and any other actor is left alone. *)
Definition sleep_wake_step (a a' : Actor) : Prop :=
  same_body a a' /\ (is_local a -> is_local a') /\ (~ is_local a -> a' = a).

(** ** Stream vocabulary *)

(** [a] is the networked actor of stream [stream_id] of source
    [source_id]. *)
Definition is_stream_actor (source_id stream_id : Z) (a : Actor) : Prop :=
  ar_sim_state a = NETWORKED_OK /\
  ar_net_source_id a = source_id /\ ar_net_stream_id a = stream_id.

(** For a local or invalid actor of the slots [a0, a0 + len) the remote
    side answered [code]. *)
Definition answered_in (actors : gmap nat Actor) (stream_result : nat -> Z)
    (a0 len : nat) (code : Z) : Prop :=
  exists t a, a0 <= t < a0 + len /\ actors !! t = Some a /\
              ar_sim_state a <> NETWORKED_OK /\ stream_result t = code.

(** The same for the slots below the high-water mark. *)
Definition remote_answer (stream_result : nat -> Z) (s : ActorManager) (code : Z)
  : Prop :=
  answered_in (m_actors s) stream_result 0 (m_free_actor_slot s) code.

(** ** Vocabulary of the requests to wake or sleep *)

(** The slots below the high-water mark that hold a sleeping actor, in
    slot order. *)
Definition sleeping_slots (s : ActorManager) : list nat :=
  List.filter
    (fun t => match m_actors s !! t with
              | Some a => bool_decide (ar_sim_state a = LOCAL_SLEEPING)
              | None => false
              end)
    (seq 0 (m_free_actor_slot s)).

(** ** Vocabulary of the box lookup *)

(** Slot [t] of the range [a0, a0 + len) holds an actor whose first node
    is in the box. *)
Definition inside_in (actors : gmap nat Actor) (isInside : nat -> bool)
    (a0 len t : nat) : Prop :=
  a0 <= t < a0 + len /\ is_Some (actors !! t) /\ isInside t = true.

(** The same for the slots below the high-water mark. *)
Definition inside_slot (isInside : nat -> bool) (s : ActorManager) (t : nat) : Prop :=
  inside_in (m_actors s) isInside 0 (m_free_actor_slot s) t.

(** ** Vocabulary of the cycling through the actors *)

(** No slot [i] with [lo <= i < hi] passes the test of the loops. *)
Definition none_enterable (isPreloadedWithTerrain : nat -> bool) (s : ActorManager)
    (lo hi : Z) : Prop :=
  forall i, (lo <= Z.of_nat i < hi)%Z -> can_enter isPreloadedWithTerrain s i = false.

(** [j] is the first slot that passes the test when the slots below the
    high-water mark are walked upwards from [pivot + 1], around the end
    and back to [pivot]. *)
Definition is_next (isPreloadedWithTerrain : nat -> bool) (s : ActorManager)
    (pivot : Z) (j : nat) : Prop :=
  can_enter isPreloadedWithTerrain s j = true /\ j < m_free_actor_slot s /\
  ((pivot < Z.of_nat j /\
    none_enterable isPreloadedWithTerrain s (pivot + 1) (Z.of_nat j))%Z
   \/ (Z.of_nat j < pivot /\
       none_enterable isPreloadedWithTerrain s (pivot + 1)
         (Z.of_nat (m_free_actor_slot s)) /\
       none_enterable isPreloadedWithTerrain s 0 (Z.of_nat j))%Z
   \/ (Z.of_nat j = pivot /\
       none_enterable isPreloadedWithTerrain s (pivot + 1)
         (Z.of_nat (m_free_actor_slot s)) /\
       none_enterable isPreloadedWithTerrain s 0 pivot)).

(** The same walking downwards from [pivot - 1]. *)
Definition is_previous (isPreloadedWithTerrain : nat -> bool) (s : ActorManager)
    (pivot : Z) (j : nat) : Prop :=
  can_enter isPreloadedWithTerrain s j = true /\ j < m_free_actor_slot s /\
  ((Z.of_nat j < pivot /\
    none_enterable isPreloadedWithTerrain s (Z.of_nat j + 1) pivot)%Z
   \/ (pivot < Z.of_nat j /\
       none_enterable isPreloadedWithTerrain s 0 pivot /\
       none_enterable isPreloadedWithTerrain s (Z.of_nat j + 1)
         (Z.of_nat (m_free_actor_slot s)))%Z
   \/ (Z.of_nat j = pivot /\
       none_enterable isPreloadedWithTerrain s 0 pivot /\
       none_enterable isPreloadedWithTerrain s (pivot + 1)
         (Z.of_nat (m_free_actor_slot s)))).

(** Slot [t] holds a rescue actor below the high-water mark. *)
Definition rescuer_slot (ar_rescuer_flag : nat -> bool) (s : ActorManager) (t : nat)
  : Prop :=
  t < m_free_actor_slot s /\ is_Some (m_actors s !! t) /\ ar_rescuer_flag t = true.

(** * Concrete scenarios *)

(** ** Actors and managers used in the examples *)

Definition box_x (x0 x1 : Q) : AxisAlignedBox :=
  mkAABB (mkVector3 x0 0 0) (mkVector3 x1 1 1).

(** An actor with the given slot, state, sleep timer, speed along x and
    bounding box (also its predicted box); self-collision enabled. *)
Definition example_actor (id : nat) (st : SimState) (timer speed : Q)
    (b : AxisAlignedBox) : Actor :=
  mkActor id st timer false false false 0 0 (mkVector3 speed 0 0) b b [] [].

Definition example_manager (actors : gmap nat Actor) (free : nat) (player : Z)
  : ActorManager :=
  mkActorManager actors free player (-1) 0 false 0 0 0 1 ∅ 0.

(** A lone simulated actor at rest, nobody at the wheel. *)
Definition lone_actor : Actor :=
  example_actor 0 LOCAL_SIMULATED 0 0 (box_x 0 1).

Definition lone_actor_manager : ActorManager :=
  example_manager {[ 0 := lone_actor ]} 1 (-1).

(** The physics between two frames gives the actor of slot [t] a new
    velocity. *)
Definition set_speed (t : nat) (speed : Q) (s : ActorManager) : ActorManager :=
  set_m_actors (alter (set_getVelocity (mkVector3 speed 0 0)) t (m_actors s)) s.

Definition run_frames (n : nat) (dt : Q) (s : ActorManager) : ActorManager :=
  Nat.iter n (UpdateSleepingState dt) s.

Definition timer_of (s : ActorManager) (t : nat) : Q :=
  default 0%Q (ar_sleep_counter <$> m_actors s !! t).

Definition state_of (s : ActorManager) (t : nat) : option SimState :=
  ar_sim_state <$> m_actors s !! t.

(** The sleep rule as claim C3 words it, for comparison with
    [sleep_step]: a frame above the speed threshold restarts the timer. *)
Definition continuous_sleep_step (dt : Q) (a : Actor) : Actor :=
  if negb (bool_decide (ar_sim_state a = LOCAL_SIMULATED)) then a
  else if Qlt_bool (binary32 (1 # 100)) (squaredLength (getVelocity a))
  then set_ar_sleep_counter 0 a
  else
    let a1 := set_ar_sleep_counter (fadd (ar_sleep_counter a) dt) a in
    if Qle_bool 10 (ar_sleep_counter a1)
    then set_ar_sim_state LOCAL_SLEEPING a1
    else a1.

(** The simulated time of a frame of 1/20 s: the float [0.05f]. *)
Definition frame_time : Q := binary32 (1 # 20).

(** 120 frames at rest, one fast frame, 80 frames at rest, in frames of
    [0.05f] s. *)
Definition interrupted_rest : ActorManager :=
  run_frames 80 frame_time
    (set_speed 0 0
       (UpdateSleepingState frame_time
          (set_speed 0 5 (run_frames 120 frame_time lone_actor_manager)))).

Definition interrupted_rest_as_claimed : Actor :=
  Nat.iter 80 (continuous_sleep_step frame_time)
    (set_getVelocity (mkVector3 0 0 0)
       (continuous_sleep_step frame_time
          (set_getVelocity (mkVector3 5 0 0)
             (Nat.iter 120 (continuous_sleep_step frame_time) lone_actor)))).

(** Player actor A (slot 0) moving, B (slot 1) asleep and overlapping A,
    C (slot 2) asleep and overlapping B but not A. *)
Definition actor_A : Actor := example_actor 0 LOCAL_SIMULATED 0 5 (box_x 0 2).
Definition actor_B : Actor := example_actor 1 LOCAL_SLEEPING 11 0 (box_x 1 3).
Definition actor_C : Actor := example_actor 2 LOCAL_SLEEPING 11 0 (box_x (5 # 2) 4).

Definition chain_manager : ActorManager :=
  example_manager {[ 0 := actor_A; 1 := actor_B; 2 := actor_C ]} 3 0.

(** A networked actor N (slot 0) overlapping a sleeping local actor
    (slot 1); nobody at the wheel. *)
Definition actor_N : Actor := example_actor 0 NETWORKED_OK 0 5 (box_x 0 2).

Definition networked_manager : ActorManager :=
  example_manager {[ 0 := actor_N; 1 := actor_B ]} 2 (-1).

(** A registry of capacity 3: three spawns, then the actor of slot 0 is
    deleted. *)
Definition full_then_deleted : ActorManager :=
  (registry_run 3
     [OpSpawn lone_actor; OpSpawn lone_actor; OpSpawn lone_actor; OpDelete 0]
     ActorManager_new).1.

(** An actor whose construction failed. *)
Definition invalid_actor : Actor := example_actor 0 INVALID 0 0 (box_x 0 1).

(** ** A kernel family that records its invocations *)

Inductive KernelEvent :=
| EvPreUpdate (t : nat)
| EvPostUpdate (t : nat)
| EvPrepare (t i : nat)
| EvCompute (t i : nat)
| EvFinal (t i : nat)
| EvIntraCollisions (t : nat)
| EvInterUpdate (t : nat)
| EvInterCollisions (t : nat).

(** Every actor participates; the physics state is the log of kernel
    invocations in the order they ran. *)
Definition logging_kernels : Kernels (list KernelEvent) :=
  mkKernels (list KernelEvent)
    (fun t _ w => w ++ [EvPreUpdate t])
    (fun t _ w => w ++ [EvPostUpdate t])
    (fun t _ i _ w => (true, w ++ [EvPrepare t i]))
    (fun t _ i _ w => w ++ [EvCompute t i])
    (fun t _ i _ w => w ++ [EvFinal t i])
    (fun t w => w ++ [EvIntraCollisions t])
    (fun t w => w ++ [EvInterUpdate t])
    (fun _ _ => true)
    (fun t w => w ++ [EvInterCollisions t]).

(** One actor with self-collision enabled, one substep per frame. *)
Definition one_actor_frame : ActorManager :=
  mkActorManager
    {[ 0 := example_actor 0 LOCAL_SIMULATED 0 5 (box_x 0 1) ]}
    1 0 (-1) 0 false 0 1 0 1 ∅ 0.

(** Two actors with self-collision and inter-actor collision disabled,
    one substep per frame. *)
Definition no_collision_actor (id : nat) : Actor :=
  mkActor id LOCAL_SIMULATED 0 false true true 0 0 (mkVector3 5 0 0)
    (box_x 0 1) (box_x 0 1) [] [].

Definition two_actor_frame : ActorManager :=
  mkActorManager
    {[ 0 := no_collision_actor 0; 1 := no_collision_actor 1 ]}
    2 0 (-1) 0 false 0 1 0 1 ∅ 0.

(** ** A kernel family of one bouncing body *)

(** The physics state is the height and the vertical velocity of one
    node.  Finalization is the Euler step of the position; self-collision
    reflects the velocity of a node that is below the ground. *)
Definition bouncing_kernels : Kernels (Z * Z) :=
  mkKernels (Z * Z)
    (fun _ _ w => w)
    (fun _ _ w => w)
    (fun _ _ _ _ w => (true, w))
    (fun _ _ _ _ w => w)
    (fun _ _ _ _ w => (w.1 + w.2, w.2)%Z)
    (fun _ w => if (w.1 <? 0)%Z then (w.1, - w.2)%Z else w)
    (fun _ w => w)
    (fun _ _ => false)
    (fun _ w => w).

(** ** A kernel family of two independent scalar bodies *)

(** [f] applied to the body of slot [t]; slots 0 and 1 have a body. *)
Definition on_body (t : nat) (f : Z -> Z) (w : Z * Z) : Z * Z :=
  match t with
  | 0 => (f w.1, w.2)
  | 1 => (w.1, f w.2)
  | _ => w
  end.

Definition scalar_kernels : Kernels (Z * Z) :=
  mkKernels (Z * Z)
    (fun t _ w => on_body t (fun x => x + 7)%Z w)
    (fun t _ w => on_body t (fun x => x - 1)%Z w)
    (fun t _ _ _ w => (true, on_body t (fun x => x + 2)%Z w))
    (fun t _ _ _ w => on_body t (fun x => 2 * x)%Z w)
    (fun t _ _ _ w => on_body t (fun x => x + 1)%Z w)
    (fun t w => on_body t (fun x => 3 * x)%Z w)
    (fun t w => on_body t (fun x => x + 5)%Z w)
    (fun _ _ => true)
    (fun t w => (w.1 + w.2, w.1 - w.2)%Z).

(** Two actors with self-collision disabled and inter-actor collision
    enabled, [steps] substeps per frame. *)
Definition inter_collision_actor (id : nat) : Actor :=
  mkActor id LOCAL_SIMULATED 0 false true false 0 0 (mkVector3 5 0 0)
    (box_x 0 1) (box_x 0 1) [] [].

Definition two_actor_frames (steps : Z) : ActorManager :=
  mkActorManager
    {[ 0 := inter_collision_actor 0; 1 := inter_collision_actor 1 ]}
    2 0 (-1) 0 false 0 steps 0 1 ∅ 0.

(** ** A kernel family of two bodies that exchange momentum *)

(** An inter-actor collision of the actor of slot [t] moves one unit from
    the other body to the body of [t]. *)
Definition exchange (t : nat) (w : Z * Z) : Z * Z :=
  match t with
  | 0 => (w.1 + 1, w.2 - 1)%Z
  | 1 => (w.1 - 1, w.2 + 1)%Z
  | _ => w
  end.

(** The force computation doubles the body of its actor, every other
    kernel translates it. *)
Definition exchange_kernels : Kernels (Z * Z) :=
  mkKernels (Z * Z)
    (fun t _ w => on_body t (fun x => x + 7)%Z w)
    (fun t _ w => on_body t (fun x => x - 1)%Z w)
    (fun t _ _ _ w => (true, on_body t (fun x => x + 2)%Z w))
    (fun t _ _ _ w => on_body t (fun x => 2 * x)%Z w)
    (fun t _ _ _ w => on_body t (fun x => x + 1)%Z w)
    (fun t w => on_body t (fun x => x + 3)%Z w)
    (fun t w => on_body t (fun x => x + 5)%Z w)
    (fun _ _ => true)
    exchange.

(** Two actors with self-collision and inter-actor collision enabled,
    [steps] substeps per frame. *)
Definition colliding_actor (id : nat) : Actor :=
  mkActor id LOCAL_SIMULATED 0 false false false 0 0 (mkVector3 5 0 0)
    (box_x 0 1) (box_x 0 1) [] [].

Definition two_colliding_frames (steps : Z) : ActorManager :=
  mkActorManager
    {[ 0 := colliding_actor 0; 1 := colliding_actor 1 ]}
    2 0 (-1) 0 false 0 steps 0 1 ∅ 0.

(** A pool that runs every batch last task first. *)
Definition reversed_order : ThreadPool := fun _ _ tasks => rev tasks.

(** ** Scenarios of the frame scheduler *)

(** A manager that carries the remainder [0.000125f] after 31 substeps. *)
Definition carried_remainder_manager : ActorManager :=
  set_timing 1 31 (binary32 (1 # 8000)) (binary32 (31 # 2000)) ActorManager_new.

(** A simulation that runs 10^8 times faster. *)
Definition fast_forward_manager : ActorManager :=
  mkActorManager ∅ 0 (-1) (-1) 0 false 0 2000 0 100000000 ∅ 0.

(** ** Scenarios for the further operations *)

(** A lone actor at rest for 9.5 s, with the sleep accumulator switched
    off by [m_forced_active]. *)
Definition forced_active_manager : ActorManager :=
  set_m_forced_active true
    (example_manager {[ 0 := example_actor 0 LOCAL_SIMULATED (19 # 2) 0 (box_x 0 1) ]}
       1 (-1)).

(** A sleeping actor (slot 0) with the player at the wheel. *)
Definition sleeping_player_manager : ActorManager :=
  example_manager {[ 0 := example_actor 0 LOCAL_SLEEPING 11 0 (box_x 0 1) ]} 1 0.

(** A networked actor of stream [stream_id] of source [source_id]. *)
Definition remote_actor (id : nat) (source_id stream_id : Z) : Actor :=
  set_ar_net_stream_id stream_id
    (set_ar_net_source_id source_id (example_actor id NETWORKED_OK 0 0 (box_x 0 1))).

(** Two streams of source 7 and one of source 8, a local actor in between;
    source 7 has a mismatched stream on record. *)
Definition remote_manager : ActorManager :=
  set_m_stream_mismatches {[ 7%Z := {[ 5%Z ]} ]}
    (example_manager
       {[ 0 := remote_actor 0 7 1; 1 := example_actor 1 LOCAL_SLEEPING 11 0 (box_x 1 3);
          2 := remote_actor 2 8 1; 3 := remote_actor 3 7 2 ]} 4 (-1)).


(** Source 9 announces its stream 1, a networked actor, and withdraws
    it. *)
Definition register_packet : recv_packet_t :=
  mk_recv_packet_t MSG2_STREAM_REGISTER 9 1 0 0 9 1 true (remote_actor 0 0 0).

Definition unregister_packet : recv_packet_t :=
  mk_recv_packet_t MSG2_STREAM_UNREGISTER 9 1 0 0 0 0 false (remote_actor 0 0 0).

(** * Rounding *)

Lemma pow2_pos (e : Z) : (0 < 2 ^ e)%Q.
Proof. apply Qpower_0_lt. reflexivity. Qed.

Lemma pow2_plus (a b : Z) : (2 ^ (a + b) == 2 ^ a * 2 ^ b)%Q.
Proof. apply Qpower_plus. discriminate. Qed.


Lemma pow2_pred (a : Z) : (2 ^ (a - 1) == 2 ^ a * (1 # 2))%Q.
Proof. unfold Z.sub. rewrite pow2_plus. reflexivity. Qed.

Lemma pow2_Z (n : Z) : (0 <= n)%Z -> (inject_Z (2 ^ n) == 2 ^ n)%Q.
Proof. intros H. apply (Zpower_Qpower 2 n H). Qed.

Lemma ilog2_lower (q : Q) : (0 < q)%Q -> (2 ^ ilog2 q <= q)%Q.
Proof.
  intros Hq. unfold ilog2.
  set (a := Z.log2 (Qnum q)). set (b := Z.log2 (Z.pos (Qden q))).
  destruct (Qle_bool (2 ^ (a - b)) q) eqn:E.
  - by apply Qle_bool_iff.
  - assert (Hn : (0 < Qnum q)%Z).
    { unfold Qlt in Hq. simpl in Hq. lia. }
    destruct (Z.log2_spec (Qnum q) Hn) as [Ha _]. fold a in Ha.
    destruct (Z.log2_spec (Z.pos (Qden q)) eq_refl) as [_ Hb]. fold b in Hb.
    assert (Ha0 : (0 <= a)%Z) by apply Z.log2_nonneg.
    assert (Hb0 : (0 <= b)%Z) by apply Z.log2_nonneg.
    (* 2^(a-b-1) = 2^a / 2^(b+1) <= n / d *)
    assert (E1 : (2 ^ (a - b - 1) == 2 ^ a / 2 ^ (b + 1))%Q).
    { replace (a - b - 1)%Z with (a - (b + 1))%Z by lia.
      apply Qpower_minus. discriminate. }
    rewrite E1.
    assert (H1 : (2 ^ a <= inject_Z (Qnum q))%Q).
    { rewrite <- pow2_Z by done. rewrite <- Zle_Qle. exact Ha. }
    assert (H2 : (inject_Z (Z.pos (Qden q)) <= 2 ^ (b + 1))%Q).
    { rewrite <- pow2_Z by lia. rewrite <- Zle_Qle. unfold Z.succ in Hb. lia. }
    assert (Hq' : (q == inject_Z (Qnum q) / inject_Z (Z.pos (Qden q)))%Q).
    { destruct q as [n d]. cbn [Qnum Qden]. apply Qmake_Qdiv. }
    rewrite Hq'.
    pose proof (pow2_pos a). pose proof (pow2_pos (b + 1)).
    assert (Hd : (0 < inject_Z (Z.pos (Qden q)))%Q) by (unfold Qlt; simpl; lia).
    apply Qle_shift_div_l; [done|].
    unfold Qdiv. rewrite <- Qmult_assoc, (Qmult_comm (/ _)), Qmult_assoc.
    apply Qle_shift_div_r; [done|].
    apply Qle_trans with (inject_Z (Qnum q) * inject_Z (Z.pos (Qden q)))%Q.
    + apply Qmult_le_compat_r; [done|]. lra.
    + rewrite (Qmult_comm (inject_Z (Qnum q))), (Qmult_comm (inject_Z (Qnum q))).
      apply Qmult_le_compat_r; [done|]. lra.
Qed.

Lemma round_half_even_error (q : Q) :
  (Qabs (inject_Z (round_half_even q) - q) <= 1 # 2)%Q.
Proof.
  unfold round_half_even.
  pose proof (Qfloor_le q) as Hlo. pose proof (Qlt_floor q) as Hhi.
  rewrite inject_Z_plus in Hhi. change (inject_Z 1) with 1%Q in Hhi.
  apply Qabs_Qle_condition.
  destruct (Qcompare (q - inject_Z (Qfloor q)) (1 # 2)) eqn:E.
  - apply Qeq_alt in E.
    destruct (Z.even (Qfloor q)); [|rewrite inject_Z_plus; change (inject_Z 1) with 1%Q];
      split; lra.
  - apply Qlt_alt in E. split; lra.
  - apply Qgt_alt in E. rewrite inject_Z_plus. change (inject_Z 1) with 1%Q.
    split; lra.
Qed.



Lemma round_half_even_nonpos (q : Q) : (q <= 0)%Q -> (round_half_even q <= 0)%Z.
Proof.
  intros Hq. unfold round_half_even.
  pose proof (Qfloor_le q) as Hlo. pose proof (Qlt_floor q) as Hhi.
  rewrite inject_Z_plus in Hhi. change (inject_Z 1) with 1%Q in Hhi.
  assert (Hf : (Qfloor q <= 0)%Z).
  { change 0%Z with (Qfloor 0). by apply Qfloor_resp_le. }
  destruct (Z.eq_dec (Qfloor q) 0%Z) as [E0|E0].
  - rewrite E0 in *. change (inject_Z 0) with 0%Q in *.
    assert (E : Qcompare (q - 0) (1 # 2) = Lt) by (apply (proj1 (Qlt_alt _ _)); lra).
    by rewrite E.
  - destruct (Qcompare _ _); [destruct (Z.even _)|..]; lia.
Qed.

Section Rounding.

Variables prec emin : Z.

Lemma round_float_proper (x y : Q) :
  (x == y)%Q -> round_float prec emin x = round_float prec emin y.
Proof. intros H. unfold round_float. by rewrite (Qred_complete x y H). Qed.

Lemma round_float_0 : round_float prec emin 0 = 0%Q.
Proof. reflexivity. Qed.

(** The value before the final normalisation. *)
Lemma round_float_unfold (q : Q) :
  ~ (q == 0)%Q ->
  let p := Z.max (ilog2 (Qabs (Qred q)) - prec + 1) emin in
  (round_float prec emin q == inject_Z (round_half_even (q / 2 ^ p)) * 2 ^ p)%Q.
Proof.
  intros Hq p. unfold round_float.
  destruct (Qeq_bool (Qred q) 0) eqn:E.
  { apply Qeq_bool_iff in E. rewrite Qred_correct in E. done. }
  fold p. rewrite Qred_correct.
  assert (Hd : (Qred q / 2 ^ p == q / 2 ^ p)%Q) by (by rewrite Qred_correct).
  assert (Hr : round_half_even (Qred q / 2 ^ p) = round_half_even (q / 2 ^ p)).
  { unfold round_half_even.
    assert (Hf : Qfloor (Qred q / 2 ^ p) = Qfloor (q / 2 ^ p)) by (by rewrite Hd).
    rewrite Hf.
    assert (Hc : Qcompare (Qred q / 2 ^ p - inject_Z (Qfloor (q / 2 ^ p))) (1 # 2)
                 = Qcompare (q / 2 ^ p - inject_Z (Qfloor (q / 2 ^ p))) (1 # 2))
      by (by rewrite Hd).
    by rewrite Hc. }
  by rewrite Hr.
Qed.

Lemma round_float_error (q : Q) :
  (Qabs (round_float prec emin q - q)
   <= Qabs q * 2 ^ (- prec) + 2 ^ (emin - 1))%Q.
Proof.
  pose proof (pow2_pos (- prec)) as Hpp. pose proof (pow2_pos (emin - 1)) as Hpe.
  pose proof (Qabs_nonneg q) as Hq0.
  destruct (Qeq_dec q 0) as [Hz|Hnz].
  { rewrite (round_float_proper q 0 Hz), round_float_0, Hz.
    change (Qabs (0 - 0)) with 0%Q. change (Qabs 0) with 0%Q. lra. }
  rewrite (round_float_unfold q Hnz). cbv zeta.
  set (e := ilog2 (Qabs (Qred q))).
  set (p := Z.max (e - prec + 1) emin).
  pose proof (round_half_even_error (q / 2 ^ p)) as Herr.
  set (n := inject_Z (round_half_even (q / 2 ^ p))) in *.
  pose proof (pow2_pos p) as Hp.
  assert (E1 : (n * 2 ^ p - q == (n - q / 2 ^ p) * 2 ^ p)%Q).
  { field. lra. }
  rewrite E1, Qabs_Qmult, (Qabs_pos (2 ^ p)) by lra.
  assert (H1 : (Qabs (n - q / 2 ^ p) * 2 ^ p <= (1 # 2) * 2 ^ p)%Q).
  { apply Qmult_le_compat_r; [done|lra]. }
  assert (Hhalf : ((1 # 2) * 2 ^ p == 2 ^ (p - 1))%Q).
  { rewrite pow2_pred. ring. }
  rewrite Hhalf in H1.
  eapply Qle_trans; [exact H1|].
  assert (Hlow : (2 ^ e <= Qabs q)%Q).
  { assert (Hpos : (0 < Qabs (Qred q))%Q).
    { rewrite Qred_correct. destruct (Qlt_le_dec 0 (Qabs q)) as [|Hle]; [done|].
      exfalso. apply Hnz. apply Qabs_Qle_condition in Hle. lra. }
    pose proof (ilog2_lower _ Hpos) as H. fold e in H.
    by rewrite Qred_correct in H. }
  assert (Hprod : (0 <= Qabs q * 2 ^ (- prec))%Q).
  { apply Qmult_le_0_compat; [done|]. by apply Qlt_le_weak. }
  unfold p. destruct (Z.max_spec (e - prec + 1) emin) as [[_ ->]|[_ ->]].
  - set (u := (2 ^ (emin - 1))%Q) in *. set (v := (Qabs q * 2 ^ (- prec))%Q) in *.
    lra.
  - replace (e - prec + 1 - 1)%Z with (e + - prec)%Z by lia.
    rewrite pow2_plus.
    assert (H2 : (2 ^ e * 2 ^ (- prec) <= Qabs q * 2 ^ (- prec))%Q).
    { apply Qmult_le_compat_r; [done|]. by apply Qlt_le_weak. }
    set (u := (2 ^ (emin - 1))%Q) in *. set (v := (Qabs q * 2 ^ (- prec))%Q) in *.
    set (x := (2 ^ e * 2 ^ (- prec))%Q) in *.
    lra.
Qed.


Lemma round_float_nonpos (q : Q) : (q <= 0)%Q -> (round_float prec emin q <= 0)%Q.
Proof.
  intros Hq. destruct (Qeq_dec q 0) as [Hz|Hnz].
  { rewrite (round_float_proper q 0 Hz), round_float_0. lra. }
  rewrite (round_float_unfold q Hnz). cbv zeta.
  set (p := Z.max _ emin). pose proof (pow2_pos p) as Hp.
  assert (Hn : (inject_Z (round_half_even (q / 2 ^ p)) <= 0)%Q).
  { change 0%Q with (inject_Z 0). rewrite <- Zle_Qle.
    apply round_half_even_nonpos. apply Qle_shift_div_r; [done|lra]. }
  set (n := inject_Z _) in *.
  assert (H : (0 <= (- n) * 2 ^ p)%Q) by (apply Qmult_le_0_compat; lra).
  lra.
Qed.


End Rounding.

Lemma binary32_error (q : Q) :
  (Qabs (binary32 q - q) <= Qabs q * 2 ^ (-24) + 2 ^ (-150))%Q.
Proof. apply (round_float_error 24 (-149) q). Qed.



Lemma binary32_nonpos (q : Q) : (q <= 0)%Q -> (binary32 q <= 0)%Q.
Proof. apply round_float_nonpos. Qed.


(** * Lemmas on wake propagation *)

Section ActorStep.

Lemma actor_step_refl a : actor_step a a.
Proof. by left. Qed.

Lemma wake_state a : ar_sim_state (wake a) = LOCAL_SIMULATED.
Proof. reflexivity. Qed.

Lemma wake_counter a : ar_sleep_counter (wake a) = 0%Q.
Proof. reflexivity. Qed.

Lemma wake_wake a : wake (wake a) = wake a.
Proof. reflexivity. Qed.

Lemma reset_simulated a :
  ar_sim_state a = LOCAL_SIMULATED -> set_ar_sleep_counter 0 a = wake a.
Proof. destruct a; simpl; intros ->; reflexivity. Qed.

Lemma wake_set_state a :
  set_ar_sim_state LOCAL_SIMULATED (set_ar_sleep_counter 0 a) = wake a.
Proof. reflexivity. Qed.

Lemma actor_step_wake a : is_local a -> actor_step a (wake a).
Proof. intros H; right; done. Qed.

Lemma actor_step_trans a b c : actor_step a b -> actor_step b c -> actor_step a c.
Proof.
  intros [->|[Ha ->]] [->|[Hb ->]]; [by left|by right|by right|].
  right. split; [done|]. apply wake_wake.
Qed.

Lemma actor_step_sleeping a a' :
  actor_step a a' -> ar_sim_state a' = LOCAL_SLEEPING -> a' = a.
Proof. intros [->|[_ ->]]; [done|]. rewrite wake_state. discriminate. Qed.

Lemma actor_step_simulated a a' :
  actor_step a a' -> ar_sim_state a = LOCAL_SIMULATED ->
  ar_sim_state a' = LOCAL_SIMULATED.
Proof. intros [->|[_ ->]]; [done|]. by rewrite wake_state. Qed.

Lemma actor_step_state a a' :
  actor_step a a' ->
  ar_sim_state a' = ar_sim_state a \/
  (ar_sim_state a = LOCAL_SLEEPING /\ a' = wake a).
Proof.
  intros [->|[[H|H] ->]]; [by left| |].
  - left. by rewrite wake_state, H.
  - right. done.
Qed.

Lemma actor_step_changed a a' :
  actor_step a a' -> a' <> a -> is_local a /\ a' = wake a.
Proof. intros [->|H]; [done|by intros _]. Qed.

Lemma actor_step_nonlocal a a' :
  actor_step a a' -> ~ is_local a -> a' = a.
Proof. intros [->|[H _]]; [done|tauto]. Qed.

Lemma actor_step_predict a a' b b' s :
  actor_step a a' -> actor_step b b' ->
  predictTruckIntersectionCollAABB a' b' s = predictTruckIntersectionCollAABB a b s.
Proof. by intros [->|[_ ->]] [->|[_ ->]]. Qed.

Lemma actor_step_overlap a a' b b' s :
  actor_step a a' -> actor_step b b' ->
  truckIntersectionCollAABB a' b' s = truckIntersectionCollAABB a b s.
Proof. by intros [->|[_ ->]] [->|[_ ->]]. Qed.

Lemma actor_step_update_physics a a' :
  actor_step a a' -> ar_update_physics a' = ar_update_physics a.
Proof. by intros [->|[_ ->]]. Qed.

End ActorStep.

Section ActorsStep.

Implicit Types m : gmap nat Actor.

Lemma actors_step_refl m : actors_step m m.
Proof.
  intros t. destruct (m !! t); constructor. apply actor_step_refl.
Qed.

Lemma actors_step_trans m1 m2 m3 :
  actors_step m1 m2 -> actors_step m2 m3 -> actors_step m1 m3.
Proof.
  intros H1 H2 t. specialize (H1 t). specialize (H2 t).
  destruct H1 as [a b Hab|]; inversion H2; subst; constructor.
  eapply actor_step_trans; eauto.
Qed.

Lemma actors_step_insert m t a a' :
  m !! t = Some a -> actor_step a a' -> actors_step m (<[t := a']> m).
Proof.
  intros Ht Hs u. destruct (decide (t = u)) as [->|Hne].
  - rewrite lookup_insert_eq, Ht. by constructor.
  - rewrite lookup_insert_ne by done. apply actors_step_refl.
Qed.

Lemma actors_step_fwd m m' t a :
  actors_step m m' -> m !! t = Some a ->
  exists a', m' !! t = Some a' /\ actor_step a a'.
Proof.
  intros H Ht. specialize (H t). rewrite Ht in H. inversion H; subst. eauto.
Qed.

Lemma actors_step_bwd m m' t a' :
  actors_step m m' -> m' !! t = Some a' ->
  exists a, m !! t = Some a /\ actor_step a a'.
Proof.
  intros H Ht. specialize (H t). rewrite Ht in H. inversion H; subst. eauto.
Qed.

Lemma actors_step_None m m' t :
  actors_step m m' -> (m !! t = None <-> m' !! t = None).
Proof.
  intros H. specialize (H t). split; intros Ht; rewrite Ht in H; by inversion H.
Qed.

Lemma actors_step_dom m m' : actors_step m m' -> dom m' = dom m.
Proof.
  intros H. apply set_eq. intros t. rewrite !elem_of_dom.
  specialize (H t). destruct H; split; intros [? ?]; eauto; discriminate.
Qed.

Lemma closed_pair_step m m' t x :
  actors_step m m' -> closed_pair m t x -> closed_pair m' t x.
Proof.
  intros Hs Hc at' ax' Ht Hx Hov Hsl.
  destruct (actors_step_bwd _ _ _ _ Hs Ht) as (at_ & Ht0 & Hst).
  destruct (actors_step_bwd _ _ _ _ Hs Hx) as (ax & Hx0 & Hsx).
  rewrite (actor_step_predict _ _ _ _ _ Hst Hsx) in Hov.
  pose proof (actor_step_sleeping _ _ Hst Hsl) as ->.
  by apply (Hc at_ ax).
Qed.

Lemma closed_at_step n m m' x :
  actors_step m m' -> closed_at n m x -> closed_at n m' x.
Proof. intros Hs Hc t Hlt Hne. eapply closed_pair_step; eauto. Qed.

Lemma caused_step m m' v v' t a :
  actors_step m m' -> v ⊆ v' -> caused m v t a -> caused m' v' t a.
Proof.
  intros Hs Hv (x & ax & Hx & Hne & Hlk & Hov).
  destruct (actors_step_fwd _ _ _ _ Hs Hlk) as (ax' & Hlk' & Hsx).
  exists x, ax'. split; [by apply Hv|]. split; [done|]. split; [done|].
  rewrite (actor_step_overlap a a ax ax' _ (actor_step_refl a) Hsx).
  rewrite (actor_step_predict a a ax ax' _ (actor_step_refl a) Hsx).
  done.
Qed.

Lemma vis_sim_step m m' v :
  actors_step m m' -> vis_sim (m, v) -> vis_sim (m', v).
Proof.
  intros Hs Hv x Hx. destruct (Hv x Hx) as (a & Ha & Hst). simpl in *.
  destruct (actors_step_fwd _ _ _ _ Hs Ha) as (a' & Ha' & Hsa).
  exists a'. split; [done|]. eapply actor_step_simulated; eauto.
Qed.

End ActorsStep.

Section WakePost.

Variable n : nat.

Lemma wake_post_refl st : wake_post n st st.
Proof.
  split.
  - done.
  - apply actors_step_refl.
  - intros x Hx. by left.
  - intros x Hx Hnx. done.
  - intros x Hx Hnx. done.
  - intros t a a' H1 H2. left. congruence.
  - intros t a a' H1 H2 Hs Hns. congruence.
Qed.

Lemma wake_post_trans st1 st2 st3 :
  wake_post n st1 st2 -> wake_post n st2 st3 -> wake_post n st1 st3.
Proof.
  intros [V1 S1 B1 N1 C1 Ch1 W1] [V2 S2 B2 N2 C2 Ch2 W2]. split.
  - by transitivity st2.2.
  - eapply actors_step_trans; eauto.
  - intros x Hx. destruct (B2 x Hx) as [Hx2|Hlt]; [|by right]. by apply B1.
  - intros x Hx Hnx. destruct (decide (x ∈ st2.2)) as [Hx2|Hx2].
    + destruct (N1 x Hx2 Hnx) as (a & Ha & Hst).
      destruct (actors_step_fwd _ _ _ _ S2 Ha) as (a' & Ha' & Hsa).
      exists a'. split; [done|]. eapply actor_step_simulated; eauto.
    + by apply N2.
  - intros x Hx Hnx. destruct (decide (x ∈ st2.2)) as [Hx2|Hx2].
    + eapply closed_at_step; eauto.
    + by apply C2.
  - intros t a a3 Ha Ha3.
    destruct (actors_step_fwd _ _ _ _ S1 Ha) as (a2 & Ha2 & _).
    destruct (Ch1 t a a2 Ha Ha2) as [->|[Hlt Hc]].
    + by apply Ch2.
    + right. split; [done|]. eapply caused_step; eauto.
  - intros t a a3 Ha Ha3 Hsl Hns.
    destruct (actors_step_fwd _ _ _ _ S1 Ha) as (a2 & Ha2 & Hs12).
    destruct (actor_step_state _ _ Hs12) as [Heq|[_ ->]].
    + eapply W2; eauto. congruence.
    + apply V2. eapply W1; eauto.
  Qed.

Lemma wake_post_vis_sim st st' :
  wake_post n st st' -> vis_sim st -> vis_sim st'.
Proof.
  intros [V S B N C Ch Wk] Hv x Hx.
  destruct (decide (x ∈ st.2)) as [Hx0|Hx0]; [|by apply N].
  destruct (Hv x Hx0) as (a & Ha & Hst).
  destruct (actors_step_fwd _ _ _ _ S Ha) as (a' & Ha' & Hsa).
  exists a'. split; [done|]. eapply actor_step_simulated; eauto.
Qed.

Lemma RA_pre_post fuel st st' :
  wake_post n st st' -> RA_pre n fuel st -> RA_pre n fuel st'.
Proof.
  intros Hp (Hv & Hb & Hm). split; [|split].
  - eapply wake_post_vis_sim; eauto.
  - intros x Hx. destruct (wp_bounded _ _ _ Hp x Hx); [by apply Hb|done].
  - pose proof (subseteq_size _ _ (wp_visited _ _ _ Hp)). lia.
Qed.

(** The caller of a recursive call first writes to slot [t] (timer
    reset, or wake-up), because of its overlap with slot [j]. *)
Lemma wake_post_after_write m v t j at_ aj st1 :
  m !! t = Some at_ -> m !! j = Some aj -> is_local at_ ->
  t < n -> t <> j -> j ∈ v ->
  (ar_sim_state at_ = LOCAL_SIMULATED /\ truckIntersectionCollAABB at_ aj (binary32 (12 # 10)) = true)
  \/ (ar_sim_state at_ = LOCAL_SLEEPING /\ predictTruckIntersectionCollAABB at_ aj 1 = true) ->
  RA_post n t (<[t := wake at_]> m, v) st1 ->
  wake_post n (m, v) st1.
Proof.
  intros Ht Hj Hloc Hlt Hne Hjv Hov [[V S B N C Ch Wk] Hin]. simpl in *.
  assert (Hstep : actors_step m (<[t := wake at_]> m)).
  { eapply actors_step_insert; eauto. by apply actor_step_wake. }
  assert (Htv : t ∈ st1.2).
  { apply (Hin (wake at_)); [apply lookup_insert_eq|apply wake_state]. }
  assert (Hc : caused st1.1 st1.2 t at_).
  { assert (Hj' : (<[t := wake at_]> m) !! j = Some aj)
      by (by rewrite lookup_insert_ne).
    destruct (actors_step_fwd _ _ _ _ S Hj') as (aj' & Hj1 & Hsj).
    exists j, aj'. split; [by apply V|]. split; [done|]. split; [done|].
    rewrite (actor_step_overlap at_ at_ aj aj' _ (actor_step_refl _) Hsj).
    rewrite (actor_step_predict at_ at_ aj aj' _ (actor_step_refl _) Hsj).
    done. }
  split; simpl.
  - done.
  - eapply actors_step_trans; eauto.
  - done.
  - done.
  - done.
  - intros u a a' Hu Hu'. destruct (decide (u = t)) as [->|Hut].
    + right. split; [done|]. congruence.
    + apply Ch; [|done]. by rewrite lookup_insert_ne.
  - intros u a a' Hu Hu' Hsl Hns. destruct (decide (u = t)) as [->|Hut]; [done|].
    eapply Wk; eauto. by rewrite lookup_insert_ne.
Qed.

Section Loop.

Variables (fuel' j : nat) (rec : nat -> WakeState -> option WakeState).
Hypothesis Hj : j < n.
Hypothesis Hrec : forall t st, t < n -> RA_pre n fuel' st ->
  exists st', rec t st = Some st' /\ RA_post n t st st'.

Lemma RA_pre_write m v t at_ :
  m !! t = Some at_ -> is_local at_ ->
  RA_pre n fuel' (m, v) -> RA_pre n fuel' (<[t := wake at_]> m, v).
Proof.
  intros Ht Hloc (Hv & Hb & Hm). split; [|done].
  eapply vis_sim_step; [|exact Hv].
  eapply actors_step_insert; eauto. by apply actor_step_wake.
Qed.

Lemma RecursiveActivation_body_spec t st :
  t < n -> j ∈ st.2 -> RA_pre n fuel' st ->
  exists st', RecursiveActivation_body rec j t st = Some st' /\
              wake_post n st st' /\ (t <> j -> closed_pair st'.1 t j).
Proof.
  intros Hlt Hjv Hpre. destruct st as [m v]. simpl in Hjv.
  unfold RecursiveActivation_body.
  destruct (m !! t) as [at_|] eqn:Ht.
  2:{ exists (m, v). split; [done|]. split; [apply wake_post_refl|].
      intros _ a ax Ha. simpl in Ha. congruence. }
  destruct (bool_decide (t = j) || bool_decide (t ∈ v)) eqn:Hg.
  { exists (m, v). split; [done|]. split; [apply wake_post_refl|].
    intros Hne a ax Ha Hax Hov. simpl in *.
    apply orb_true_iff in Hg as [Hg|Hg];
      [by apply bool_decide_eq_true in Hg|].
    apply bool_decide_eq_true in Hg.
    destruct Hpre as (Hv & _). destruct (Hv t Hg) as (a0 & Ha0 & Hst).
    simpl in Ha0. assert (a0 = a) as -> by congruence. congruence. }
  apply orb_false_iff in Hg as [Hg1 Hg2].
  apply bool_decide_eq_false in Hg1. apply bool_decide_eq_false in Hg2.
  destruct (m !! j) as [aj|] eqn:Hmj.
  2:{ exists (m, v). split; [done|]. split; [apply wake_post_refl|].
      intros _ a ax Ha Hax. simpl in Hax. congruence. }
  destruct (bool_decide (ar_sim_state at_ = LOCAL_SIMULATED)
            && truckIntersectionCollAABB at_ aj (binary32 (12 # 10))) eqn:Hc1.
  - (* a simulated neighbour: timer reset, then recursion *)
    apply andb_true_iff in Hc1 as [Hsim Hov].
    apply bool_decide_eq_true in Hsim.
    rewrite (reset_simulated _ Hsim).
    destruct (Hrec t (<[t := wake at_]> m, v) Hlt) as (st1 & Hr & Hpost).
    { apply RA_pre_write; [done|by left|done]. }
    rewrite Hr. destruct st1 as [m1 v1].
    assert (Hwp : wake_post n (m, v) (m1, v1)).
    { apply (wake_post_after_write m v t j at_ aj);
        [done|done|by left|done|done|done|by left|done]. }
    assert (Hsim1 : forall a1, m1 !! t = Some a1 ->
                               ar_sim_state a1 = LOCAL_SIMULATED).
    { intros a1 Ha1.
      destruct (actors_step_bwd _ _ _ _ (wp_step _ _ _ (proj1 Hpost)) Ha1)
        as (a0 & Ha0 & Hs0).
      simpl in Ha0. rewrite lookup_insert_eq in Ha0. injection Ha0 as <-.
      eapply actor_step_simulated; eauto. }
    exists (m1, v1). split.
    + destruct (m1 !! t) as [at1|] eqn:Ht1; [|done].
      destruct (m1 !! j) as [aj1|]; [|done].
      rewrite (Hsim1 at1 eq_refl). done.
    + split; [done|]. intros _ a ax Ha _ _. simpl in Ha.
      rewrite (Hsim1 a Ha). discriminate.
  - rewrite Ht, Hmj.
    destruct (bool_decide (ar_sim_state at_ = LOCAL_SLEEPING)
              && predictTruckIntersectionCollAABB at_ aj 1) eqn:Hc2.
    + (* a sleeping neighbour: wake-up, then recursion *)
      apply andb_true_iff in Hc2 as [Hsl Hov].
      apply bool_decide_eq_true in Hsl.
      destruct (Hrec t (<[t := wake at_]> m, v) Hlt) as (st1 & Hr & Hpost).
      { apply RA_pre_write; [done|by right|done]. }
      exists st1. split; [done|]. split.
      * apply (wake_post_after_write m v t j at_ aj);
          [done|done|by right|done|done|done|by right|done].
      * intros _ a ax Ha _ _.
        destruct (actors_step_bwd _ _ _ _ (wp_step _ _ _ (proj1 Hpost)) Ha)
          as (a0 & Ha0 & Hs0).
        simpl in Ha0. rewrite lookup_insert_eq in Ha0. injection Ha0 as <-.
        rewrite (actor_step_simulated _ _ Hs0 (wake_state _)). discriminate.
    + exists (m, v). split; [done|]. split; [apply wake_post_refl|].
      intros _ a ax Ha Hax Hov Hsl. simpl in *.
      assert (a = at_) as -> by congruence.
      assert (ax = aj) as -> by congruence.
      rewrite Hov in Hc2. rewrite andb_true_r in Hc2.
      apply bool_decide_eq_false in Hc2. done.
Qed.

Lemma RecursiveActivation_loop_spec l : forall st,
  (forall t, t ∈ l -> t < n) -> j ∈ st.2 -> RA_pre n fuel' st ->
  exists st', for_each (RecursiveActivation_body rec j) l st = Some st' /\
              wake_post n st st' /\
              (forall t, t ∈ l -> t <> j -> closed_pair st'.1 t j).
Proof.
  induction l as [|t l IH]; intros st Hl Hjv Hpre.
  - exists st. split; [done|]. split; [apply wake_post_refl|].
    intros t Ht. by apply elem_of_nil in Ht.
  - simpl.
    destruct (RecursiveActivation_body_spec t st) as (st1 & Hb & Hp1 & Hc1);
      [apply Hl; left|done|done|].
    rewrite Hb.
    destruct (IH st1) as (st' & Hf & Hp2 & Hc2).
    { intros u Hu. apply Hl. by right. }
    { by apply (wp_visited _ _ _ Hp1). }
    { eapply RA_pre_post; eauto. }
    exists st'. split; [done|]. split; [eapply wake_post_trans; eauto|].
    intros u Hu Hne. apply elem_of_cons in Hu as [->|Hu].
    + eapply closed_pair_step; [apply (wp_step _ _ _ Hp2)|by apply Hc1].
    + by apply Hc2.
Qed.

End Loop.

End WakePost.

Section RecursiveActivationSpec.

Variable n : nat.

Lemma vis_bounded_size st : vis_bounded n st -> size st.2 <= n.
Proof.
  intros Hb. rewrite <- (size_set_seq (C := gset nat) 0 n).
  apply subseteq_size. intros x Hx. apply elem_of_set_seq.
  specialize (Hb x Hx). lia.
Qed.

(** Total correctness of [RecursiveActivation]: with more fuel than
    there are unvisited slots the call returns, and the result satisfies
    [RA_post]. *)
Lemma RecursiveActivation_spec fuel : forall j st,
  j < n -> RA_pre n fuel st ->
  exists st', RecursiveActivation fuel n j st = Some st' /\ RA_post n j st st'.
Proof.
  induction fuel as [|fuel' IH]; intros j [m v] Hj (Hv & Hb & Hm).
  { lia. }
  simpl in *.
  destruct (m !! j) as [aj|] eqn:Hmj.
  2:{ exists (m, v). split; [done|]. split; [apply wake_post_refl|].
      simpl. congruence. }
  destruct (bool_decide (j ∈ v)
            || negb (bool_decide (ar_sim_state aj = LOCAL_SIMULATED))) eqn:Hg.
  { exists (m, v). split; [done|]. split; [apply wake_post_refl|].
    simpl. intros a Ha Hsim. assert (a = aj) as -> by congruence.
    apply orb_true_iff in Hg as [Hg|Hg].
    - by apply bool_decide_eq_true in Hg.
    - apply negb_true_iff, bool_decide_eq_false in Hg. done. }
  apply orb_false_iff in Hg as [Hg1 Hg2].
  apply bool_decide_eq_false in Hg1.
  apply negb_false_iff, bool_decide_eq_true in Hg2.
  assert (Hb1 : vis_bounded n (m, {[j]} ∪ v)).
  { intros x Hx. simpl in Hx. apply elem_of_union in Hx as [Hx|Hx].
    - apply elem_of_singleton in Hx. by subst.
    - by apply Hb. }
  assert (Hpre1 : RA_pre n fuel' (m, {[j]} ∪ v)).
  { split; [|split; [done|]].
    - intros x Hx. simpl in Hx. apply elem_of_union in Hx as [Hx|Hx].
      + apply elem_of_singleton in Hx. subst. eauto.
      + by apply Hv.
    - pose proof (vis_bounded_size _ Hb1) as Hsz. simpl in *.
      rewrite size_union in * by set_solver.
      rewrite size_singleton in *. lia. }
  destruct (RecursiveActivation_loop_spec n fuel' j
              (RecursiveActivation fuel' n) IH (seq 0 n) (m, {[j]} ∪ v))
    as (st' & Hf & Hp & Hc).
  { intros t Ht. apply elem_of_seq in Ht. lia. }
  { simpl. set_solver. }
  { done. }
  exists st'. split; [done|].
  destruct Hp as [V S B N C Ch Wk]. simpl in *.
  split; [split|]; simpl.
  - set_solver.
  - done.
  - intros x Hx. destruct (B x Hx) as [Hx1|Hx1]; [|by right].
    apply elem_of_union in Hx1 as [Hx1|Hx1]; [|by left].
    apply elem_of_singleton in Hx1. subst. by right.
  - intros x Hx Hnx. destruct (decide (x = j)) as [->|Hne].
    + destruct (actors_step_fwd _ _ _ _ S Hmj) as (a' & Ha' & Hsa).
      exists a'. split; [done|]. eapply actor_step_simulated; eauto.
    + apply N; [done|]. rewrite elem_of_union, elem_of_singleton. tauto.
  - intros x Hx Hnx. destruct (decide (x = j)) as [->|Hne].
    + intros t Hlt Htj. apply Hc; [|done]. apply elem_of_seq. lia.
    + apply C; [done|]. rewrite elem_of_union, elem_of_singleton. tauto.
  - done.
  - done.
  - intros _ _ _. apply V. set_solver.
Qed.

(** The snowball loop. *)
Lemma snowball_loop_spec fuel l : forall st,
  (forall t, t ∈ l -> t < n) -> RA_pre n fuel st ->
  exists st', for_each (snowball_body fuel n) l st = Some st' /\
              wake_post n st st'.
Proof.
  induction l as [|t l IH]; intros st Hl Hpre.
  - exists st. split; [done|]. apply wake_post_refl.
  - simpl.
    assert (exists st1, snowball_body fuel n t st = Some st1 /\ wake_post n st st1)
      as (st1 & Hb & Hp1).
    { unfold snowball_body. destruct (st.1 !! t) as [a|].
      2:{ exists st. split; [done|]. apply wake_post_refl. }
      destruct (bool_decide (ar_sim_state a = LOCAL_SIMULATED)
                && Qeq_bool (ar_sleep_counter a) 0).
      - destruct (RecursiveActivation_spec fuel t st) as (st1 & Hr & Hp & _);
          [apply Hl; left|done|]. eauto.
      - exists st. split; [done|]. apply wake_post_refl. }
    rewrite Hb.
    destruct (IH st1) as (st' & Hf & Hp2).
    { intros u Hu. apply Hl. by right. }
    { eapply RA_pre_post; eauto. }
    exists st'. split; [done|]. eapply wake_post_trans; eauto.
Qed.

End RecursiveActivationSpec.

Section UpdateSleepingStateSpec.

Lemma set_m_actors_twice m m' s :
  set_m_actors m (set_m_actors m' s) = set_m_actors m s.
Proof. reflexivity. Qed.

Lemma set_m_actors_id s : set_m_actors (m_actors s) s = s.
Proof. by destruct s. Qed.

Lemma getTruck_Some number s a :
  getTruck number s = Some a ->
  (0 <= number < Z.of_nat (m_free_actor_slot s))%Z /\
  m_actors s !! Z.to_nat number = Some a.
Proof.
  unfold getTruck. intros H.
  destruct (bool_decide (0 <= number)%Z) eqn:H1; [|done].
  destruct (bool_decide (number < Z.of_nat (m_free_actor_slot s))%Z) eqn:H2; [|done].
  apply bool_decide_eq_true in H1. apply bool_decide_eq_true in H2.
  simpl in H. split; [lia|done].
Qed.

Lemma sleep_loop_lookup dt n m t :
  sleep_loop dt n m !! t =
  if decide (t < n) then sleep_step dt <$> m !! t else m !! t.
Proof.
  unfold sleep_loop. induction n as [|n IH].
  - simpl. destruct (decide (t < 0)); [lia|done].
  - rewrite seq_S, foldl_app. simpl.
    set (mn := foldl _ m (seq 0 n)) in *.
    assert (Hn : mn !! n = m !! n).
    { destruct (decide (t = n)) as [->|Hne].
      - rewrite IH. destruct (decide (n < n)); [lia|done].
      - clear IH. subst mn. clear Hne.
        assert (forall k l (m0 : gmap nat Actor), (forall u, u ∈ l -> u <> k) ->
                  foldl (fun m1 t0 => match m1 !! t0 with
                                      | Some a => <[t0 := sleep_step dt a]> m1
                                      | None => m1
                                      end) m0 l !! k = m0 !! k) as Hfr.
        { intros k l. induction l as [|u l IHl]; intros m0 Hl; [done|].
          simpl. rewrite IHl by (intros w Hw; apply Hl; by right).
          destruct (m0 !! u); [|done].
          rewrite lookup_insert_ne; [done|]. apply Hl. by left. }
        apply Hfr. intros u Hu. apply elem_of_seq in Hu. lia. }
    destruct (mn !! n) as [a|] eqn:Ha.
    + destruct (decide (t = n)) as [->|Hne].
      * rewrite lookup_insert_eq. destruct (decide (n < S n)); [|lia].
        by rewrite <- Hn.
      * rewrite lookup_insert_ne by done. rewrite IH.
        destruct (decide (t < n)), (decide (t < S n)); try lia; done.
    + rewrite IH. destruct (decide (t < n)), (decide (t < S n)); try lia; try done.
      assert (t = n) as -> by lia. by rewrite <- Hn.
Qed.

Lemma sleep_phase_fields dt s :
  sleep_phase dt s = set_m_actors (m_actors (sleep_phase dt s)) s.
Proof.
  unfold sleep_phase. destruct (negb (m_forced_active s)); [done|].
  by rewrite set_m_actors_id.
Qed.

Lemma wake_player_fields s :
  wake_player s = set_m_actors (m_actors (wake_player s)) s.
Proof.
  unfold wake_player. destruct (GetPlayerActorInternal s) as [cur|].
  - destruct (bool_decide _); [done|]. by rewrite set_m_actors_id.
  - by rewrite set_m_actors_id.
Qed.

Lemma pre_wake_fields dt s :
  wake_player (sleep_phase dt s)
  = set_m_actors (m_actors (wake_player (sleep_phase dt s))) s.
Proof.
  rewrite (wake_player_fields (sleep_phase dt s)) at 1.
  rewrite (sleep_phase_fields dt s) at 2. apply set_m_actors_twice.
Qed.

(** Total correctness of one pass of [UpdateSleepingState]: the fuel
    [wake_fuel s] is enough, only the actor table changes, and wake
    propagation relates the table to the one it started from. *)
Lemma UpdateSleepingState_visited_spec dt s :
  exists m' v',
    UpdateSleepingState_visited (wake_fuel s) dt s = Some (set_m_actors m' s, v') /\
    wake_post (m_free_actor_slot s) (before_wake dt s, ∅) (m', v') /\
    vis_sim (m', v') /\
    (forall cur, GetPlayerActorInternal (wake_player (sleep_phase dt s)) = Some cur ->
                 ar_sim_state cur = LOCAL_SIMULATED ->
                 Z.to_nat (m_player_actor s) ∈ v').
Proof.
  unfold UpdateSleepingState_visited, before_wake, wake_fuel.
  pose proof (pre_wake_fields dt s) as Hf.
  set (s2 := wake_player (sleep_phase dt s)) in *.
  assert (Hn : m_free_actor_slot s2 = m_free_actor_slot s) by (by rewrite Hf).
  assert (Hp : m_player_actor s2 = m_player_actor s) by (by rewrite Hf).
  rewrite Hn. set (n := m_free_actor_slot s) in *.
  assert (Hpre0 : forall m, RA_pre n (S n) (m, ∅)).
  { intros m. split; [|split].
    - intros x Hx. simpl in Hx. by apply not_elem_of_empty in Hx.
    - intros x Hx. simpl in Hx. by apply not_elem_of_empty in Hx.
    - simpl. lia. }
  assert (exists st3, player_activation (S n) s2 = Some st3 /\
            wake_post n (reset_player s2, ∅) st3 /\
            (forall cur, GetPlayerActorInternal s2 = Some cur ->
                         ar_sim_state cur = LOCAL_SIMULATED ->
                         Z.to_nat (m_player_actor s) ∈ st3.2))
    as (st3 & H3 & Hp3 & Hin3).
  { unfold player_activation, reset_player.
    destruct (GetPlayerActorInternal s2) as [cur|] eqn:Hcur.
    2:{ eexists. split; [done|]. split; [apply wake_post_refl|]. done. }
    destruct (bool_decide (ar_sim_state cur = LOCAL_SIMULATED)) eqn:Hsim.
    2:{ eexists. split; [done|]. split; [apply wake_post_refl|].
        intros c [= <-] Hc. apply bool_decide_eq_false in Hsim. done. }
    rewrite Hn, Hp.
    apply getTruck_Some in Hcur as [Hrange Hlk]. rewrite Hn, Hp in Hrange.
    destruct (RecursiveActivation_spec n (S n) (Z.to_nat (m_player_actor s))
                (<[Z.to_nat (m_player_actor s) := set_ar_sleep_counter 0 cur]>
                   (m_actors s2), ∅))
      as (st3 & Hr & Hpost & Hin); [unfold n; lia|apply Hpre0|].
    exists st3. split; [done|]. split; [done|].
    intros c [= <-] Hc. apply (Hin (set_ar_sleep_counter 0 cur)).
    - simpl. apply lookup_insert_eq.
    - done. }
  rewrite H3.
  destruct (snowball_loop_spec n (S n) (seq 0 n) st3) as (st4 & H4 & Hp4).
  { intros t Ht. apply elem_of_seq in Ht. lia. }
  { eapply RA_pre_post; eauto. }
  rewrite H4. destruct st4 as [m4 v4].
  exists m4, v4. split; [by rewrite Hf|].
  assert (Hwp : wake_post n (reset_player s2, ∅) (m4, v4))
    by (eapply wake_post_trans; eauto).
  split; [done|]. split.
  - eapply wake_post_vis_sim; [exact Hwp|]. apply (Hpre0 (reset_player s2)).
  - intros cur Hcur Hsim. apply (wp_visited _ _ _ Hp4). eauto.
Qed.

(** X1: one pass of [UpdateSleepingState] terminates.  The recursion of
    [RecursiveActivation] never goes deeper than the number of slots below
    the high-water mark plus one, so the pass returns for every manager
    state and every [dt], and [UpdateSleepingState] and [wake_sources] are
    its results. *)
Theorem wake_propagation_terminates (dt : Q) (s : ActorManager) :
  exists s' v',
    UpdateSleepingState_visited (S (m_free_actor_slot s)) dt s = Some (s', v') /\
    UpdateSleepingState dt s = s' /\ wake_sources dt s = v'.
Proof.
  destruct (UpdateSleepingState_visited_spec dt s) as (m' & v' & H & _).
  exists (set_m_actors m' s), v'. split; [exact H|].
  unfold UpdateSleepingState, wake_sources. by rewrite H.
Qed.

Lemma UpdateSleepingState_eq dt s s' v' :
  UpdateSleepingState_visited (wake_fuel s) dt s = Some (s', v') ->
  UpdateSleepingState dt s = s'.
Proof. unfold UpdateSleepingState. by intros ->. Qed.

Lemma UpdateSleepingState_fields dt s :
  UpdateSleepingState dt s = set_m_actors (m_actors (UpdateSleepingState dt s)) s.
Proof.
  destruct (UpdateSleepingState_visited_spec dt s) as (m' & v' & H & _).
  by rewrite (UpdateSleepingState_eq _ _ _ _ H).
Qed.

End UpdateSleepingStateSpec.

Section PreWake.

Lemma fmap_id_on {A} (f : A -> A) (o : option A) :
  (forall a, o = Some a -> f a = a) -> f <$> o = o.
Proof. destruct o as [a|]; simpl; [|done]. intros H. by rewrite H. Qed.

Lemma player_slot_true s t :
  player_slot s t = true <->
  m_player_actor s = Z.of_nat t /\ t < m_free_actor_slot s.
Proof.
  unfold player_slot. rewrite andb_true_iff, bool_decide_eq_true, Nat.ltb_lt. done.
Qed.

Lemma player_slot_to_nat s t :
  player_slot s t = true -> Z.to_nat (m_player_actor s) = t.
Proof. intros [-> _]%player_slot_true. lia. Qed.

Lemma getTruck_player s :
  GetPlayerActorInternal s =
  if player_slot s (Z.to_nat (m_player_actor s))
  then m_actors s !! Z.to_nat (m_player_actor s) else None.
Proof.
  unfold GetPlayerActorInternal, getTruck, player_slot.
  destruct (bool_decide (0 <= m_player_actor s)%Z) eqn:H1; simpl.
  - apply bool_decide_eq_true in H1.
    rewrite Z2Nat.id by done.
    rewrite (bool_decide_eq_true_2 (m_player_actor s = m_player_actor s)) by done.
    simpl.
    destruct (bool_decide (m_player_actor s < Z.of_nat (m_free_actor_slot s))%Z) eqn:H2.
    + apply bool_decide_eq_true in H2.
      destruct (Nat.ltb_spec (Z.to_nat (m_player_actor s)) (m_free_actor_slot s));
        [done|lia].
    + apply bool_decide_eq_false in H2.
      destruct (Nat.ltb_spec (Z.to_nat (m_player_actor s)) (m_free_actor_slot s));
        [lia|done].
  - apply bool_decide_eq_false in H1.
    rewrite bool_decide_eq_false_2; [done|]. lia.
Qed.

Lemma sleep_phase_lookup dt s t :
  m_actors (sleep_phase dt s) !! t =
  (fun a => if negb (m_forced_active s) && (t <? m_free_actor_slot s)
            then sleep_step dt a else a) <$> m_actors s !! t.
Proof.
  unfold sleep_phase. destruct (negb (m_forced_active s)); simpl.
  - rewrite sleep_loop_lookup.
    destruct (decide (t < m_free_actor_slot s)),
             (Nat.ltb_spec t (m_free_actor_slot s)); try lia; [done|].
    by destruct (m_actors s !! t).
  - by destruct (m_actors s !! t).
Qed.

(** A write through the player pointer, as a map over the table. *)
Lemma player_write_lookup s (c : Actor -> bool) (f : Actor -> Actor) t :
  match GetPlayerActorInternal s with
  | Some cur => if c cur then <[Z.to_nat (m_player_actor s) := f cur]> (m_actors s)
                else m_actors s
  | None => m_actors s
  end !! t
  = (fun a => if player_slot s t && c a then f a else a) <$> m_actors s !! t.
Proof.
  rewrite getTruck_player.
  destruct (player_slot s (Z.to_nat (m_player_actor s))) eqn:Hp.
  - destruct (m_actors s !! Z.to_nat (m_player_actor s)) as [cur|] eqn:Hcur.
    + destruct (c cur) eqn:Hc.
      * destruct (decide (t = Z.to_nat (m_player_actor s))) as [->|Hne].
        -- rewrite lookup_insert_eq, Hcur. simpl. by rewrite Hp, Hc.
        -- rewrite lookup_insert_ne by done. symmetry. apply fmap_id_on.
           intros a _. destruct (player_slot s t) eqn:Hpt; [|done].
           apply player_slot_to_nat in Hpt. congruence.
      * symmetry. apply fmap_id_on. intros a Ha.
        destruct (player_slot s t) eqn:Hpt; [|done].
        apply player_slot_to_nat in Hpt. subst t.
        assert (a = cur) as -> by congruence. by rewrite Hc.
    + symmetry. apply fmap_id_on. intros a Ha.
      destruct (player_slot s t) eqn:Hpt; [|done].
      apply player_slot_to_nat in Hpt. congruence.
  - symmetry. apply fmap_id_on. intros a Ha.
    destruct (player_slot s t) eqn:Hpt; [|done].
    pose proof (player_slot_to_nat _ _ Hpt). congruence.
Qed.

Lemma wake_player_lookup s t :
  m_actors (wake_player s) !! t =
  (fun a => if player_slot s t && bool_decide (ar_sim_state a = LOCAL_SLEEPING)
            then set_ar_sim_state LOCAL_SIMULATED a else a) <$> m_actors s !! t.
Proof.
  rewrite <- (player_write_lookup s
    (fun a => bool_decide (ar_sim_state a = LOCAL_SLEEPING))
    (set_ar_sim_state LOCAL_SIMULATED)).
  unfold wake_player. destruct (GetPlayerActorInternal s); [|done].
  by destruct (bool_decide _).
Qed.

Lemma reset_player_lookup s t :
  reset_player s !! t =
  (fun a => if player_slot s t && bool_decide (ar_sim_state a = LOCAL_SIMULATED)
            then set_ar_sleep_counter 0 a else a) <$> m_actors s !! t.
Proof.
  rewrite <- (player_write_lookup s
    (fun a => bool_decide (ar_sim_state a = LOCAL_SIMULATED))
    (set_ar_sleep_counter 0)).
  done.
Qed.

Lemma before_wake_lookup dt s t :
  before_wake dt s !! t = pre_wake_actor dt s t <$> m_actors s !! t.
Proof.
  unfold before_wake. rewrite reset_player_lookup, wake_player_lookup,
    sleep_phase_lookup.
  assert (Hps : forall s', s' = set_m_actors (m_actors s') s ->
                           player_slot s' t = player_slot s t).
  { intros s' ->. done. }
  rewrite (Hps _ (pre_wake_fields dt s)), (Hps _ (sleep_phase_fields dt s)).
  destruct (m_actors s !! t); done.
Qed.

End PreWake.

Section SameBody.

Lemma same_body_refl a : same_body a a.
Proof. by destruct a. Qed.

Lemma same_body_trans a b c : same_body a b -> same_body b c -> same_body a c.
Proof. unfold same_body. intros -> ->. done. Qed.

Lemma same_body_set_state st a : same_body a (set_ar_sim_state st a).
Proof. by destruct a. Qed.

Lemma same_body_set_counter c a : same_body a (set_ar_sleep_counter c a).
Proof. by destruct a. Qed.

Lemma same_body_sleep_step dt a : same_body a (sleep_step dt a).
Proof.
  unfold sleep_step.
  destruct (negb _); [apply same_body_refl|].
  destruct (Qlt_bool _ _); [apply same_body_refl|].
  destruct (Qle_bool _ _); by destruct a.
Qed.

Lemma same_body_actor_step a a' : actor_step a a' -> same_body a a'.
Proof. intros [->|[_ ->]]; [apply same_body_refl|by destruct a]. Qed.

Lemma same_body_pre_wake dt s t a : same_body a (pre_wake_actor dt s t a).
Proof.
  unfold pre_wake_actor.
  repeat match goal with
         | |- context [if ?c then _ else _] => destruct c
         end;
    repeat first [ apply same_body_refl
                 | eapply same_body_trans; [|apply same_body_set_counter]
                 | eapply same_body_trans; [|apply same_body_set_state]
                 | apply same_body_sleep_step ].
Qed.

Lemma same_body_predict a a' b b' sc :
  same_body a a' -> same_body b b' ->
  predictTruckIntersectionCollAABB a' b' sc = predictTruckIntersectionCollAABB a b sc.
Proof. unfold same_body. intros -> ->. done. Qed.

Lemma same_body_overlap a a' b b' sc :
  same_body a a' -> same_body b b' ->
  truckIntersectionCollAABB a' b' sc = truckIntersectionCollAABB a b sc.
Proof. unfold same_body. intros -> ->. done. Qed.

End SameBody.

Section Pass.

Variables (dt : Q) (s : ActorManager).

Lemma pass_spec :
  UpdateSleepingState dt s = set_m_actors (m_actors (UpdateSleepingState dt s)) s /\
  wake_post (m_free_actor_slot s) (before_wake dt s, ∅)
    (m_actors (UpdateSleepingState dt s), wake_sources dt s) /\
  vis_sim (m_actors (UpdateSleepingState dt s), wake_sources dt s) /\
  (forall t a, player_slot s t = true -> before_wake dt s !! t = Some a ->
               ar_sim_state a = LOCAL_SIMULATED -> t ∈ wake_sources dt s).
Proof.
  unfold UpdateSleepingState, wake_sources.
  destruct (UpdateSleepingState_visited_spec dt s) as (m' & w & H & Hwp & Hvs & Hpl).
  rewrite H. simpl. split; [done|]. split; [done|]. split; [done|].
  intros t a Hps Hbw Hsim.
  pose proof (player_slot_to_nat _ _ Hps) as Hto.
  unfold before_wake in Hbw. rewrite reset_player_lookup in Hbw.
  set (s2 := wake_player (sleep_phase dt s)) in *.
  assert (Hps2 : player_slot s2 t = true).
  { subst s2. rewrite pre_wake_fields. exact Hps. }
  assert (Hp2 : m_player_actor s2 = m_player_actor s).
  { subst s2. by rewrite pre_wake_fields. }
  destruct (m_actors s2 !! t) as [a2|] eqn:Ha2; [|done].
  simpl in Hbw. injection Hbw as Hbw. rewrite Hps2 in Hbw. simpl in Hbw.
  assert (Hsim2 : ar_sim_state a2 = LOCAL_SIMULATED).
  { destruct (bool_decide (ar_sim_state a2 = LOCAL_SIMULATED)) eqn:Hd.
    - by apply bool_decide_eq_true in Hd.
    - by subst a. }
  rewrite <- Hto. apply (Hpl a2); [|done].
  rewrite getTruck_player, Hp2, Hto, Hps2. done.
Qed.

Lemma pass_lookup t a' :
  m_actors (UpdateSleepingState dt s) !! t = Some a' ->
  exists a, m_actors s !! t = Some a /\ actor_step (pre_wake_actor dt s t a) a'.
Proof.
  intros Ht. destruct pass_spec as (_ & Hwp & _).
  destruct (actors_step_bwd _ _ _ _ (wp_step _ _ _ Hwp) Ht) as (a0 & Ha0 & Hs0).
  simpl in Ha0. rewrite before_wake_lookup in Ha0.
  destruct (m_actors s !! t) as [a|]; [|done].
  injection Ha0 as <-. eauto.
Qed.

Lemma pass_lookup_fwd t a :
  m_actors s !! t = Some a ->
  exists a', m_actors (UpdateSleepingState dt s) !! t = Some a' /\
             actor_step (pre_wake_actor dt s t a) a'.
Proof.
  intros Ht. destruct pass_spec as (_ & Hwp & _).
  assert (Hb : before_wake dt s !! t = Some (pre_wake_actor dt s t a))
    by (by rewrite before_wake_lookup, Ht).
  exact (actors_step_fwd _ _ _ _ (wp_step _ _ _ Hwp) Hb).
Qed.

Lemma pass_same_body t a a' :
  m_actors s !! t = Some a -> m_actors (UpdateSleepingState dt s) !! t = Some a' -> same_body a a'.
Proof.
  intros Ht Ht'. destruct (pass_lookup t a' Ht') as (a0 & Ha0 & Hs0).
  assert (a0 = a) as -> by congruence.
  eapply same_body_trans; [apply same_body_pre_wake|].
  by apply same_body_actor_step.
Qed.

Lemma pass_dom : dom (m_actors (UpdateSleepingState dt s)) = dom (m_actors s).
Proof.
  apply set_eq. intros t. rewrite !elem_of_dom. split; intros [a Ha].
  - destruct (pass_lookup t a Ha) as (a0 & Ha0 & _). eauto.
  - destruct (pass_lookup_fwd t a Ha) as (a0 & Ha0 & _). eauto.
Qed.

(** A sleeping actor keeps sleeping through the blocks before wake
    propagation unless it is the player actor, which is woken. *)
Lemma pre_wake_sleeping t a :
  ar_sim_state a = LOCAL_SLEEPING ->
  pre_wake_actor dt s t a = if player_slot s t then wake a else a.
Proof.
  intros Hsl. unfold pre_wake_actor, sleep_step.
  rewrite Hsl. simpl.
  destruct (negb (m_forced_active s) && (t <? m_free_actor_slot s));
    rewrite Hsl; destruct (player_slot s t); simpl; try done.
Qed.

Lemma pre_wake_not_simulated t a :
  ar_sim_state a <> LOCAL_SIMULATED -> ar_sim_state a <> LOCAL_SLEEPING ->
  pre_wake_actor dt s t a = a.
Proof.
  intros H1 H2. unfold pre_wake_actor, sleep_step.
  rewrite (bool_decide_eq_false_2 _ H1). simpl.
  assert (E : (if negb (m_forced_active s) && (t <? m_free_actor_slot s)
               then a else a) = a) by (by destruct (_ && _)).
  rewrite E.
  rewrite (bool_decide_eq_false_2 _ H2), andb_false_r.
  by rewrite (bool_decide_eq_false_2 _ H1), andb_false_r.
Qed.

Lemma pre_wake_other t a :
  player_slot s t = false ->
  pre_wake_actor dt s t a =
  if negb (m_forced_active s) && (t <? m_free_actor_slot s)
  then sleep_step dt a else a.
Proof. intros Hp. unfold pre_wake_actor. by rewrite Hp. Qed.

End Pass.

Section PassFacts.

Variables (dt : Q) (s : ActorManager).

Lemma Qlt_bool_true a b : Qlt_bool a b = true <-> (a < b)%Q.
Proof.
  unfold Qlt_bool. rewrite negb_true_iff. split.
  - intros H. apply Qnot_le_lt. intros Hle.
    apply Qle_bool_iff in Hle. congruence.
  - intros H. destruct (Qle_bool b a) eqn:E; [|done].
    apply Qle_bool_iff in E. by apply Qlt_not_le in H.
Qed.

Lemma Qlt_bool_false a b : Qlt_bool a b = false <-> (b <= a)%Q.
Proof.
  unfold Qlt_bool. rewrite negb_false_iff. apply Qle_bool_iff.
Qed.

Lemma sleep_step_local a : is_local a -> is_local (sleep_step dt a).
Proof.
  intros Hl. unfold sleep_step.
  destruct (negb _); [done|]. destruct (Qlt_bool _ _); [done|].
  destruct (Qle_bool _ _); [by right|]. exact Hl.
Qed.

Lemma pre_wake_player_simulated t a :
  player_slot s t = true -> is_local a ->
  ar_sim_state (pre_wake_actor dt s t a) = LOCAL_SIMULATED.
Proof.
  intros Hp Hl. unfold pre_wake_actor. rewrite Hp. simpl.
  set (a1 := if negb (m_forced_active s) && (t <? m_free_actor_slot s)
             then sleep_step dt a else a).
  assert (Hl1 : is_local a1).
  { subst a1. destruct (_ && _); [by apply sleep_step_local|done]. }
  destruct Hl1 as [H1|H1].
  - rewrite (bool_decide_eq_false_2 (ar_sim_state a1 = LOCAL_SLEEPING))
      by congruence.
    by rewrite (bool_decide_eq_true_2 _ H1).
  - by rewrite (bool_decide_eq_true_2 _ H1).
Qed.

Lemma pass_player_source t a :
  player_slot s t = true -> m_actors s !! t = Some a -> is_local a ->
  t ∈ wake_sources dt s.
Proof.
  intros Hp Ha Hl. destruct (pass_spec dt s) as (_ & _ & _ & Hpl).
  apply (Hpl t (pre_wake_actor dt s t a)); [done| |].
  - by rewrite before_wake_lookup, Ha.
  - by apply pre_wake_player_simulated.
Qed.

(** A sleeping actor that is awake after the pass was woken: it is the
    woken copy of itself and was visited. *)
Lemma pass_woken t a a' :
  m_actors s !! t = Some a -> ar_sim_state a = LOCAL_SLEEPING ->
  m_actors (UpdateSleepingState dt s) !! t = Some a' ->
  ar_sim_state a' <> LOCAL_SLEEPING ->
  a' = wake a /\ t ∈ wake_sources dt s.
Proof.
  intros Ha Hsl Ha' Hns.
  destruct (pass_spec dt s) as (_ & Hwp & _ & _).
  destruct (pass_lookup dt s t a' Ha') as (a0 & Ha0 & Hst).
  assert (a0 = a) as -> by congruence.
  rewrite (pre_wake_sleeping dt s t a Hsl) in Hst.
  destruct (player_slot s t) eqn:Hp.
  - split.
    + destruct Hst as [->|[_ ->]]; done.
    + apply (pass_player_source t a); [done|done|by right].
  - split.
    + destruct (actor_step_state _ _ Hst) as [He|[_ ->]]; [congruence|done].
    + apply (wp_woken _ _ _ Hwp t a a'); simpl; try done.
      rewrite before_wake_lookup, Ha. simpl.
      by rewrite (pre_wake_sleeping dt s t a Hsl), Hp.
Qed.

End PassFacts.

(** * Claims on the sleep / wake state machine *)

(** C4: in one pass of [UpdateSleepingState], every actor [t] below the
    high-water mark whose predicted collision geometry overlaps (dilation
    1.0) that of a visited wake source [j] is not left sleeping; if it was
    [LOCAL_SLEEPING] before the pass it is now [LOCAL_SIMULATED] with its
    sleep timer reset to zero and has itself been visited as a wake
    source.  In particular, with a simulated player actor [A], a sleeping
    [B] overlapping [A] and a sleeping [C] overlapping [B], one pass wakes
    both [B] and [C]. *)
Theorem reachability_wake_propagation (dt : Q) (s : ActorManager) :
  (forall j t at' aj',
      j ∈ wake_sources dt s -> t < m_free_actor_slot s -> t <> j ->
      m_actors (UpdateSleepingState dt s) !! t = Some at' ->
      m_actors (UpdateSleepingState dt s) !! j = Some aj' ->
      predictTruckIntersectionCollAABB at' aj' 1 = true ->
      ar_sim_state at' <> LOCAL_SLEEPING /\
      forall a, m_actors s !! t = Some a -> ar_sim_state a = LOCAL_SLEEPING ->
                at' = wake a /\ t ∈ wake_sources dt s)
  /\
  (forall A B C a b c,
      m_player_actor s = Z.of_nat A ->
      A < m_free_actor_slot s -> B < m_free_actor_slot s -> C < m_free_actor_slot s ->
      m_actors s !! A = Some a -> m_actors s !! B = Some b -> m_actors s !! C = Some c ->
      ar_sim_state a = LOCAL_SIMULATED ->
      ar_sim_state b = LOCAL_SLEEPING -> ar_sim_state c = LOCAL_SLEEPING ->
      predictTruckIntersectionCollAABB b a 1 = true ->
      predictTruckIntersectionCollAABB c b 1 = true ->
      m_actors (UpdateSleepingState dt s) !! B = Some (wake b) /\
      m_actors (UpdateSleepingState dt s) !! C = Some (wake c)).
Proof.
  assert (Hgen : forall j t at' aj',
      j ∈ wake_sources dt s -> t < m_free_actor_slot s -> t <> j ->
      m_actors (UpdateSleepingState dt s) !! t = Some at' ->
      m_actors (UpdateSleepingState dt s) !! j = Some aj' ->
      predictTruckIntersectionCollAABB at' aj' 1 = true ->
      ar_sim_state at' <> LOCAL_SLEEPING /\
      forall a, m_actors s !! t = Some a -> ar_sim_state a = LOCAL_SLEEPING ->
                at' = wake a /\ t ∈ wake_sources dt s).
  { intros j t at' aj' Hj Hlt Hne Ht Hjl Hov.
    destruct (pass_spec dt s) as (_ & Hwp & _ & _).
    assert (Hns : ar_sim_state at' <> LOCAL_SLEEPING).
    { apply (wp_closed _ _ _ Hwp j Hj (not_elem_of_empty j) t Hlt Hne at' aj');
        done. }
    split; [done|]. intros a Ha Hsl. by apply (pass_woken dt s t a at'). }
  split; [exact Hgen|].
  intros A B C a b c Hpl HA HB HC Ha Hb Hc Hsa Hsb Hsc Hba Hcb.
  assert (HAsrc : A ∈ wake_sources dt s).
  { apply (pass_player_source dt s A a); [|done|by left].
    apply player_slot_true. done. }
  destruct (pass_lookup_fwd dt s A a Ha) as (a' & Ha' & _).
  destruct (pass_lookup_fwd dt s B b Hb) as (b' & Hb' & _).
  destruct (pass_lookup_fwd dt s C c Hc) as (c' & Hc' & _).
  pose proof (pass_same_body dt s A a a' Ha Ha') as SA.
  pose proof (pass_same_body dt s B b b' Hb Hb') as SB.
  pose proof (pass_same_body dt s C c c' Hc Hc') as SC.
  assert (HBA : B <> A) by (intros ->; congruence).
  destruct (Hgen A B b' a' HAsrc HB HBA Hb' Ha') as (_ & HwB).
  { by rewrite (same_body_predict b b' a a' 1 SB SA). }
  destruct (HwB b Hb Hsb) as (-> & HBsrc).
  split; [done|].
  destruct (decide (C = B)) as [->|HCB].
  { assert (c = b) as -> by congruence. done. }
  destruct (Hgen B C c' (wake b) HBsrc HC HCB Hc' Hb') as (_ & HwC).
  { by rewrite (same_body_predict c c' b (wake b) 1 SC SB). }
  destruct (HwC c Hc Hsc) as (-> & _). done.
Qed.

(** C7: in every pass, each visited wake source is a [LOCAL_SIMULATED]
    actor; a [NETWORKED_OK] actor is never visited and is left untouched;
    and a sleeping actor that the pass wakes is either the player actor or
    overlaps (predicted geometry) a visited source, which is a local
    simulated actor and not a networked one. *)
Theorem networked_actors_do_not_chain (dt : Q) (s : ActorManager) :
  (forall j, j ∈ wake_sources dt s ->
     exists aj, m_actors (UpdateSleepingState dt s) !! j = Some aj /\
                ar_sim_state aj = LOCAL_SIMULATED)
  /\
  (forall t a, m_actors s !! t = Some a -> ar_sim_state a = NETWORKED_OK ->
     (t ∉ wake_sources dt s) /\ m_actors (UpdateSleepingState dt s) !! t = Some a)
  /\
  (forall t a a', m_actors s !! t = Some a -> ar_sim_state a = LOCAL_SLEEPING ->
     m_actors (UpdateSleepingState dt s) !! t = Some a' ->
     ar_sim_state a' = LOCAL_SIMULATED ->
     player_slot s t = true \/
     exists j aj0 aj,
       j ∈ wake_sources dt s /\ j <> t /\
       m_actors s !! j = Some aj0 /\ ar_sim_state aj0 <> NETWORKED_OK /\
       m_actors (UpdateSleepingState dt s) !! j = Some aj /\
       ar_sim_state aj = LOCAL_SIMULATED /\
       predictTruckIntersectionCollAABB a aj0 1 = true).
Proof.
  destruct (pass_spec dt s) as (_ & Hwp & Hvs & _).
  assert (Hnet : forall t a, m_actors s !! t = Some a ->
                   ar_sim_state a = NETWORKED_OK ->
                   (t ∉ wake_sources dt s) /\
                   m_actors (UpdateSleepingState dt s) !! t = Some a).
  { intros t a Ha Hn.
    destruct (pass_lookup_fwd dt s t a Ha) as (a' & Ha' & Hst).
    rewrite pre_wake_not_simulated in Hst by congruence.
    assert (a' = a) as ->.
    { apply (actor_step_nonlocal _ _ Hst). intros [H|H]; congruence. }
    split; [|done]. intros Hin.
    destruct (Hvs t Hin) as (a1 & Ha1 & Hs1). simpl in Ha1. congruence. }
  split; [exact Hvs|]. split; [exact Hnet|].
  intros t a a' Ha Hsl Ha' Hsim.
  destruct (player_slot s t) eqn:Hp; [by left|right].
  assert (Hb : before_wake dt s !! t = Some a).
  { rewrite before_wake_lookup, Ha. simpl.
    by rewrite (pre_wake_sleeping dt s t a Hsl), Hp. }
  destruct (wp_changed _ _ _ Hwp t a a' Hb Ha') as [->|[_ Hc]]; [congruence|].
  destruct Hc as (x & ax & Hx & Hne & Hlx & [[Hs _]|[_ Hov]]); [congruence|].
  simpl in Hlx.
  destruct (Hvs x Hx) as (ax1 & Hax1 & Hsx). simpl in Hax1.
  assert (ax1 = ax) as -> by congruence.
  destruct (pass_lookup dt s x ax Hlx) as (ax0 & Hax0 & _).
  exists x, ax0, ax. split; [done|]. split; [done|]. split; [done|].
  split.
  { intros Hn. destruct (Hnet x ax0 Hax0 Hn) as [Hnin _]. done. }
  split; [done|]. split; [done|].
  rewrite <- Hov. symmetry.
  apply same_body_predict; [apply same_body_refl|].
  by apply (pass_same_body dt s x).
Qed.

(** C3, amended: the pause-and-resume accumulator.  For a simulated actor
    that is not the player actor and overlaps no other actor, with the
    force-all-active override unset, one pass with simulated time [dt]
    - leaves the actor entirely unchanged when its squared speed, computed
      in floats, exceeds [0.01f]: the sleep timer is neither advanced nor
      restarted;
    - otherwise replaces the sleep timer by the float sum of the timer and
      [dt] (taken to be finite), and the actor is [LOCAL_SLEEPING] after
      the pass when that sum has reached 10 and still [LOCAL_SIMULATED]
      when it has not;
    - the float sum is [timer + dt] up to one rounding. *)
Theorem sleep_accumulator (dt : Q) (s : ActorManager) (t : nat) (a : Actor) :
  m_actors s !! t = Some a ->
  t < m_free_actor_slot s ->
  ar_sim_state a = LOCAL_SIMULATED ->
  m_forced_active s = false ->
  m_player_actor s <> Z.of_nat t ->
  (forall j aj, j <> t -> m_actors s !! j = Some aj ->
     truckIntersectionCollAABB a aj (binary32 (12 # 10)) = false /\
     predictTruckIntersectionCollAABB a aj 1 = false) ->
  exists a', m_actors (UpdateSleepingState dt s) !! t = Some a' /\
    same_body a a' /\
    ((binary32 (1 # 100) < squaredLength (getVelocity a))%Q -> a' = a) /\
    ((squaredLength (getVelocity a) <= binary32 (1 # 100))%Q ->
     finite32 (fadd (ar_sleep_counter a) dt) ->
       ar_sleep_counter a' = fadd (ar_sleep_counter a) dt /\
       ((10 <= fadd (ar_sleep_counter a) dt)%Q -> ar_sim_state a' = LOCAL_SLEEPING) /\
       ((fadd (ar_sleep_counter a) dt < 10)%Q -> ar_sim_state a' = LOCAL_SIMULATED) /\
       (Qabs (fadd (ar_sleep_counter a) dt - (ar_sleep_counter a + dt))
        <= Qabs (ar_sleep_counter a + dt) * 2 ^ (-24) + 2 ^ (-150))%Q).
Proof.
  intros Ha Hlt Hsim Hforced Hnp Hiso.
  destruct (pass_spec dt s) as (_ & Hwp & _ & _).
  assert (Hp : player_slot s t = false).
  { destruct (player_slot s t) eqn:E; [|done].
    apply player_slot_true in E as [E _]. done. }
  assert (Hb : before_wake dt s !! t = Some (sleep_step dt a)).
  { rewrite before_wake_lookup, Ha. simpl. rewrite (pre_wake_other dt s t a Hp).
    rewrite Hforced. simpl.
    by destruct (Nat.ltb_spec t (m_free_actor_slot s)); [|lia]. }
  destruct (actors_step_fwd _ _ _ _ (wp_step _ _ _ Hwp) Hb) as (a' & Ha' & _).
  simpl in Ha'.
  assert (a' = sleep_step dt a) as ->.
  { destruct (wp_changed _ _ _ Hwp t _ a' Hb Ha') as [->|[_ Hc]]; [done|].
    exfalso. destruct Hc as (x & ax & _ & Hne & Hlx & Hov). simpl in Hlx.
    destruct (pass_lookup dt s x ax Hlx) as (ax0 & Hax0 & _).
    destruct (Hiso x ax0 Hne Hax0) as [Hi1 Hi2].
    pose proof (pass_same_body dt s x ax0 ax Hax0 Hlx) as Sx.
    pose proof (same_body_sleep_step dt a) as Sa.
    rewrite (same_body_overlap a _ ax0 ax _ Sa Sx) in Hov.
    rewrite (same_body_predict a _ ax0 ax _ Sa Sx) in Hov.
    destruct Hov as [[_ Hov]|[_ Hov]]; congruence. }
  exists (sleep_step dt a). split; [done|]. split; [apply same_body_sleep_step|].
  unfold sleep_step. rewrite (bool_decide_eq_true_2 _ Hsim). cbn [negb]. split.
  - intros Hfast. apply Qlt_bool_true in Hfast. by rewrite Hfast.
  - intros Hslow _. apply Qlt_bool_false in Hslow. rewrite Hslow.
    cbn [ar_sleep_counter set_ar_sleep_counter].
    split; [by destruct (Qle_bool _ _)|]. split; [|split].
    + intros Hge. apply Qle_bool_iff in Hge. by rewrite Hge.
    + intros Hless. destruct (Qle_bool 10 (fadd (ar_sleep_counter a) dt)) eqn:E.
      * apply Qle_bool_iff in E. by apply Qlt_not_le in Hless.
      * done.
    + apply binary32_error.
Qed.

(** * The slot registry *)

Section RegistryFacts.

Variable MAX_TRUCKS : nat.

Lemma first_free_slot_Some actors free len : forall a t,
  first_free_slot actors free (seq a len) = Some t <->
  a <= t < a + len /\ free <= t /\ actors !! t = None /\
  forall u, a <= u < t -> ~ (free <= u /\ actors !! u = None).
Proof.
  induction len as [|len IH]; intros a t; simpl.
  - split; [done|]. intros [? _]. lia.
  - destruct (bool_decide (actors !! a = None) && (free <=? a)) eqn:Hc.
    + apply andb_true_iff in Hc as [H1 H2].
      apply bool_decide_eq_true in H1. apply Nat.leb_le in H2.
      split.
      * intros [= <-]. repeat split; try done; try lia.
      * intros (Hr & Hf & Hn & Hmin). f_equal.
        destruct (decide (a = t)) as [->|Hne]; [done|].
        exfalso. apply (Hmin a); [lia|done].
    + rewrite IH. apply andb_false_iff in Hc.
      assert (Hna : ~ (free <= a /\ actors !! a = None)).
      { intros [Hf Hn]. destruct Hc as [Hc|Hc].
        - apply bool_decide_eq_false in Hc. done.
        - apply Nat.leb_gt in Hc. lia. }
      split.
      * intros (Hr & Hf & Hn & Hmin). repeat split; try done; try lia.
        intros u Hu. destruct (decide (u = a)) as [->|Hne]; [done|].
        apply Hmin. lia.
      * intros (Hr & Hf & Hn & Hmin).
        assert (a <> t) by (intros ->; tauto).
        repeat split; try done; try lia.
        intros u Hu. apply Hmin. lia.
Qed.

Lemma first_free_slot_None actors free len : forall a,
  first_free_slot actors free (seq a len) = None <->
  forall u, a <= u < a + len -> ~ (free <= u /\ actors !! u = None).
Proof.
  induction len as [|len IH]; intros a; simpl.
  - split; [|done]. intros _ u Hu. lia.
  - destruct (bool_decide (actors !! a = None) && (free <=? a)) eqn:Hc.
    + apply andb_true_iff in Hc as [H1 H2].
      apply bool_decide_eq_true in H1. apply Nat.leb_le in H2.
      split; [done|]. intros H. exfalso. apply (H a); [lia|done].
    + rewrite IH. apply andb_false_iff in Hc.
      assert (Hna : ~ (free <= a /\ actors !! a = None)).
      { intros [Hf Hn]. destruct Hc as [Hc|Hc].
        - apply bool_decide_eq_false in Hc. done.
        - apply Nat.leb_gt in Hc. lia. }
      split.
      * intros H u Hu. destruct (decide (u = a)) as [->|Hne]; [done|].
        apply H. lia.
      * intros H u Hu. apply H. lia.
Qed.

Lemma GetFreeTruckSlot_cases s :
  (exists t, first_free_slot (m_actors s) (m_free_actor_slot s) (seq 0 MAX_TRUCKS) = Some t
             /\ m_free_actor_slot s <= t
             /\ GetFreeTruckSlot MAX_TRUCKS s = (Z.of_nat t, set_m_free_actor_slot (t + 1) s))
  \/ (first_free_slot (m_actors s) (m_free_actor_slot s) (seq 0 MAX_TRUCKS) = None
      /\ GetFreeTruckSlot MAX_TRUCKS s = ((-1)%Z, s)).
Proof.
  unfold GetFreeTruckSlot.
  destruct (first_free_slot _ _ _) as [t|] eqn:Hf; [left|right; done].
  exists t. apply first_free_slot_Some in Hf as Hf'.
  destruct Hf' as (_ & Hle & _). split; [done|]. split; [done|].
  by destruct (Nat.leb_spec (m_free_actor_slot s) t); [|lia].
Qed.

Lemma GetFreeTruckSlot_success s t :
  (GetFreeTruckSlot MAX_TRUCKS s).1 = Z.of_nat t ->
  t < MAX_TRUCKS /\ slot_free s t /\
  (GetFreeTruckSlot MAX_TRUCKS s).2 = set_m_free_actor_slot (t + 1) s.
Proof.
  destruct (GetFreeTruckSlot_cases s) as [(t0 & Hf & Hle & ->)|[_ ->]]; simpl.
  - intros Ht. assert (t0 = t) as -> by lia.
    apply first_free_slot_Some in Hf as (Hr & _ & Hn & _).
    split; [lia|]. split; [by split|done].
  - lia.
Qed.

Lemma GetFreeTruckSlot_mark s :
  m_free_actor_slot s <= m_free_actor_slot (GetFreeTruckSlot MAX_TRUCKS s).2.
Proof.
  destruct (GetFreeTruckSlot_cases s) as [(t & _ & Hle & ->)|[_ ->]]; simpl; lia.
Qed.

Lemma GetFreeTruckSlot_allocated s t :
  t ∈ allocated (GetFreeTruckSlot MAX_TRUCKS s).1 ->
  m_free_actor_slot s <= t < m_free_actor_slot (GetFreeTruckSlot MAX_TRUCKS s).2.
Proof.
  unfold allocated.
  destruct (GetFreeTruckSlot_cases s) as [(u & _ & Hle & ->)|[_ ->]]; simpl.
  - rewrite bool_decide_eq_false_2 by lia.
    intros Ht. apply list_elem_of_singleton in Ht. subst. lia.
  - intros Ht. by apply elem_of_nil in Ht.
Qed.

Lemma setCurrentTruck_fields new_truck s :
  m_free_actor_slot (setCurrentTruck new_truck s) = m_free_actor_slot s /\
  m_player_actor (setCurrentTruck new_truck s) = new_truck /\
  dom (m_actors (setCurrentTruck new_truck s)) = dom (m_actors s).
Proof.
  unfold setCurrentTruck.
  rewrite UpdateSleepingState_fields. simpl.
  split; [done|]. split; [done|]. by rewrite pass_dom.
Qed.

Lemma DeleteTruck_mark b s :
  m_free_actor_slot (DeleteTruck b s) = m_free_actor_slot s.
Proof.
  destruct b as [b|]; [|done]. simpl.
  destruct (bool_decide _); [|done].
  apply setCurrentTruck_fields.
Qed.

Lemma DeleteTruck_cleared b s :
  m_actors (DeleteTruck (Some b) s) !! ar_instance_id b = None.
Proof. simpl. apply lookup_delete_eq. Qed.

Lemma DeleteTruck_dom b s :
  dom (m_actors (DeleteTruck (Some b) s)) = dom (m_actors s) ∖ {[ar_instance_id b]}.
Proof.
  simpl. rewrite dom_delete_L.
  destruct (bool_decide _); [|done].
  by rewrite (proj2 (proj2 (setCurrentTruck_fields _ _))).
Qed.

Lemma removeTruck_mark truck s :
  m_free_actor_slot (removeTruck truck s) = m_free_actor_slot s.
Proof.
  unfold removeTruck. destruct (_ || _); [done|].
  destruct (m_actors s !! Z.to_nat truck); [|done].
  destruct (bool_decide _); [done|]. apply DeleteTruck_mark.
Qed.

Lemma CleanUpAllTrucks_lookup s t :
  m_actors (CleanUpAllTrucks s) !! t =
  if decide (t < m_free_actor_slot s) then None else m_actors s !! t.
Proof.
  unfold CleanUpAllTrucks. simpl.
  generalize (m_free_actor_slot s) as n. intros n.
  induction n as [|n IH].
  - simpl. destruct (decide (t < 0)); [lia|done].
  - rewrite seq_S, foldl_app. simpl.
    set (mn := foldl _ (m_actors s) (seq 0 n)) in *.
    assert (E : match mn !! n with Some _ => delete n mn | None => mn end
                = delete n mn).
    { destruct (mn !! n) eqn:Hn; [done|]. by rewrite delete_id. }
    rewrite E. destruct (decide (t = n)) as [->|Hne].
    + rewrite lookup_delete_eq. destruct (decide (n < S n)); [done|lia].
    + rewrite lookup_delete_ne by done. rewrite IH.
      destruct (decide (t < n)), (decide (t < S n)); try lia; done.
Qed.

Lemma CreateLocalRigInstance_mark proto s :
  m_free_actor_slot (CreateLocalRigInstance MAX_TRUCKS proto s).2
  = m_free_actor_slot (GetFreeTruckSlot MAX_TRUCKS s).2.
Proof.
  unfold CreateLocalRigInstance.
  destruct (GetFreeTruckSlot MAX_TRUCKS s) as [r s1]. cbn [fst snd].
  destruct (bool_decide (r = -1)%Z); [done|].
  destruct (bool_decide _); cbn [fst snd]; [|done].
  apply DeleteTruck_mark.
Qed.

Lemma registry_step_mark op s t :
  m_free_actor_slot s <= m_free_actor_slot (registry_step MAX_TRUCKS op s).1 /\
  (t ∈ (registry_step MAX_TRUCKS op s).2 ->
   m_free_actor_slot s <= t < m_free_actor_slot (registry_step MAX_TRUCKS op s).1).
Proof.
  destruct op as [|proto|slot|truck|]; simpl.
  - split; [apply GetFreeTruckSlot_mark|apply GetFreeTruckSlot_allocated].
  - rewrite CreateLocalRigInstance_mark.
    split; [apply GetFreeTruckSlot_mark|apply GetFreeTruckSlot_allocated].
  - rewrite DeleteTruck_mark. split; [done|]. intros H. by apply elem_of_nil in H.
  - rewrite removeTruck_mark. split; [done|]. intros H. by apply elem_of_nil in H.
  - split; [done|]. intros H. by apply elem_of_nil in H.
Qed.

Lemma registry_step_sorted op s :
  StronglySorted lt (registry_step MAX_TRUCKS op s).2.
Proof.
  assert (Ha : forall r, StronglySorted lt (allocated r)).
  { intros r. unfold allocated. destruct (bool_decide _); repeat constructor. }
  destruct op; simpl; try apply Ha; constructor.
Qed.

Lemma registry_run_mark ops : forall s,
  m_free_actor_slot s <= m_free_actor_slot (registry_run MAX_TRUCKS ops s).1 /\
  (forall t, t ∈ (registry_run MAX_TRUCKS ops s).2 ->
     m_free_actor_slot s <= t < m_free_actor_slot (registry_run MAX_TRUCKS ops s).1) /\
  StronglySorted lt (registry_run MAX_TRUCKS ops s).2.
Proof.
  induction ops as [|op ops IH]; intros s; simpl.
  - split; [done|]. split; [|constructor]. intros t H. by apply elem_of_nil in H.
  - set (r1 := registry_step MAX_TRUCKS op s).
    destruct (IH r1.1) as (IH1 & IH2 & IH3).
    pose proof (fun t => registry_step_mark op s t) as Hs. fold r1 in Hs.
    destruct (Hs 0) as [Hm _].
    split; [lia|]. split.
    + intros t Ht. apply elem_of_app in Ht as [Ht|Ht].
      * destruct (Hs t) as [_ H]. specialize (H Ht). lia.
      * specialize (IH2 t Ht). lia.
    + apply StronglySorted_app_2; [|apply registry_step_sorted|done].
      intros x y Hx Hy. destruct (Hs x) as [_ H]. specialize (H Hx).
      specialize (IH2 y Hy). lia.
Qed.

End RegistryFacts.

Section RegistryInvariant.

Variable MAX_TRUCKS : nat.

Lemma same_body_instance_id a a' : same_body a a' -> ar_instance_id a' = ar_instance_id a.
Proof. unfold same_body. by intros ->. Qed.

Lemma registry_wf_new : registry_wf ActorManager_new.
Proof. intros t a Ha. simpl in Ha. by rewrite lookup_empty in Ha. Qed.

Lemma registry_wf_pass dt s : registry_wf s -> registry_wf (UpdateSleepingState dt s).
Proof.
  intros Hwf t a' Ha'.
  destruct (pass_lookup dt s t a' Ha') as (a & Ha & _).
  pose proof (pass_same_body dt s t a a' Ha Ha') as Hsb.
  destruct (Hwf t a Ha) as [Hlt Hid].
  rewrite UpdateSleepingState_fields. simpl.
  split; [done|]. by rewrite (same_body_instance_id _ _ Hsb).
Qed.

Lemma registry_wf_DeleteTruck b s : registry_wf s -> registry_wf (DeleteTruck b s).
Proof.
  intros Hwf. destruct b as [b|]; [|done]. simpl.
  assert (Hwf1 : registry_wf (if bool_decide (m_player_actor s = Z.of_nat (ar_instance_id b))
                              then setCurrentTruck (-1) s else s)).
  { destruct (bool_decide _); [|done]. unfold setCurrentTruck.
    apply registry_wf_pass. exact Hwf. }
  intros t a Ha. simpl in Ha.
  apply lookup_delete_Some in Ha as [_ Ha]. by apply Hwf1.
Qed.

Lemma registry_wf_step op s :
  registry_wf s -> registry_wf (registry_step MAX_TRUCKS op s).1.
Proof.
  intros Hwf. destruct op as [|proto|slot|truck|]; cbn [registry_step fst].
  - destruct (GetFreeTruckSlot_cases MAX_TRUCKS s) as [(t & _ & Hle & ->)|[_ ->]];
      [|done].
    intros u a Ha. destruct (Hwf u a Ha). simpl. split; [lia|done].
  - unfold CreateLocalRigInstance.
    destruct (GetFreeTruckSlot_cases MAX_TRUCKS s) as [(t & _ & Hle & ->)|[_ ->]].
    + assert (Hwf1 : registry_wf (set_m_free_actor_slot (t + 1) s)).
      { intros u a Ha. destruct (Hwf u a Ha). simpl. split; [lia|done]. }
      rewrite bool_decide_eq_false_2 by lia. rewrite Nat2Z.id.
      destruct (bool_decide _); cbn [snd].
      * by apply registry_wf_DeleteTruck.
      * intros u a Ha. simpl in Ha.
        apply lookup_insert_Some in Ha as [[<- <-]|[_ Ha]].
        -- simpl. split; [lia|done].
        -- by apply Hwf1.
    + by rewrite bool_decide_eq_true_2.
  - by apply registry_wf_DeleteTruck.
  - unfold removeTruck. destruct (_ || _); [done|].
    destruct (m_actors s !! Z.to_nat truck); [|done].
    destruct (bool_decide _); [done|]. by apply registry_wf_DeleteTruck.
  - intros t a Ha. rewrite CleanUpAllTrucks_lookup in Ha.
    destruct (decide (t < m_free_actor_slot s)); [done|]. by apply Hwf.
Qed.

Lemma registry_wf_run ops : forall s,
  registry_wf s -> registry_wf (registry_run MAX_TRUCKS ops s).1.
Proof.
  induction ops as [|op ops IH]; intros s Hwf; [done|].
  cbn [registry_run fst]. apply IH. by apply registry_wf_step.
Qed.

End RegistryInvariant.

(** C5, amended: [GetFreeTruckSlot] returns the lowest empty slot index at
    or above the high-water mark and moves the mark just past it; it
    returns [-1] and leaves the manager unchanged exactly when no slot at
    or above the mark is empty (empty slots below the mark do not count).
    The failure is surfaced as a failed spawn: [CreateLocalRigInstance]
    then returns the null pointer for every spawn request and leaves the
    manager unchanged, and a spawn that returns an actor was given a slot. *)
Theorem GetFreeTruckSlot_lowest_above_mark (MAX_TRUCKS : nat) (s : ActorManager) :
  (forall t, (GetFreeTruckSlot MAX_TRUCKS s).1 = Z.of_nat t <->
     t < MAX_TRUCKS /\ slot_free s t /\
     forall u, u < t -> ~ slot_free s u)
  /\ (forall t, (GetFreeTruckSlot MAX_TRUCKS s).1 = Z.of_nat t ->
        (GetFreeTruckSlot MAX_TRUCKS s).2 = set_m_free_actor_slot (t + 1) s)
  /\ ((GetFreeTruckSlot MAX_TRUCKS s).1 = (-1)%Z <->
        forall u, u < MAX_TRUCKS -> ~ slot_free s u)
  /\ ((GetFreeTruckSlot MAX_TRUCKS s).1 = (-1)%Z ->
        (GetFreeTruckSlot MAX_TRUCKS s).2 = s)
  /\ (forall proto, (GetFreeTruckSlot MAX_TRUCKS s).1 = (-1)%Z ->
        CreateLocalRigInstance MAX_TRUCKS proto s = (None, s))
  /\ (forall proto b s',
        CreateLocalRigInstance MAX_TRUCKS proto s = (Some b, s') ->
        exists t, (GetFreeTruckSlot MAX_TRUCKS s).1 = Z.of_nat t /\
          t < MAX_TRUCKS /\ slot_free s t /\
          ar_instance_id b = t /\ m_actors s' !! t = Some b).
Proof.
  unfold slot_free, CreateLocalRigInstance.
  destruct (GetFreeTruckSlot_cases MAX_TRUCKS s) as [(t0 & Hf & Hle & ->)|[Hf ->]];
    simpl.
  - apply first_free_slot_Some in Hf as (Hr & _ & Hn & Hmin).
    split_and!.
    + intros t. split.
      * intros Ht. assert (t = t0) as -> by lia.
        split; [lia|]. split; [done|]. intros u Hu. apply Hmin. lia.
      * intros (Hlt & [Hfr Hnone] & Hlow). f_equal.
        destruct (Nat.lt_trichotomy t t0) as [H|[H|H]]; [|done|].
        -- exfalso. apply (Hmin t); [lia|done].
        -- exfalso. apply (Hlow t0); [lia|done].
    + intros t Ht. assert (t = t0) as -> by lia. done.
    + split; [lia|]. intros H. exfalso. apply (H t0); [lia|done].
    + lia.
    + intros proto Hm. lia.
    + intros proto b s'.
      rewrite bool_decide_eq_false_2 by lia. rewrite Nat2Z.id.
      destruct (bool_decide _); [discriminate|].
      intros [= <- <-]. exists t0. split_and!; [done|lia|lia|done|done|].
      simpl. apply lookup_insert_eq.
  - pose proof (proj1 (first_free_slot_None _ _ _ _) Hf) as Hnone.
    split_and!.
    + intros t. split; [lia|]. intros (Hlt & Hfr & _). exfalso.
      apply (Hnone t); [lia|done].
    + intros t Ht. lia.
    + split; [|done]. intros _ u Hu. apply Hnone. lia.
    + done.
    + done.
    + intros proto b s'. discriminate.
Qed.

(** C6: over every sequence of allocations, spawns, deletions and
    clear-alls the high-water mark never decreases, and the slot indices
    handed out by [GetFreeTruckSlot] are strictly increasing, so no index
    is handed out twice; [DeleteTruck] empties the slot of its actor and
    keeps the mark; [CleanUpAllTrucks] empties every slot below the mark
    (every live actor of a registry whose actors sit below the mark), sets
    the player selection to [-1] and keeps the mark.  In a session that
    starts from a fresh manager every actor sits below the mark in the
    slot named by its own index field, so [CleanUpAllTrucks] leaves the
    table empty and deleting the actor of a slot empties that slot. *)
Theorem high_water_mark_monotone (MAX_TRUCKS : nat) :
  (forall ops s,
     m_free_actor_slot s <= m_free_actor_slot (registry_run MAX_TRUCKS ops s).1 /\
     StronglySorted lt (registry_run MAX_TRUCKS ops s).2 /\
     NoDup (registry_run MAX_TRUCKS ops s).2 /\
     (forall t, t ∈ (registry_run MAX_TRUCKS ops s).2 ->
        m_free_actor_slot s <= t < m_free_actor_slot (registry_run MAX_TRUCKS ops s).1))
  /\ (forall b s,
        m_free_actor_slot (DeleteTruck (Some b) s) = m_free_actor_slot s /\
        m_actors (DeleteTruck (Some b) s) !! ar_instance_id b = None)
  /\ (forall s,
        m_free_actor_slot (CleanUpAllTrucks s) = m_free_actor_slot s /\
        m_player_actor (CleanUpAllTrucks s) = (-1)%Z /\
        (forall t, t < m_free_actor_slot s -> m_actors (CleanUpAllTrucks s) !! t = None) /\
        ((forall t, is_Some (m_actors s !! t) -> t < m_free_actor_slot s) ->
         m_actors (CleanUpAllTrucks s) = ∅))
  /\ (forall ops,
        registry_wf (registry_run MAX_TRUCKS ops ActorManager_new).1 /\
        m_actors (CleanUpAllTrucks (registry_run MAX_TRUCKS ops ActorManager_new).1) = ∅ /\
        (forall slot,
           m_actors (DeleteTruck
                       (m_actors (registry_run MAX_TRUCKS ops ActorManager_new).1 !! slot)
                       (registry_run MAX_TRUCKS ops ActorManager_new).1) !! slot = None)).
Proof.
  assert (Hclear : forall s,
    (forall t, is_Some (m_actors s !! t) -> t < m_free_actor_slot s) ->
    m_actors (CleanUpAllTrucks s) = ∅).
  { intros s Hwf. apply map_eq. intros t.
    rewrite CleanUpAllTrucks_lookup, lookup_empty.
    destruct (decide (t < m_free_actor_slot s)) as [|Hge]; [done|].
    destruct (m_actors s !! t) eqn:Ht; [|done].
    exfalso. apply Hge, Hwf. by rewrite Ht. }
  split; [|split; [|split]]; cycle 3.
  { intros ops.
    pose proof (registry_wf_run MAX_TRUCKS ops _ registry_wf_new) as Hwf.
    set (s := (registry_run MAX_TRUCKS ops ActorManager_new).1) in *.
    split; [done|]. split.
    - apply Hclear. intros t [a Ha]. by destruct (Hwf t a Ha).
    - intros slot. destruct (m_actors s !! slot) as [a|] eqn:Ha; [|done].
      destruct (Hwf slot a Ha) as [_ Hid].
      pose proof (DeleteTruck_cleared a s) as Hc. by rewrite Hid in Hc. }
  - intros ops s. destruct (registry_run_mark MAX_TRUCKS ops s) as (H1 & H2 & H3).
    split; [done|]. split; [done|]. split; [|done].
    clear H1 H2. induction H3 as [|x l Hs IH Hall]; constructor; [|done].
    intros Hin. rewrite Forall_forall in Hall. specialize (Hall x Hin). lia.
  - intros b s. split; [apply DeleteTruck_mark|apply DeleteTruck_cleared].
  - intros s. split; [done|]. split; [done|]. split.
    + intros t Ht. rewrite CleanUpAllTrucks_lookup.
      by destruct (decide (t < m_free_actor_slot s)).
    + apply Hclear.
Qed.

(** C9: a local spawn whose constructed actor is [INVALID] returns the
    null pointer and registers no actor, but the slot [t] that
    [GetFreeTruckSlot] handed out stays consumed: the high-water mark is
    [t + 1], no later allocation of the session returns [t], and the slots
    that can still be handed out are those of before, without [t]. *)
Theorem failed_spawn_consumes_slot (MAX_TRUCKS : nat) (s : ActorManager)
    (proto : Actor) (t : nat) :
  (GetFreeTruckSlot MAX_TRUCKS s).1 = Z.of_nat t ->
  ar_sim_state proto = INVALID ->
  (CreateLocalRigInstance MAX_TRUCKS proto s).1 = None /\
  dom (m_actors (CreateLocalRigInstance MAX_TRUCKS proto s).2) = dom (m_actors s) /\
  m_actors (CreateLocalRigInstance MAX_TRUCKS proto s).2 !! t = None /\
  (m_player_actor s <> Z.of_nat t ->
   m_actors (CreateLocalRigInstance MAX_TRUCKS proto s).2 = m_actors s) /\
  m_free_actor_slot (CreateLocalRigInstance MAX_TRUCKS proto s).2 = t + 1 /\
  m_free_actor_slot s < m_free_actor_slot (CreateLocalRigInstance MAX_TRUCKS proto s).2 /\
  (forall ops u,
     u ∈ (registry_run MAX_TRUCKS ops (CreateLocalRigInstance MAX_TRUCKS proto s).2).2 ->
     t < u) /\
  (t < MAX_TRUCKS /\ slot_free s t) /\
  (forall u, slot_free (CreateLocalRigInstance MAX_TRUCKS proto s).2 u ->
             slot_free s u /\ u <> t).
Proof.
  intros Halloc Hinv.
  destruct (GetFreeTruckSlot_success MAX_TRUCKS s t Halloc)
    as (HltM & [Hfr Hnone] & Hs1).
  assert (HC : CreateLocalRigInstance MAX_TRUCKS proto s
               = (None, DeleteTruck (Some (new_Actor t proto))
                          (set_m_free_actor_slot (t + 1) s))).
  { unfold CreateLocalRigInstance.
    destruct (GetFreeTruckSlot MAX_TRUCKS s) as [r s1]. simpl in *. subst r s1.
    rewrite bool_decide_eq_false_2 by lia. rewrite Nat2Z.id.
    assert (Hst : ar_sim_state (new_Actor t proto) = INVALID) by done.
    by rewrite (bool_decide_eq_true_2 _ Hst). }
  rewrite HC. cbn [fst snd].
  set (s1 := set_m_free_actor_slot (t + 1) s).
  set (b := new_Actor t proto).
  assert (Hid : ar_instance_id b = t) by done.
  assert (Hmark : m_free_actor_slot (DeleteTruck (Some b) s1) = t + 1).
  { by rewrite DeleteTruck_mark. }
  assert (Hdom : dom (m_actors (DeleteTruck (Some b) s1)) = dom (m_actors s)).
  { rewrite DeleteTruck_dom. change (ar_instance_id b) with t. simpl.
    apply not_elem_of_dom in Hnone. apply set_eq. intros x.
    rewrite elem_of_difference, elem_of_singleton. split; [tauto|].
    intros Hx. split; [done|]. by intros ->. }
  split; [done|]. split; [done|].
  split; [exact (DeleteTruck_cleared b s1)|].
  split.
  { intros Hnp. simpl.
    rewrite (bool_decide_eq_false_2 _ Hnp). simpl. by apply delete_id. }
  split; [done|]. split; [lia|]. split.
  { intros ops u Hu.
    destruct (registry_run_mark MAX_TRUCKS ops (DeleteTruck (Some b) s1))
      as (_ & Hr & _).
    specialize (Hr u Hu). lia. }
  split; [done|].
  intros u [Hu1 Hu2]. rewrite Hmark in Hu1.
  split; [|lia]. split; [lia|].
  apply not_elem_of_dom. rewrite <- Hdom. by apply not_elem_of_dom.
Qed.

Lemma has_networked_actor_true actors sourceid len : forall a,
  has_networked_actor actors sourceid (seq a len) = true <->
  exists t x, a <= t < a + len /\ actors !! t = Some x /\
              ar_sim_state x = NETWORKED_OK /\ ar_net_source_id x = sourceid.
Proof.
  induction len as [|len IH]; intros a; simpl.
  - split; [done|]. intros (t & x & Ht & _). lia.
  - assert (Hshift : has_networked_actor actors sourceid (seq (S a) len) = true <->
      exists t x, a <= t < a + S len /\ t <> a /\ actors !! t = Some x /\
                  ar_sim_state x = NETWORKED_OK /\ ar_net_source_id x = sourceid).
    { rewrite IH. split; intros (t & x & Ht & H).
      - exists t, x. split; [lia|]. split; [lia|done].
      - destruct H as (Hne & H). exists t, x. split; [lia|done]. }
    destruct (actors !! a) as [x0|] eqn:Ha.
    + destruct (bool_decide (ar_sim_state x0 = NETWORKED_OK)) eqn:Hn; simpl.
      * apply bool_decide_eq_true in Hn.
        destruct (bool_decide (ar_net_source_id x0 = sourceid)) eqn:Hsrc.
        -- apply bool_decide_eq_true in Hsrc. split; [|done].
           intros _. exists a, x0. split; [lia|done].
        -- apply bool_decide_eq_false in Hsrc. rewrite Hshift.
           split; intros (t & x & Ht & H).
           ++ exists t, x. tauto.
           ++ exists t, x. split; [done|]. split; [|done].
              intros ->. destruct H as (H1 & _ & H3). congruence.
      * apply bool_decide_eq_false in Hn. rewrite Hshift.
        split; intros (t & x & Ht & H).
        -- exists t, x. tauto.
        -- exists t, x. split; [done|]. split; [|done].
           intros ->. destruct H as (H1 & H2 & _). congruence.
    + rewrite Hshift. split; intros (t & x & Ht & H).
      * exists t, x. tauto.
      * exists t, x. split; [done|]. split; [|done].
        intros ->. destruct H as (H1 & _). congruence.
Qed.

Lemma has_networked_actor_below s sourceid :
  has_networked_actor (m_actors s) sourceid (seq 0 (m_free_actor_slot s)) = true <->
  exists t a, t < m_free_actor_slot s /\ m_actors s !! t = Some a /\
              ar_sim_state a = NETWORKED_OK /\ ar_net_source_id a = sourceid.
Proof.
  rewrite has_networked_actor_true.
  split; intros (t & x & Ht & H); exists t, x; (split; [lia|done]).
Qed.

Lemma checkStreamsOK_unfold sourceid s :
  checkStreamsOK sourceid s =
  (if bool_decide (mismatch_set s sourceid <> ∅) then 0%Z
   else if has_networked_actor (m_actors s) sourceid (seq 0 (m_free_actor_slot s))
        then 1%Z else 2%Z,
   set_m_stream_mismatches
     match m_stream_mismatches s !! sourceid with
     | Some _ => m_stream_mismatches s
     | None => <[sourceid := ∅]> (m_stream_mismatches s)
     end s).
Proof.
  assert (Hsize : forall v : gset Z, 0 < size v <-> v <> ∅).
  { intros v. rewrite <- (leibniz_equiv_iff v ∅), <- size_non_empty_iff. lia. }
  unfold checkStreamsOK, map_subscript, mismatch_set.
  destruct (m_stream_mismatches s !! sourceid) as [v|]; cbn [default].
  - destruct (decide (v = ∅)) as [He|Hne].
    + rewrite (bool_decide_eq_false_2 (0 < size v)) by (rewrite Hsize; tauto).
      rewrite (bool_decide_eq_false_2 (v <> ∅)) by tauto.
      by destruct (has_networked_actor _ _ _).
    + rewrite (bool_decide_eq_true_2 (0 < size v)) by (by rewrite Hsize).
      by rewrite (bool_decide_eq_true_2 (v <> ∅)).
  - rewrite (bool_decide_eq_false_2 (0 < size (∅ : gset Z)))
      by (rewrite size_empty; lia).
    rewrite (bool_decide_eq_false_2 ((∅ : gset Z) <> ∅)) by tauto.
    by destruct (has_networked_actor _ _ _).
Qed.

(** C10: [checkStreamsOK] is not read-only.  It changes nothing but the
    mismatch map; for a source with no entry it inserts an empty entry, for
    a source with an entry it leaves the manager as it was.  It returns 0
    iff the mismatch set of the source is non-empty, 1 iff that set is
    empty and a [NETWORKED_OK] actor of the source sits below the
    high-water mark, and 2 iff the set is empty and there is no such
    actor. *)
Theorem checkStreamsOK_inserts_entry (sourceid : Z) (s : ActorManager) :
  (checkStreamsOK sourceid s).2
    = set_m_stream_mismatches (m_stream_mismatches (checkStreamsOK sourceid s).2) s
  /\ (m_stream_mismatches s !! sourceid = None ->
        m_stream_mismatches (checkStreamsOK sourceid s).2
          = <[sourceid := ∅]> (m_stream_mismatches s) /\
        m_stream_mismatches (checkStreamsOK sourceid s).2 !! sourceid = Some ∅)
  /\ (is_Some (m_stream_mismatches s !! sourceid) -> (checkStreamsOK sourceid s).2 = s)
  /\ ((checkStreamsOK sourceid s).1 = 0%Z <-> mismatch_set s sourceid <> ∅)
  /\ ((checkStreamsOK sourceid s).1 = 1%Z <->
        mismatch_set s sourceid = ∅ /\ networked_actor_of s sourceid)
  /\ ((checkStreamsOK sourceid s).1 = 2%Z <->
        mismatch_set s sourceid = ∅ /\ ~ networked_actor_of s sourceid).
Proof.
  rewrite checkStreamsOK_unfold. cbn [fst snd]. unfold networked_actor_of.
  pose proof (has_networked_actor_below s sourceid) as Hnet.
  split; [done|]. split.
  { intros ->. split; [done|]. simpl. apply lookup_insert_eq. }
  split.
  { intros [v ->]. by destruct s. }
  destruct (decide (mismatch_set s sourceid = ∅)) as [He|Hne].
  - rewrite bool_decide_eq_false_2 by tauto.
    destruct (has_networked_actor _ _ _).
    + pose proof (proj1 Hnet eq_refl) as Hex.
      split; [split; [done|tauto]|]. split; [done|]. split; [done|tauto].
    + assert (Hno : ~ exists t a, t < m_free_actor_slot s /\
                      m_actors s !! t = Some a /\
                      ar_sim_state a = NETWORKED_OK /\ ar_net_source_id a = sourceid).
      { intros H. apply Hnet in H. discriminate. }
      split; [split; [done|tauto]|]. split; [split; [done|tauto]|]. done.
  - rewrite bool_decide_eq_true_2 by done.
    split; [done|]. split; (split; [done|tauto]).
Qed.

(** * The frame scheduler *)

Section Scheduler.

Local Open Scope Q_scope.


Lemma Qtruncate_nonneg q : 0 <= q -> Qtruncate q = Qfloor q.
Proof.
  destruct q as [n d]. unfold Qle, Qtruncate, Qfloor. simpl. intros H.
  apply Z.quot_div_nonneg; lia.
Qed.

Lemma div_PHYSICS_DT x : x / PHYSICS_DT == x * 2000.
Proof. unfold PHYSICS_DT. field. Qed.

Lemma update_fields dt s :
  m_physics_steps (update dt s) = Qtruncate (frame_total dt s / PHYSICS_DT) /\
  m_dt_remainder (update dt s)
    = frame_total dt s - inject_Z (m_physics_steps (update dt s)) * PHYSICS_DT /\
  mrTime (update dt s)
    = mrTime s + PHYSICS_DT * inject_Z (m_physics_steps (update dt s)) /\
  m_simulation_speed (update dt s) = m_simulation_speed s /\
  m_free_actor_slot (update dt s) = m_free_actor_slot s.
Proof.
  unfold update, frame_total.
  set (steps := Qtruncate _).
  set (s1 := set_timing _ _ _ _ s).
  rewrite (UpdateSleepingState_fields _ s1).
  set (m2 := m_actors (UpdateSleepingState _ s1)).
  destruct (bool_decide _); [|done].
  destruct (first_simulated _ _); done.
Qed.

End Scheduler.

Lemma update_steps_of_total (dt : Q) (s : ActorManager) (x : Q) :
  (0 <= x)%Q -> (frame_total dt s == x)%Q ->
  m_physics_steps (update dt s) = Qfloor (x / PHYSICS_DT) /\
  (m_dt_remainder (update dt s) == x - inject_Z (Qfloor (x / PHYSICS_DT)) * PHYSICS_DT)%Q /\
  m_simulation_speed (update dt s) = m_simulation_speed s.
Proof.
  intros Hx Ht.
  destruct (update_fields dt s) as (Hsteps & Hr & _ & Hsp & _).
  assert (Hq : (frame_total dt s / PHYSICS_DT == x / PHYSICS_DT)%Q)
    by (by rewrite Ht).
  assert (Hq0 : (0 <= frame_total dt s / PHYSICS_DT)%Q).
  { rewrite div_PHYSICS_DT. lra. }
  rewrite (Qtruncate_nonneg _ Hq0), (Qfloor_comp _ _ Hq) in Hsteps.
  split; [done|]. split; [|done].
  rewrite Hr, Hsteps, Ht. reflexivity.
Qed.

(** X2: a frame with zero elapsed time and a carried remainder below the
    fixed substep takes no substep: the remainder is carried on unchanged
    and the simulation clock does not move. *)
Theorem zero_delta_zero_substeps (s : ActorManager) :
  (0 <= m_dt_remainder s)%Q -> (m_dt_remainder s < PHYSICS_DT)%Q ->
  m_physics_steps (update 0 s) = 0%Z /\
  (m_dt_remainder (update 0 s) == m_dt_remainder s)%Q /\
  (mrTime (update 0 s) == mrTime s)%Q.
Proof.
  intros H0 H1.
  assert (Ht : (frame_total 0 s == m_dt_remainder s)%Q).
  { unfold frame_total. vm_compute (std_min 0 (1 / 20)). ring. }
  destruct (update_steps_of_total 0 s _ H0 Ht) as (Hn & Hr & _).
  destruct (update_fields 0 s) as (_ & _ & Hclock & _).
  assert (Hz : Qfloor (m_dt_remainder s / PHYSICS_DT) = 0%Z).
  { set (q := (m_dt_remainder s / PHYSICS_DT)%Q).
    assert (Hq : (q == m_dt_remainder s * 2000)%Q) by apply div_PHYSICS_DT.
    pose proof (Qfloor_le q) as Hlo. pose proof (Qlt_floor q) as Hhi.
    unfold PHYSICS_DT in H1.
    assert (Hlt1 : (inject_Z (Qfloor q) < inject_Z 1)%Q)
      by (change (inject_Z 1) with 1%Q; lra).
    assert (Hgt : (inject_Z (-1) < inject_Z (Qfloor q))%Q).
    { rewrite inject_Z_plus in Hhi. change (inject_Z 1) with 1%Q in Hhi.
      change (inject_Z (-1)) with (-1 # 1)%Q. lra. }
    rewrite <- Zlt_Qlt in Hlt1. rewrite <- Zlt_Qlt in Hgt. lia. }
  rewrite Hz in Hn, Hr. split; [exact Hn|]. split.
  - rewrite Hr. change (inject_Z 0) with 0%Q. ring.
  - rewrite Hclock, Hn. change (inject_Z 0) with 0%Q. ring.
Qed.

(** X2, instance: a fresh manager. *)
Lemma zero_delta_zero_substeps_witness :
  m_physics_steps (update 0 ActorManager_new) = 0%Z.
Proof.
  apply (zero_delta_zero_substeps ActorManager_new).
  - unfold Qle. simpl. lia.
  - unfold Qlt. simpl. lia.
Defined.

(** * The frame scheduler in floating-point arithmetic *)






















(** * The physics step dispatcher *)

Section FlagsRel.

Implicit Types m : gmap nat Actor.

Lemma reflag_refl a : reflag a a.
Proof. exists (ar_update_physics a). by destruct a. Qed.

Lemma reflag_trans a b c : reflag a b -> reflag b c -> reflag a c.
Proof. intros [x ->] [y ->]. by exists y. Qed.

Lemma reflag_set b a : reflag a (set_ar_update_physics b a).
Proof. by exists b. Qed.

Lemma flags_rel_refl m : flags_rel m m.
Proof. intros t. destruct (m !! t); constructor. apply reflag_refl. Qed.

Lemma flags_rel_trans m1 m2 m3 :
  flags_rel m1 m2 -> flags_rel m2 m3 -> flags_rel m1 m3.
Proof.
  intros H1 H2 t. specialize (H1 t). specialize (H2 t).
  destruct H1 as [a b Hab|]; inversion H2; subst; constructor.
  eapply reflag_trans; eauto.
Qed.

Lemma flags_rel_insert m t a b :
  m !! t = Some a -> flags_rel m (<[t := set_ar_update_physics b a]> m).
Proof.
  intros Ht u. destruct (decide (t = u)) as [->|Hne].
  - rewrite lookup_insert_eq, Ht. constructor. apply reflag_set.
  - rewrite lookup_insert_ne by done. apply flags_rel_refl.
Qed.

Lemma flags_rel_lookup m m' t a' :
  flags_rel m m' -> m' !! t = Some a' -> exists a, m !! t = Some a /\ reflag a a'.
Proof.
  intros H Ht. specialize (H t). rewrite Ht in H. inversion H; subst. eauto.
Qed.

Lemma flags_rel_lookup_fwd m m' t a :
  flags_rel m m' -> m !! t = Some a -> exists a', m' !! t = Some a' /\ reflag a a'.
Proof.
  intros H Ht. specialize (H t). rewrite Ht in H. inversion H; subst. eauto.
Qed.

End FlagsRel.

(** A loop over tasks that commute with each other does not depend on the
    order of the tasks. *)
Lemma foldl_commute_permutation {A B : Type} (f : A -> B -> A) (l l' : list B) :
  l ≡ₚ l' -> NoDup l ->
  (forall x y a, x <> y -> f (f a x) y = f (f a y) x) ->
  forall a, foldl f a l = foldl f a l'.
Proof.
  intros Hperm Hnd Hcomm.
  induction Hperm as [|x l l' Hperm IH|x y l|l1 l2 l3 H12 IH12 H23 IH23]; intros a.
  - done.
  - apply NoDup_cons in Hnd as [_ Hnd]. simpl. by apply IH.
  - apply NoDup_cons in Hnd as [Hy _]. simpl. rewrite Hcomm; [done|].
    intros ->. apply Hy. left.
  - rewrite IH12 by done. apply IH23. by rewrite <- H12.
Qed.

Lemma NoDup_List_filter {A : Type} (f : A -> bool) (l : list A) :
  NoDup l -> NoDup (List.filter f l).
Proof.
  induction 1 as [|x l Hx Hnd IH]; simpl; [constructor|].
  destruct (f x); [|done]. constructor; [|done].
  intros H. apply Hx. apply list_elem_of_In in H.
  apply List.filter_In in H as [H _]. by apply list_elem_of_In.
Qed.

Section DispatcherFacts.

Context {W : Type}.
Variable K : Kernels W.

Lemma self_collision_flags m m' t w :
  flags_rel m m' -> self_collision K m' t w = self_collision K m t w.
Proof.
  intros H. unfold self_collision. specialize (H t).
  destruct H as [a a' [b ->]|]; done.
Qed.

Lemma local_to_id t : local_to K t (fun w => w).
Proof. split; done. Qed.

Lemma local_to_comp t G1 G2 :
  local_to K t G1 -> local_to K t G2 -> local_to K t (fun w => G1 (G2 w)).
Proof.
  intros [C1 P1] [C2 P2]. split.
  - intros o w Ho. by rewrite C2, C1.
  - intros t' d i n w Ht. by rewrite P1, P2.
Qed.

Section Substep.

Variables (actors0 : gmap nat Actor) (i : nat) (steps : Z).
Hypothesis Hind : independent_actors K actors0.

Lemma local_to_kernel o : local_to K (kernel_actor o) (run_kernel K o).
Proof.
  split.
  - intros o' w Ho. apply (ia_commute K actors0 Hind). congruence.
  - intros t' d j n w Ht. apply (ia_participation K actors0 Hind). congruence.
Qed.

Lemma local_to_self_collision t : local_to K t (self_collision K actors0 t).
Proof.
  unfold self_collision. destruct (actors0 !! t) as [a|]; [|apply local_to_id].
  destruct (negb _); [|apply local_to_id].
  apply (local_to_kernel (KIntra t)).
Qed.

Lemma local_to_fused t : local_to K t (fused_actor K actors0 i steps t).
Proof.
  unfold fused_actor.
  apply (local_to_comp t (self_collision K actors0 t)); [apply local_to_self_collision|].
  apply (local_to_comp t (calcForcesEulerFinal K t (i =? 0) i steps)
           (calcForcesEulerCompute K t (i =? 0) i steps)).
  - apply (local_to_kernel (KFinal t (i =? 0) i steps)).
  - apply (local_to_kernel (KCompute t (i =? 0) i steps)).
Qed.

Lemma self_collision_final t w :
  self_collision K actors0 t (calcForcesEulerFinal K t (i =? 0) i steps w)
  = calcForcesEulerFinal K t (i =? 0) i steps (self_collision K actors0 t w).
Proof.
  unfold self_collision. destruct (actors0 !! t) as [a|] eqn:Ha; [|done].
  destruct (ar_disable_self_collision a) eqn:Hd; [done|]. simpl.
  by apply (ia_self_collision K actors0 Hind t a).
Qed.

Lemma prepare_phase_local t G l : forall actors w,
  local_to K t G -> t ∉ l ->
  prepare_phase K i steps l actors (G w)
  = ((prepare_phase K i steps l actors w).1, G (prepare_phase K i steps l actors w).2).
Proof.
  induction l as [|u l IH]; intros actors w HG Hl; [done|].
  apply not_elem_of_cons in Hl as [Hne Hl]. simpl.
  destruct (actors !! u) as [a|]; [|by apply IH].
  destruct HG as [HC HP].
  rewrite (HP u _ _ _ w) by done.
  assert (E : (calcForcesEulerPrepare K u (i =? 0) i steps (G w)).2
              = G (calcForcesEulerPrepare K u (i =? 0) i steps w).2).
  { symmetry. apply (HC (KPrepare u (i =? 0) i steps) w). simpl. congruence. }
  rewrite E, IH by done.
  by destruct (prepare_phase K i steps l _ _) as [[a1 ts] w1].
Qed.

Lemma compute_phase_local t G ts : forall w,
  local_to K t G -> t ∉ ts ->
  compute_phase K actors0 i steps ts (G w) = G (compute_phase K actors0 i steps ts w).
Proof.
  unfold compute_phase.
  induction ts as [|u ts IH]; intros w HG Hts; [done|].
  apply not_elem_of_cons in Hts as [Hne Hts]. simpl.
  rewrite <- IH by done. f_equal.
  destruct HG as [HC _].
  assert (E : calcForcesEulerCompute K u (i =? 0) i steps (G w)
              = G (calcForcesEulerCompute K u (i =? 0) i steps w)).
  { symmetry. apply (HC (KCompute u (i =? 0) i steps) w). simpl. congruence. }
  rewrite E.
  unfold self_collision. destruct (actors0 !! u) as [a|]; [|done].
  destruct (negb _); [|done].
  symmetry. apply (HC (KIntra u)). simpl. congruence.
Qed.

Lemma prepare_phase_tasks l : forall actors w t,
  t ∈ (prepare_phase K i steps l actors w).1.2 -> t ∈ l.
Proof.
  induction l as [|u l IH]; intros actors w t; simpl.
  - intros H. by apply elem_of_nil in H.
  - destruct (actors !! u) as [a|].
    + specialize (IH (<[u := set_ar_update_physics
                              (calcForcesEulerPrepare K u (i =? 0) i steps w).1 a]> actors)
                     (calcForcesEulerPrepare K u (i =? 0) i steps w).2 t).
      destruct (prepare_phase K i steps l _ _) as [[a1 ts] w1]. simpl in *.
      destruct (calcForcesEulerPrepare K u (i =? 0) i steps w).1.
      * intros [->|H]%elem_of_cons; [left|right; auto].
      * intros H. right. auto.
    + intros H. right. eauto.
Qed.

Lemma prepare_phase_lookup l : forall actors w t,
  t ∉ l -> (prepare_phase K i steps l actors w).1.1 !! t = actors !! t.
Proof.
  induction l as [|u l IH]; intros actors w t Ht; [done|].
  apply not_elem_of_cons in Ht as [Hne Ht]. simpl.
  destruct (actors !! u) as [a|]; [|by apply IH].
  specialize (IH (<[u := set_ar_update_physics
                            (calcForcesEulerPrepare K u (i =? 0) i steps w).1 a]> actors)
                   (calcForcesEulerPrepare K u (i =? 0) i steps w).2 t Ht).
  destruct (prepare_phase K i steps l _ _) as [[a1 ts] w1]. simpl in *.
  rewrite IH. by rewrite lookup_insert_ne.
Qed.

Lemma prepare_phase_flags l : forall actors w,
  flags_rel actors (prepare_phase K i steps l actors w).1.1.
Proof.
  induction l as [|u l IH]; intros actors w; [apply flags_rel_refl|]. simpl.
  destruct (actors !! u) as [a|] eqn:Hu; [|by apply IH].
  specialize (IH (<[u := set_ar_update_physics
                            (calcForcesEulerPrepare K u (i =? 0) i steps w).1 a]> actors)
                   (calcForcesEulerPrepare K u (i =? 0) i steps w).2).
  destruct (prepare_phase K i steps l _ _) as [[a1 ts] w1]. simpl in *.
  eapply flags_rel_trans; [|exact IH]. by apply flags_rel_insert.
Qed.

(** One fused pass equals the three separate passes. *)
Lemma fused_phase_split l : forall actors w,
  NoDup l ->
  fused_phase K actors0 i steps l actors w
  = ((prepare_phase K i steps l actors w).1,
     final_phase K i steps (prepare_phase K i steps l actors w).1.2
       (compute_phase K actors0 i steps (prepare_phase K i steps l actors w).1.2
          (prepare_phase K i steps l actors w).2)).
Proof.
  induction l as [|t l IH]; intros actors w Hnd; [done|].
  apply NoDup_cons in Hnd as [Ht Hnd]. simpl.
  destruct (actors !! t) as [a|]; [|by apply IH].
  set (r := calcForcesEulerPrepare K t (i =? 0) i steps w).
  set (actors1 := <[t := set_ar_update_physics r.1 a]> actors).
  destruct (r.1) eqn:Hb.
  - rewrite IH by done.
    rewrite (prepare_phase_local t _ l actors1 r.2 (local_to_fused t) Ht).
    pose proof (prepare_phase_tasks l actors1 r.2 t) as Hsub.
    destruct (prepare_phase K i steps l actors1 r.2) as [[a1 ts] w1].
    simpl in *.
    assert (Hts : t ∉ ts) by (intros H; apply Ht, Hsub, H).
    f_equal. f_equal. unfold fused_actor.
    rewrite (compute_phase_local t
               (fun x => self_collision K actors0 t
                           (calcForcesEulerFinal K t (i =? 0) i steps x)) ts).
    + rewrite self_collision_final. f_equal.
      symmetry. apply (compute_phase_local t (self_collision K actors0 t) ts);
        [apply local_to_self_collision|done].
    + apply (local_to_comp t (self_collision K actors0 t));
        [apply local_to_self_collision|].
      apply (local_to_kernel (KFinal t (i =? 0) i steps)).
    + done.
  - rewrite IH by done.
    by destruct (prepare_phase K i steps l actors1 r.2) as [[a1 ts] w1].
Qed.

End Substep.

Section Loops.

Variables (i : nat) (steps : Z).

Lemma parallel_prepare_loop l : forall actors num tasks w,
  foldl (fun st t => parallel_prepare_body K i steps t st) (actors, num, tasks, w) l
  = ((prepare_phase K i steps l actors w).1.1,
     num + length (prepare_phase K i steps l actors w).1.2,
     tasks ++ (prepare_phase K i steps l actors w).1.2,
     (prepare_phase K i steps l actors w).2).
Proof.
  induction l as [|t l IH]; intros actors num tasks w; simpl.
  - by rewrite Nat.add_0_r, app_nil_r.
  - destruct (actors !! t) as [a|]; [|by apply IH].
    destruct (calcForcesEulerPrepare K t (i =? 0) i steps w) as [b w1] eqn:Hr.
    simpl. destruct b; rewrite IH;
      destruct (prepare_phase K i steps l _ w1) as [[a1 ts] w2]; simpl.
    + rewrite <- app_assoc. simpl. do 3 f_equal. lia.
    + done.
Qed.

Lemma serial_loop actors0 l : forall actors num w,
  flags_rel actors0 actors ->
  foldl (fun st t => serial_body K i steps t st) (actors, num, w) l
  = ((fused_phase K actors0 i steps l actors w).1.1,
     num + length (fused_phase K actors0 i steps l actors w).1.2,
     (fused_phase K actors0 i steps l actors w).2).
Proof.
  induction l as [|t l IH]; intros actors num w Hfl; simpl.
  - by rewrite Nat.add_0_r.
  - destruct (actors !! t) as [a|] eqn:Ha; [|by apply IH].
    destruct (calcForcesEulerPrepare K t (i =? 0) i steps w) as [b w1] eqn:Hr.
    simpl.
    assert (Hfl1 : flags_rel actors0 (<[t := set_ar_update_physics b a]> actors)).
    { eapply flags_rel_trans; [exact Hfl|]. by apply flags_rel_insert. }
    destruct b; rewrite IH by done.
    + unfold fused_actor at 1 2 3. rewrite (self_collision_flags _ _ _ _ Hfl1).
      destruct (fused_phase K actors0 i steps l _ _) as [[a1 ts] w2]; simpl.
      do 2 f_equal. lia.
    + by destruct (fused_phase K actors0 i steps l _ w1) as [[a1 ts] w2].
Qed.

Lemma final_loop l : forall actors w x,
  NoDup l ->
  foldl (final_body K (prepare_phase K i steps l actors w).1.1 i steps) x l
  = final_phase K i steps (prepare_phase K i steps l actors w).1.2 x.
Proof.
  induction l as [|t l IH]; intros actors w x Hnd; [done|].
  apply NoDup_cons in Hnd as [Ht Hnd].
  pose proof (prepare_phase_lookup i steps (t :: l)) as Hlk. simpl in *.
  destruct (actors !! t) as [a|] eqn:Ha.
  - set (r := calcForcesEulerPrepare K t (i =? 0) i steps w).
    set (actors1 := <[t := set_ar_update_physics r.1 a]> actors).
    pose proof (prepare_phase_lookup i steps l actors1 r.2 t Ht) as Ht1.
    specialize (IH actors1 r.2).
    destruct (prepare_phase K i steps l actors1 r.2) as [[a1 ts] w1] eqn:Hp.
    simpl in *. unfold final_body at 2. rewrite Ht1. unfold actors1.
    rewrite lookup_insert_eq. simpl.
    destruct (r.1); simpl; by rewrite IH.
  - pose proof (prepare_phase_lookup i steps l actors w t Ht) as Ht1.
    unfold final_body at 2. rewrite Ht1, Ha. by apply IH.
Qed.

(** The tasks of a batch are tasks of different actors. *)
Lemma prepare_phase_NoDup l : forall actors w,
  NoDup l -> NoDup (prepare_phase K i steps l actors w).1.2.
Proof.
  induction l as [|u l IH]; intros actors w Hnd; [constructor|].
  apply NoDup_cons in Hnd as [Hu Hnd]. simpl.
  destruct (actors !! u) as [a|]; [|by apply IH].
  set (r := calcForcesEulerPrepare K u (i =? 0) i steps w).
  pose proof (prepare_phase_tasks i steps l
                (<[u := set_ar_update_physics r.1 a]> actors) r.2 u) as Hsub.
  specialize (IH (<[u := set_ar_update_physics r.1 a]> actors) r.2 Hnd).
  destruct (prepare_phase K i steps l _ _) as [[a1 ts] w1]. simpl in *.
  destruct (r.1); [|done]. apply NoDup_cons. split; [|done].
  intros H. by apply Hu, Hsub.
Qed.

(** Whatever order the pool runs the compute tasks in, the batch has the
    effect of running them in slot order. *)
Lemma compute_batch order actors0 actors ts w :
  independent_actors K actors0 -> flags_rel actors0 actors ->
  NoDup ts -> order ts ≡ₚ ts ->
  Parallelize order (compute_task K actors i steps) ts w
  = compute_phase K actors0 i steps ts w.
Proof.
  intros Hind Hfl Hnd Hperm. unfold Parallelize, compute_phase, compute_task.
  rewrite (foldl_commute_permutation _ (order ts) ts Hperm).
  - clear Hperm Hnd. revert w. induction ts as [|t ts IH]; intros w; [done|].
    simpl. rewrite (self_collision_flags _ _ _ _ Hfl). apply IH.
  - by rewrite Hperm.
  - intros x y a Hxy. rewrite !(self_collision_flags _ _ _ _ Hfl).
    pose proof (local_to_comp x (self_collision K actors0 x)
                  (calcForcesEulerCompute K x (i =? 0) i steps)
                  (local_to_self_collision actors0 Hind x)
                  (local_to_kernel actors0 Hind (KCompute x (i =? 0) i steps)))
      as [HC _].
    set (G := fun w => self_collision K actors0 x
                        (calcForcesEulerCompute K x (i =? 0) i steps w)) in *.
    assert (Hy : forall w, G (calcForcesEulerCompute K y (i =? 0) i steps w)
                           = calcForcesEulerCompute K y (i =? 0) i steps (G w)).
    { intros w'. apply (HC (KCompute y (i =? 0) i steps) w'). simpl. congruence. }
    assert (Hsc : forall w, G (self_collision K actors0 y w)
                            = self_collision K actors0 y (G w)).
    { intros w'. unfold self_collision at 1 2.
      destruct (actors0 !! y) as [ay|]; [|done].
      destruct (negb _); [|done].
      apply (HC (KIntra y)). simpl. congruence. }
    change (self_collision K actors0 y
              (calcForcesEulerCompute K y (i =? 0) i steps (G a))
            = G (self_collision K actors0 y
                   (calcForcesEulerCompute K y (i =? 0) i steps a))).
    by rewrite Hsc, Hy.
Qed.

(** Whatever order the pool runs the inter-actor collision tasks in, the
    batch has the effect of the loop of the serial mode. *)
Lemma inter_batch order actors0 actors n w :
  independent_actors K actors0 ->
  order (inter_tasks actors n) ≡ₚ inter_tasks actors n ->
  Parallelize order (inter_task K) (inter_tasks actors n) w
  = foldl (serial_inter_body K actors) w (seq 0 n).
Proof.
  intros Hind Hperm. unfold Parallelize.
  rewrite (foldl_commute_permutation _ _ _ Hperm).
  - unfold inter_tasks. generalize (seq 0 n) as l. intros l.
    revert w. induction l as [|t l IH]; intros w; [done|]. simpl.
    unfold serial_inter_body at 2.
    destruct (actors !! t) as [a|]; [|by apply IH].
    destruct (ar_update_physics a && negb (ar_disable_actor2actor_collision a));
      simpl; by apply IH.
  - rewrite Hperm. unfold inter_tasks. apply NoDup_List_filter, NoDup_seq.
  - intros x y a Hxy. apply (ia_inter K actors0 Hind). congruence.
Qed.

Lemma substep_equivalent pool actors0 n actors w :
  runs_every_task pool ->
  independent_actors K actors0 -> flags_rel actors0 actors ->
  serial_substep K n steps (actors, w) i
  = parallel_substep K pool n steps (actors, w) i
  /\ flags_rel actors0 (serial_substep K n steps (actors, w) i).1.
Proof.
  intros Hpool Hind Hfl. unfold serial_substep, parallel_substep.
  rewrite parallel_prepare_loop, (serial_loop actors0) by done.
  rewrite (fused_phase_split actors0 i steps Hind) by apply NoDup_seq.
  pose proof (prepare_phase_flags i steps (seq 0 n) actors w) as Hfl1.
  pose proof (final_loop (seq 0 n) actors w) as Hfin.
  pose proof (prepare_phase_NoDup (seq 0 n) actors w (NoDup_seq 0 n)) as Hnd.
  destruct (prepare_phase K i steps (seq 0 n) actors w) as [[a1 ts] w1].
  simpl in *.
  assert (Hfl2 : flags_rel actors0 a1) by (eapply flags_rel_trans; eauto).
  rewrite (compute_batch (pool i false) actors0 a1 ts w1 Hind Hfl2 Hnd (Hpool _ _ _)).
  rewrite Hfin by apply NoDup_seq.
  rewrite (inter_batch (pool i true) actors0 a1 n _ Hind (Hpool _ _ _)).
  destruct (1 <? length ts); done.
Qed.

End Loops.

(** Both modes agree on every run of substeps. *)
Lemma substeps_equivalent pool actors0 n steps l : forall actors w,
  runs_every_task pool ->
  independent_actors K actors0 -> flags_rel actors0 actors ->
  foldl (serial_substep K n steps) (actors, w) l
  = foldl (parallel_substep K pool n steps) (actors, w) l.
Proof.
  induction l as [|i l IH]; intros actors w Hpool Hind Hfl; [done|]. cbn [foldl].
  destruct (substep_equivalent i steps pool actors0 n actors w Hpool Hind Hfl)
    as [E Hfl1].
  rewrite <- E.
  destruct (serial_substep K n steps (actors, w) i) as [a1 w1].
  by apply IH.
Qed.

End DispatcherFacts.

(** C1, amended: running [UpdatePhysicsSimulation] without a worker pool
    and running it with a pool, whatever order the pool runs the tasks of
    a batch in, give the same actor table and physics state whenever the
    kernels of different actors do not interfere with each other (the
    force kernels of different actors commute and do not change each
    other's participation, the inter-actor collision tasks of different
    actors commute) and, for the actors with self-collision enabled,
    self-collision commutes with finalization. *)
Theorem serial_parallel_equivalent {W : Type} (K : Kernels W)
    (pool : ThreadPool) (s : ActorManager) (w : W) :
  runs_every_task pool ->
  independent_actors K (m_actors s) ->
  UpdatePhysicsSimulation K None s w = UpdatePhysicsSimulation K (Some pool) s w.
Proof.
  intros Hpool Hind. unfold UpdatePhysicsSimulation.
  rewrite (substeps_equivalent K pool (m_actors s));
    [done|done|done|apply flags_rel_refl].
Qed.

Lemma on_body_commute t1 t2 f g w :
  t1 <> t2 -> on_body t1 f (on_body t2 g w) = on_body t2 g (on_body t1 f w).
Proof.
  intros Hne. destruct w as [x y].
  destruct t1 as [|[|t1]], t2 as [|[|t2]]; simpl; congruence.
Qed.

Lemma exchange_kernels_body o :
  exists f, forall w, run_kernel exchange_kernels o w = on_body (kernel_actor o) f w.
Proof. destruct o; simpl; eexists; intros w; reflexivity. Qed.

Lemma exchange_kernels_independent actors :
  independent_actors exchange_kernels actors.
Proof.
  split.
  - intros o1 o2 w Hne.
    destruct (exchange_kernels_body o1) as [f1 E1].
    destruct (exchange_kernels_body o2) as [f2 E2].
    rewrite !E1, !E2. by apply on_body_commute.
  - done.
  - intros t a d i n [x y] _ _.
    destruct t as [|[|t]]; cbn; f_equal; lia.
  - intros t1 t2 [x y] Hne. unfold inter_task.
    destruct t1 as [|[|t1]], t2 as [|[|t2]]; cbn; try done; f_equal; lia.
Qed.

Lemma reversed_order_runs_every_task : runs_every_task reversed_order.
Proof. intros i inter tasks. symmetry. apply Permutation_rev. Qed.

(** C1, instance: two actors with self-collision and inter-actor collision
    enabled over the kernels that exchange momentum, three substeps, a
    pool that runs every batch last task first. *)
Lemma serial_parallel_equivalent_witness :
  UpdatePhysicsSimulation exchange_kernels None (two_colliding_frames 3) (1, 1)%Z
  = UpdatePhysicsSimulation exchange_kernels (Some reversed_order)
      (two_colliding_frames 3) (1, 1)%Z.
Proof.
  apply (serial_parallel_equivalent exchange_kernels reversed_order
           (two_colliding_frames 3) (1, 1)%Z).
  - apply reversed_order_runs_every_task.
  - apply exchange_kernels_independent.
Defined.

(** C1, counterexample.  With kernels that record their invocations the
    two modes run one actor with self-collision in different orders
    (finalize before self-collision without a pool, after it with one),
    and without a pool the substep of two actors is one fused pass: actor
    0 is finalized before actor 1 is computed.  With the bouncing body the
    final velocities differ.  With the two scalar bodies, whose
    inter-actor collisions do not commute, the result with a pool depends
    on the order the pool runs the batch in, and only the order of
    submission gives the result of the serial mode. *)
Lemma serial_differs_from_parallel :
  (UpdatePhysicsSimulation logging_kernels None one_actor_frame []).2
    = [EvPreUpdate 0; EvPrepare 0 0; EvCompute 0 0; EvFinal 0 0;
       EvIntraCollisions 0; EvPostUpdate 0]
  /\ (UpdatePhysicsSimulation logging_kernels (Some submission_order)
        one_actor_frame []).2
    = [EvPreUpdate 0; EvPrepare 0 0; EvCompute 0 0; EvIntraCollisions 0;
       EvFinal 0 0; EvPostUpdate 0]
  /\ (UpdatePhysicsSimulation logging_kernels None two_actor_frame []).2
    = [EvPreUpdate 0; EvPreUpdate 1;
       EvPrepare 0 0; EvCompute 0 0; EvFinal 0 0;
       EvPrepare 1 0; EvCompute 1 0; EvFinal 1 0;
       EvPostUpdate 0; EvPostUpdate 1]
  /\ (UpdatePhysicsSimulation logging_kernels (Some submission_order)
        two_actor_frame []).2
    = [EvPreUpdate 0; EvPreUpdate 1;
       EvPrepare 0 0; EvPrepare 1 0; EvCompute 0 0; EvCompute 1 0;
       EvFinal 0 0; EvFinal 1 0;
       EvPostUpdate 0; EvPostUpdate 1]
  /\ (UpdatePhysicsSimulation bouncing_kernels None one_actor_frame (1, -2)%Z).2
    = (-1, 2)%Z
  /\ (UpdatePhysicsSimulation bouncing_kernels (Some submission_order)
        one_actor_frame (1, -2)%Z).2
    = (-1, -2)%Z
  /\ (UpdatePhysicsSimulation scalar_kernels None (two_actor_frames 1) (1, 1)%Z).2
    = (UpdatePhysicsSimulation scalar_kernels (Some submission_order)
         (two_actor_frames 1) (1, 1)%Z).2
  /\ (UpdatePhysicsSimulation scalar_kernels (Some reversed_order)
        (two_actor_frames 1) (1, 1)%Z).2
    <> (UpdatePhysicsSimulation scalar_kernels None (two_actor_frames 1) (1, 1)%Z).2.
Proof. repeat split; vm_compute; try reflexivity. discriminate. Qed.

(** * The claims on concrete inputs *)


(** C2, counterexample.  A negative delta: the substeps are the quotient
    truncated toward zero, -1, not its floor, -2.  A carried remainder of
    [0.000125f] and a delta of 3/64 s: the float sum is below 0.047 and
    the call takes 93 substeps, where the floor of the exact total over
    0.0005 is 94.  A delta of [0.05f] on a fresh manager: 100 substeps,
    and the clock advances by [0.05f], which is neither 100 times 0.0005
    nor 100 times the float nearest to it.  A simulation speed of 10^8:
    the quotient, 10^10, does not fit an [int], the call is undefined. *)
Lemma update_rounds_and_truncates :
  (m_physics_steps <$> update_binary32 false (-3 # 4096) ActorManager_new)
  = Some (-1)%Z
  /\ (m_physics_steps <$> update_binary32 true (-3 # 4096) ActorManager_new)
     = Some (-1)%Z
  /\ Qfloor (frame_total (-3 # 4096) ActorManager_new / PHYSICS_DT) = (-2)%Z
  /\ (m_physics_steps <$> update_binary32 false (3 # 64) carried_remainder_manager)
     = Some 93%Z
  /\ (m_physics_steps <$> update_binary32 true (3 # 64) carried_remainder_manager)
     = Some 93%Z
  /\ Qfloor (frame_total (3 # 64) carried_remainder_manager / PHYSICS_DT) = 94%Z
  /\ (m_physics_steps <$> update_binary32 false (fdiv 1 20) ActorManager_new)
     = Some 100%Z
  /\ (mrTime <$> update_binary32 false (fdiv 1 20) ActorManager_new)
     = Some (13421773 # 268435456)%Q
  /\ (mrTime <$> update_binary32 true (fdiv 1 20) ActorManager_new)
     = Some (13421773 # 268435456)%Q
  /\ ~ (13421773 # 268435456 == 100 * PHYSICS_DT)%Q
  /\ ~ (13421773 # 268435456 == 100 * PHYSICS_DT_of false)%Q
  /\ update_binary32 false (fdiv 1 20) fast_forward_manager = None
  /\ update_binary32 true (fdiv 1 20) fast_forward_manager = None
  /\ Qfloor (frame_total (fdiv 1 20) fast_forward_manager / PHYSICS_DT)
     = 10000000000%Z.
Proof. repeat split; vm_compute; try reflexivity; discriminate. Qed.

(** C3, counterexample.  A lone actor rests for 120 frames of [0.05f] s,
    moves fast for one frame and rests again: after the 120 frames the
    timer is 6 + 5/2^20 (the float sums are not exact), the fast frame
    leaves it there, and the actor sleeps after 80 more frames at rest
    (still simulated one frame earlier), where the rule of the claim has
    restarted the timer and keeps the actor simulated with a timer just
    below 4. *)
Lemma sleep_timer_pauses :
  (timer_of (run_frames 120 frame_time lone_actor_manager) 0
   == 6291461 # 1048576)%Q
  /\ (timer_of (UpdateSleepingState frame_time
                  (set_speed 0 5 (run_frames 120 frame_time lone_actor_manager))) 0
      == 6291461 # 1048576)%Q
  /\ state_of (run_frames 79 frame_time
                 (set_speed 0 0
                    (UpdateSleepingState frame_time
                       (set_speed 0 5
                          (run_frames 120 frame_time lone_actor_manager))))) 0
     = Some LOCAL_SIMULATED
  /\ state_of interrupted_rest 0 = Some LOCAL_SLEEPING
  /\ (timer_of interrupted_rest 0 == 10485781 # 1048576)%Q
  /\ ar_sim_state interrupted_rest_as_claimed = LOCAL_SIMULATED
  /\ (ar_sleep_counter interrupted_rest_as_claimed == 16777205 # 4194304)%Q.
Proof. repeat split; vm_compute; reflexivity. Qed.

(** C3, instance: the first frame at rest of a lone actor. *)
Lemma sleep_accumulator_witness :
  exists a',
    m_actors (UpdateSleepingState frame_time lone_actor_manager) !! 0 = Some a' /\
    (ar_sleep_counter a' == 13421773 # 268435456)%Q /\
    ar_sim_state a' = LOCAL_SIMULATED.
Proof.
  destruct (sleep_accumulator frame_time lone_actor_manager 0 lone_actor)
    as (a' & Ha' & _ & _ & Hslow).
  - reflexivity.
  - simpl. lia.
  - reflexivity.
  - reflexivity.
  - simpl. lia.
  - intros j aj Hne Hj. simpl in Hj.
    rewrite lookup_singleton_ne in Hj by done. discriminate.
  - exists a'. split; [exact Ha'|].
    destruct Hslow as (Ht & _ & Hsim & _).
    + vm_compute. discriminate.
    + vm_compute. reflexivity.
    + split.
      * rewrite Ht. vm_compute. reflexivity.
      * apply Hsim. vm_compute. reflexivity.
Defined.

(** C4, instance: the chain A, B, C, where C does not overlap A. *)
Lemma reachability_wake_propagation_witness :
  m_actors (UpdateSleepingState (1 # 20) chain_manager) !! 1 = Some (wake actor_B)
  /\ m_actors (UpdateSleepingState (1 # 20) chain_manager) !! 2 = Some (wake actor_C)
  /\ predictTruckIntersectionCollAABB actor_C actor_A 1 = false.
Proof.
  split; [|split; [|reflexivity]];
    apply (proj2 (reachability_wake_propagation (1 # 20) chain_manager)
             0 1 2 actor_A actor_B actor_C);
    try reflexivity; simpl; lia.
Defined.

(** C7, instance: a sleeping actor overlapped by a networked actor only
    stays asleep, and the networked actor is no wake source. *)
Lemma networked_actors_do_not_chain_witness :
  (0 ∉ wake_sources (1 # 20) networked_manager)
  /\ m_actors (UpdateSleepingState (1 # 20) networked_manager) !! 0 = Some actor_N
  /\ predictTruckIntersectionCollAABB actor_B actor_N 1 = true
  /\ state_of (UpdateSleepingState (1 # 20) networked_manager) 1 = Some LOCAL_SLEEPING.
Proof.
  destruct (proj1 (proj2 (networked_actors_do_not_chain (1 # 20) networked_manager))
              0 actor_N) as [H1 H2]; [reflexivity|reflexivity|].
  split; [exact H1|]. split; [exact H2|]. split; [reflexivity|].
  vm_compute. reflexivity.
Defined.

(** C5, counterexample: slot 0 of a registry of capacity 3 is free again,
    the mark is at 3, [GetFreeTruckSlot] fails and the spawn of a valid
    actor returns the null pointer. *)
Lemma free_slot_below_mark_not_reused :
  m_actors full_then_deleted !! 0 = None
  /\ m_free_actor_slot full_then_deleted = 3
  /\ (GetFreeTruckSlot 3 full_then_deleted).1 = (-1)%Z
  /\ ar_sim_state actor_A = LOCAL_SIMULATED
  /\ CreateLocalRigInstance 3 actor_A full_then_deleted = (None, full_then_deleted).
Proof. repeat split; vm_compute; reflexivity. Qed.



(** C9, instance: a failed first spawn on a fresh manager of capacity 3. *)
Lemma failed_spawn_consumes_slot_witness :
  (CreateLocalRigInstance 3 invalid_actor ActorManager_new).1 = None
  /\ m_actors (CreateLocalRigInstance 3 invalid_actor ActorManager_new).2 = ∅
  /\ m_free_actor_slot (CreateLocalRigInstance 3 invalid_actor ActorManager_new).2 = 1.
Proof.
  destruct (failed_spawn_consumes_slot 3 ActorManager_new invalid_actor 0)
    as (Hnull & _ & _ & Hsame & Hmark & _); [reflexivity|reflexivity|].
  split; [exact Hnull|]. split; [|exact Hmark].
  apply Hsame. simpl. lia.
Defined.

(** * The overlap oracle *)

Lemma intersects_sym a b : intersects a b = intersects b a.
Proof.
  unfold intersects.
  repeat match goal with |- context [Qlt_bool ?x ?y] => destruct (Qlt_bool x y) end;
    reflexivity.
Qed.

Lemma intersectionAABB_sym a b sc : intersectionAABB a b sc = intersectionAABB b a sc.
Proof. unfold intersectionAABB. destruct (negb _); apply intersects_sym. Qed.

Lemma existsb_swap {A B} (f : A -> B -> bool) (la : list A) (lb : list B) :
  existsb (fun a => existsb (f a) lb) la = existsb (fun b => existsb (fun a => f a b) la) lb.
Proof.
  induction la as [|a la IH]; cbn [existsb].
  - induction lb as [|b lb IHb]; cbn [existsb]; [done | by rewrite <- IHb].
  - rewrite IH. clear IH. induction lb as [|b lb IHb]; cbn [existsb]; [done|].
    rewrite <- IHb. destruct (f a b), (existsb (f a) lb), (existsb (fun a0 => f a0 b) la);
      reflexivity.
Qed.

Lemma existsb_pointwise {A} (f g : A -> bool) (l : list A) :
  (forall a, f a = g a) -> existsb f l = existsb g l.
Proof. intros Hfg. induction l as [|a l IH]; cbn [existsb]; [done|]. by rewrite Hfg, IH. Qed.

Lemma coll_overlap_sym (la lb : list AxisAlignedBox) (ba bb : AxisAlignedBox) sc :
  (if is_empty la && is_empty lb then intersectionAABB ba bb sc
   else if is_empty la then existsb (fun it => intersectionAABB it ba sc) lb
   else if is_empty lb then existsb (fun it => intersectionAABB it bb sc) la
   else existsb (fun it_a => existsb (fun it_b => intersectionAABB it_a it_b sc) lb) la)
  = (if is_empty lb && is_empty la then intersectionAABB bb ba sc
     else if is_empty lb then existsb (fun it => intersectionAABB it bb sc) la
     else if is_empty la then existsb (fun it => intersectionAABB it ba sc) lb
     else existsb (fun it_b => existsb (fun it_a => intersectionAABB it_b it_a sc) la) lb).
Proof.
  destruct (is_empty la) eqn:Ha, (is_empty lb) eqn:Hb; cbn [andb]; try reflexivity.
  - apply intersectionAABB_sym.
  - rewrite existsb_swap. apply existsb_pointwise. intros b. apply existsb_pointwise. intros a.
    apply intersectionAABB_sym.
Qed.

(** X3: the overlap tests of wake propagation are symmetric in the two
    actors, for the bounding boxes and for the predicted ones, at every
    scale. *)
Theorem overlap_oracle_symmetric (a b : Actor) (scale : Q) :
  truckIntersectionCollAABB a b scale = truckIntersectionCollAABB b a scale /\
  predictTruckIntersectionCollAABB a b scale = predictTruckIntersectionCollAABB b a scale.
Proof.
  split.
  - unfold truckIntersectionCollAABB, truckIntersectionAABB. apply coll_overlap_sym.
  - unfold predictTruckIntersectionCollAABB, predictTruckIntersectionAABB.
    apply coll_overlap_sym.
Qed.

(** * Frame of a pass of the state machine *)

Lemma sleep_wake_step_refl a : sleep_wake_step a a.
Proof. split; [apply same_body_refl|tauto]. Qed.

Lemma sleep_wake_step_trans a b c :
  sleep_wake_step a b -> sleep_wake_step b c -> sleep_wake_step a c.
Proof.
  intros (H1 & H2 & H3) (H4 & H5 & H6). split; [by eapply same_body_trans|].
  split; [tauto|]. intros Hn. pose proof (H3 Hn) as E. subst b. by apply H6.
Qed.

Lemma is_local_wake a : is_local (wake a).
Proof. by left. Qed.

Lemma actor_step_local a a' : actor_step a a' -> is_local a -> is_local a'.
Proof. intros [->|[_ ->]] Hl; [done|apply is_local_wake]. Qed.

Lemma pre_wake_local dt s t a : is_local a -> is_local (pre_wake_actor dt s t a).
Proof.
  intros Hl. unfold pre_wake_actor.
  set (a1 := if negb (m_forced_active s) && (t <? m_free_actor_slot s)
             then sleep_step dt a else a).
  assert (Hl1 : is_local a1).
  { unfold a1. destruct (_ && _); [by apply sleep_step_local|done]. }
  clearbody a1.
  set (a2 := if player_slot s t && bool_decide (ar_sim_state a1 = LOCAL_SLEEPING)
             then set_ar_sim_state LOCAL_SIMULATED a1 else a1).
  assert (Hl2 : is_local a2).
  { unfold a2. destruct (_ && _); [by left|done]. }
  clearbody a2. destruct (_ && _); [|done]. exact Hl2.
Qed.

Lemma pre_wake_nonlocal dt s t a : ~ is_local a -> pre_wake_actor dt s t a = a.
Proof.
  intros Hn. apply pre_wake_not_simulated; intros H; apply Hn; [by left|by right].
Qed.

Lemma pre_wake_above_mark dt s t a :
  m_free_actor_slot s <= t -> pre_wake_actor dt s t a = a.
Proof.
  intros Ht. unfold pre_wake_actor.
  assert (Hp : player_slot s t = false).
  { destruct (player_slot s t) eqn:Hp; [|done].
    apply player_slot_true in Hp. lia. }
  rewrite Hp. cbn [andb].
  assert (Hlt : (t <? m_free_actor_slot s) = false) by (apply Nat.ltb_ge; lia).
  rewrite Hlt. by rewrite andb_false_r.
Qed.

Lemma pass_sleep_wake dt s t a :
  m_actors s !! t = Some a ->
  exists a', m_actors (UpdateSleepingState dt s) !! t = Some a' /\ sleep_wake_step a a'.
Proof.
  intros Ha. destruct (pass_lookup_fwd dt s t a Ha) as (a' & Ha' & Hst).
  exists a'. split; [done|]. split; [by eapply pass_same_body|]. split.
  - intros Hl. eapply actor_step_local; [done|]. by apply pre_wake_local.
  - intros Hn. rewrite (pre_wake_nonlocal dt s t a Hn) in Hst.
    by apply actor_step_nonlocal.
Qed.

Lemma pass_sleep_wake_lookup dt s t :
  option_Forall2 sleep_wake_step
    (m_actors s !! t) (m_actors (UpdateSleepingState dt s) !! t).
Proof.
  destruct (m_actors s !! t) as [a|] eqn:Ha.
  - destruct (pass_sleep_wake dt s t a Ha) as (a' & -> & Hst). by constructor.
  - destruct (m_actors (UpdateSleepingState dt s) !! t) as [a'|] eqn:Ha'.
    + destruct (pass_lookup dt s t a' Ha') as (a & Ha0 & _). congruence.
    + constructor.
Qed.

(** X5: a pass of [UpdateSleepingState] only rewrites the actor table, leaves
    the slots at or above the high-water mark alone, and changes nothing
    but the sleep state and the sleep timer of local actors: slots stay
    occupied or empty, local actors stay local, networked and invalid
    actors are untouched. *)
Theorem UpdateSleepingState_frame (dt : Q) (s : ActorManager) :
  UpdateSleepingState dt s = set_m_actors (m_actors (UpdateSleepingState dt s)) s /\
  (forall t, m_free_actor_slot s <= t ->
     m_actors (UpdateSleepingState dt s) !! t = m_actors s !! t) /\
  (forall t, option_Forall2 sleep_wake_step
               (m_actors s !! t) (m_actors (UpdateSleepingState dt s) !! t)).
Proof.
  split; [apply UpdateSleepingState_fields|]. split.
  - intros t Ht. destruct (m_actors s !! t) as [a|] eqn:Ha.
    + destruct (pass_lookup_fwd dt s t a Ha) as (a' & Ha' & _).
      destruct (pass_spec dt s) as (_ & Hpost & _).
      assert (Hb : before_wake dt s !! t = Some a).
      { rewrite before_wake_lookup, Ha. cbn. by rewrite pre_wake_above_mark. }
      destruct (wp_changed _ _ _ Hpost t a a' Hb Ha') as [E|[Hlt _]];
        [by rewrite Ha', E|lia].
    + destruct (m_actors (UpdateSleepingState dt s) !! t) as [a'|] eqn:Ha'; [|done].
      destruct (pass_lookup dt s t a' Ha') as (a & Ha0 & _). congruence.
  - intros t. apply pass_sleep_wake_lookup.
Qed.

Lemma pre_wake_player dt s t a :
  player_slot s t = true -> is_local a ->
  ar_sim_state (pre_wake_actor dt s t a) = LOCAL_SIMULATED /\
  ar_sleep_counter (pre_wake_actor dt s t a) = 0%Q.
Proof.
  intros Hp Hl. split; [by apply pre_wake_player_simulated|].
  pose proof (pre_wake_player_simulated dt s t a Hp Hl) as Hs.
  revert Hs. unfold pre_wake_actor. rewrite Hp. cbn [andb].
  destruct (bool_decide (ar_sim_state _ = LOCAL_SIMULATED)) eqn:Hd; [done|].
  intros Hs. apply bool_decide_eq_false in Hd. done.
Qed.

(** X6: the local actor the player controls is awake after every pass of
    [UpdateSleepingState], whatever the elapsed time: its state is
    [LOCAL_SIMULATED] and its sleep timer is zero, and it was visited as a
    wake source. *)
Theorem player_actor_stays_awake (dt : Q) (s : ActorManager) (t : nat) (a : Actor) :
  player_slot s t = true -> m_actors s !! t = Some a -> is_local a ->
  exists a', m_actors (UpdateSleepingState dt s) !! t = Some a' /\
             ar_sim_state a' = LOCAL_SIMULATED /\ ar_sleep_counter a' = 0%Q /\
             t ∈ wake_sources dt s.
Proof.
  intros Hp Ha Hl. destruct (pass_lookup_fwd dt s t a Ha) as (a' & Ha' & Hst).
  destruct (pre_wake_player dt s t a Hp Hl) as [Hs Hc].
  exists a'. split; [done|]. split; [by eapply actor_step_simulated|].
  split; [|by eapply pass_player_source].
  destruct Hst as [->|[_ ->]]; [done|reflexivity].
Qed.

(** X6, instance: a player actor asleep for 11 s. *)
Lemma player_actor_stays_awake_witness :
  exists a', m_actors (UpdateSleepingState 1 sleeping_player_manager) !! 0 = Some a' /\
             ar_sim_state a' = LOCAL_SIMULATED /\ ar_sleep_counter a' = 0%Q /\
             0 ∈ wake_sources 1 sleeping_player_manager.
Proof.
  apply (player_actor_stays_awake 1 sleeping_player_manager 0
           (example_actor 0 LOCAL_SLEEPING 11 0 (box_x 0 1))).
  - reflexivity.
  - reflexivity.
  - by right.
Defined.

Lemma wake_simulated a : ar_sim_state a = LOCAL_SIMULATED -> set_ar_sleep_counter 0 a = wake a.
Proof. intros H. destruct a. cbn in *. by subst. Qed.

(** X7: while [m_forced_active] is set no pass of [UpdateSleepingState] puts
    an actor to sleep: a simulated actor comes out simulated, either
    untouched or with its timer reset by wake propagation. *)
Theorem forced_active_keeps_awake (dt : Q) (s : ActorManager) (t : nat) (a : Actor) :
  m_forced_active s = true ->
  m_actors s !! t = Some a -> ar_sim_state a = LOCAL_SIMULATED ->
  exists a', m_actors (UpdateSleepingState dt s) !! t = Some a' /\
             (a' = a \/ a' = wake a).
Proof.
  intros Hf Ha Hs. destruct (pass_lookup_fwd dt s t a Ha) as (a' & Ha' & Hst).
  exists a'. split; [done|].
  assert (Hpre : pre_wake_actor dt s t a = a \/ pre_wake_actor dt s t a = wake a).
  { unfold pre_wake_actor. rewrite Hf. cbn [negb andb].
    rewrite (bool_decide_eq_false_2 (ar_sim_state a = LOCAL_SLEEPING)) by congruence.
    rewrite andb_false_r.
    destruct (player_slot s t && _); [right; by apply wake_simulated|by left]. }
  destruct Hst as [->|[_ ->]]; [done|]. right.
  destruct Hpre as [->| ->]; reflexivity.
Qed.

(** X7, instance: 9.5 s at rest and another second; without the flag the
    actor would fall asleep. *)
Lemma forced_active_keeps_awake_witness :
  exists a', m_actors (UpdateSleepingState 1 forced_active_manager) !! 0 = Some a' /\
    (a' = example_actor 0 LOCAL_SIMULATED (19 # 2) 0 (box_x 0 1)
     \/ a' = wake (example_actor 0 LOCAL_SIMULATED (19 # 2) 0 (box_x 0 1))).
Proof.
  apply (forced_active_keeps_awake 1 forced_active_manager 0); reflexivity.
Defined.

(** * Remote actors *)

Lemma getBeam_scan_Some actors src str len x : forall a0,
  getBeam_scan actors src str (seq a0 len) = Some x <->
  exists t, a0 <= t < a0 + len /\ actors !! t = Some x /\ is_stream_actor src str x /\
            forall u y, a0 <= u < t -> actors !! u = Some y -> ~ is_stream_actor src str y.
Proof.
  induction len as [|len IH]; intros a0; cbn [seq getBeam_scan].
  - split; [done|]. intros (t & Ht & _). lia.
  - assert (Hskip :
      (forall y, actors !! a0 = Some y -> ~ is_stream_actor src str y) ->
      getBeam_scan actors src str (seq (S a0) len) = Some x <->
      exists t, a0 <= t < a0 + S len /\ actors !! t = Some x /\ is_stream_actor src str x /\
        forall u y, a0 <= u < t -> actors !! u = Some y -> ~ is_stream_actor src str y).
    { intros Hno. rewrite IH. split.
      - intros (t & Ht & Hx & Hm & Hmin). exists t. split; [lia|]. split; [done|].
        split; [done|]. intros u y Hu Hy. destruct (decide (u = a0)) as [->|Hne].
        + by apply Hno.
        + apply (Hmin u y); [lia|done].
      - intros (t & Ht & Hx & Hm & Hmin). exists t.
        assert (t <> a0) by (intros ->; by apply (Hno x)).
        split; [lia|]. split; [done|]. split; [done|].
        intros u y Hu Hy. apply (Hmin u y); [lia|done]. }
    destruct (actors !! a0) as [a|] eqn:Ha.
    + destruct (bool_decide (ar_sim_state a = NETWORKED_OK)) eqn:Hn; cbn [negb].
      * apply bool_decide_eq_true in Hn.
        destruct (bool_decide (ar_net_source_id a = src)) eqn:Hs; cbn [andb].
        -- apply bool_decide_eq_true in Hs.
           destruct (bool_decide (ar_net_stream_id a = str)) eqn:Hst.
           ++ apply bool_decide_eq_true in Hst. split.
              ** intros [= <-]. exists a0. split; [lia|]. split; [done|].
                 split; [done|]. intros u y Hu. lia.
              ** intros (t & Ht & Hx & Hm & Hmin).
                 destruct (decide (t = a0)) as [->|Hne]; [congruence|].
                 exfalso. apply (Hmin a0 a); [lia|done|done].
           ++ apply bool_decide_eq_false in Hst. apply Hskip.
              intros y [= <-] (_ & _ & ?). done.
        -- apply bool_decide_eq_false in Hs. apply Hskip.
           intros y [= <-] (_ & ? & _). done.
      * apply bool_decide_eq_false in Hn. apply Hskip.
        intros y [= <-] (? & _). done.
    + apply Hskip. intros y [=].
Qed.

Lemma getBeam_scan_None actors src str len : forall a0,
  getBeam_scan actors src str (seq a0 len) = None <->
  forall t y, a0 <= t < a0 + len -> actors !! t = Some y -> ~ is_stream_actor src str y.
Proof.
  induction len as [|len IH]; intros a0; cbn [seq getBeam_scan].
  - split; [|done]. intros _ t y Ht. lia.
  - assert (Hskip :
      (forall y, actors !! a0 = Some y -> ~ is_stream_actor src str y) ->
      getBeam_scan actors src str (seq (S a0) len) = None <->
      forall t y, a0 <= t < a0 + S len -> actors !! t = Some y ->
                  ~ is_stream_actor src str y).
    { intros Hno. rewrite IH. split.
      - intros Hall t y Ht Hy. destruct (decide (t = a0)) as [->|Hne].
        + by apply Hno.
        + apply (Hall t y); [lia|done].
      - intros Hall t y Ht Hy. apply (Hall t y); [lia|done]. }
    destruct (actors !! a0) as [a|] eqn:Ha.
    + destruct (bool_decide (ar_sim_state a = NETWORKED_OK)) eqn:Hn; cbn [negb].
      * apply bool_decide_eq_true in Hn.
        destruct (bool_decide (ar_net_source_id a = src)) eqn:Hs; cbn [andb].
        -- apply bool_decide_eq_true in Hs.
           destruct (bool_decide (ar_net_stream_id a = str)) eqn:Hst.
           ++ apply bool_decide_eq_true in Hst. split; [done|].
              intros Hall. exfalso. apply (Hall a0 a); [lia|done|done].
           ++ apply bool_decide_eq_false in Hst. apply Hskip.
              intros y [= <-] (_ & _ & ?). done.
        -- apply bool_decide_eq_false in Hs. apply Hskip.
           intros y [= <-] (_ & ? & _). done.
      * apply bool_decide_eq_false in Hn. apply Hskip.
        intros y [= <-] (? & _). done.
    + apply Hskip. intros y [=].
Qed.

(** X8: [getBeam] returns the networked actor of the stream that sits in
    the lowest slot below the high-water mark, and the null pointer exactly
    when no slot below the mark holds one; a local or invalid actor is
    never returned. *)
Theorem getBeam_first_match (source_id stream_id : Z) (s : ActorManager) :
  (forall x, getBeam source_id stream_id s = Some x <->
     exists t, t < m_free_actor_slot s /\ m_actors s !! t = Some x /\
       is_stream_actor source_id stream_id x /\
       forall u y, u < t -> m_actors s !! u = Some y ->
                   ~ is_stream_actor source_id stream_id y) /\
  (getBeam source_id stream_id s = None <->
     forall t y, t < m_free_actor_slot s -> m_actors s !! t = Some y ->
                 ~ is_stream_actor source_id stream_id y).
Proof.
  unfold getBeam. split.
  - intros x. rewrite getBeam_scan_Some. split.
    + intros (t & Ht & Hx & Hm & Hmin). exists t. split; [lia|]. split; [done|].
      split; [done|]. intros u y Hu. apply Hmin. lia.
    + intros (t & Ht & Hx & Hm & Hmin). exists t. split; [lia|]. split; [done|].
      split; [done|]. intros u y Hu. apply Hmin. lia.
  - rewrite getBeam_scan_None. split.
    + intros H t y Ht. apply H. lia.
    + intros H t y Ht. apply H. lia.
Qed.

Lemma setCurrentTruck_eq new_truck s :
  setCurrentTruck new_truck s =
  set_m_actors (m_actors (setCurrentTruck new_truck s))
    (set_player (m_player_actor s) new_truck s).
Proof. unfold setCurrentTruck. apply UpdateSleepingState_fields. Qed.

Lemma setCurrentTruck_lookup new_truck s t :
  option_Forall2 sleep_wake_step
    (m_actors s !! t) (m_actors (setCurrentTruck new_truck s) !! t).
Proof.
  unfold setCurrentTruck.
  apply (pass_sleep_wake_lookup 0 (set_player (m_player_actor s) new_truck s) t).
Qed.

Lemma setCurrentTruck_mismatches new_truck s :
  m_stream_mismatches (setCurrentTruck new_truck s) = m_stream_mismatches s.
Proof. by rewrite setCurrentTruck_eq. Qed.

Lemma DeleteTruck_mismatches b s :
  m_stream_mismatches (DeleteTruck b s) = m_stream_mismatches s.
Proof.
  destruct b as [b|]; [|done]. unfold DeleteTruck.
  destruct (bool_decide _); cbn; [apply setCurrentTruck_mismatches|done].
Qed.

Lemma option_Forall2_sleep_wake_trans (o1 o2 o3 : option Actor) :
  option_Forall2 sleep_wake_step o1 o2 -> option_Forall2 sleep_wake_step o2 o3 ->
  option_Forall2 sleep_wake_step o1 o3.
Proof.
  intros H1 H2. destruct H1; inversion H2; subst; constructor.
  by eapply sleep_wake_step_trans.
Qed.

Lemma DeleteTruck_lookup b s t :
  t <> ar_instance_id b ->
  option_Forall2 sleep_wake_step
    (m_actors s !! t) (m_actors (DeleteTruck (Some b) s) !! t).
Proof.
  intros Hne. unfold DeleteTruck.
  destruct (bool_decide _); cbn [m_actors set_m_actors];
    rewrite lookup_delete_ne by done.
  - apply setCurrentTruck_lookup.
  - destruct (m_actors s !! t); constructor. apply sleep_wake_step_refl.
Qed.

Lemma sleep_wake_step_networked a a' :
  sleep_wake_step a a' -> ar_sim_state a' = NETWORKED_OK -> a' = a.
Proof.
  intros (_ & Hl & Hn) Hs. apply Hn. intros Ha. specialize (Hl Ha).
  destruct Hl; congruence.
Qed.

Lemma sleep_wake_step_networked_fwd a a' :
  sleep_wake_step a a' -> ar_sim_state a = NETWORKED_OK -> a' = a.
Proof. intros (_ & _ & Hn) Hs. apply Hn. intros [?|?]; congruence. Qed.

Lemma option_Forall2_Some_l {A} (R : A -> A -> Prop) (a : A) (o : option A) :
  option_Forall2 R (Some a) o -> exists b, o = Some b /\ R a b.
Proof. intros H. inversion H as [? b Hr|]. by exists b. Qed.

Lemma option_Forall2_None_l {A} (R : A -> A -> Prop) (o : option A) :
  option_Forall2 R None o -> o = None.
Proof. intros H. by inversion H. Qed.

Section RemoveSource.

Variable sourceid : Z.

Lemma RemoveStreamSource_body_skip s k :
  (forall a, m_actors s !! k = Some a ->
     ~ (ar_sim_state a = NETWORKED_OK /\ ar_net_source_id a = sourceid)) ->
  RemoveStreamSource_body sourceid s k = s.
Proof.
  intros Hno. unfold RemoveStreamSource_body.
  destruct (m_actors s !! k) as [a|]; [|done].
  destruct (bool_decide (ar_sim_state a = NETWORKED_OK)) eqn:Hn; [|done].
  destruct (bool_decide (ar_net_source_id a = sourceid)) eqn:Hs; [|done].
  apply bool_decide_eq_true in Hn. apply bool_decide_eq_true in Hs.
  exfalso. by apply (Hno a).
Qed.

Lemma RemoveStreamSource_body_delete s k a :
  m_actors s !! k = Some a ->
  ar_sim_state a = NETWORKED_OK -> ar_net_source_id a = sourceid ->
  RemoveStreamSource_body sourceid s k = DeleteTruck (Some a) s.
Proof.
  intros Ha Hn Hs. unfold RemoveStreamSource_body. rewrite Ha.
  by rewrite !bool_decide_eq_true_2.
Qed.

Lemma RemoveStreamSource_loop s : registry_wf s -> forall k,
  let sk := foldl (RemoveStreamSource_body sourceid) s (seq 0 k) in
  m_free_actor_slot sk = m_free_actor_slot s /\
  m_stream_mismatches sk = m_stream_mismatches s /\
  registry_wf sk /\
  forall t,
    match m_actors s !! t with
    | None => m_actors sk !! t = None
    | Some a =>
        if decide (t < k /\ ar_sim_state a = NETWORKED_OK /\ ar_net_source_id a = sourceid)
        then m_actors sk !! t = None
        else exists a', m_actors sk !! t = Some a' /\ sleep_wake_step a a'
    end.
Proof.
  intros Hwf k. induction k as [|k IH]; cbn zeta.
  - cbn [seq foldl]. split_and!; [done..|]. intros t.
    destruct (m_actors s !! t) as [a|] eqn:Ha; [|done].
    destruct (decide _) as [[? _]|_]; [lia|].
    exists a. split; [done|apply sleep_wake_step_refl].
  - rewrite seq_S, foldl_app. cbn [foldl Nat.add].
    cbn zeta in IH. set (sk := foldl _ s (seq 0 k)) in *.
    destruct IH as (Hmark & Hmm & Hwfk & Hinv).
    assert (Hcase :
      (exists a', m_actors sk !! k = Some a' /\
         ar_sim_state a' = NETWORKED_OK /\ ar_net_source_id a' = sourceid) \/
      (forall a, m_actors sk !! k = Some a ->
         ~ (ar_sim_state a = NETWORKED_OK /\ ar_net_source_id a = sourceid))).
    { destruct (m_actors sk !! k) as [a'|]; [|by right].
      destruct (decide (ar_sim_state a' = NETWORKED_OK /\ ar_net_source_id a' = sourceid))
        as [[??]|Hn]; [left; by exists a'|right; by intros a [= <-]]. }
    destruct Hcase as [(a' & Hk & Hn & Hs)|Hnone].
    + rewrite (RemoveStreamSource_body_delete sk k a' Hk Hn Hs).
      destruct (Hwfk k a' Hk) as [Hlt Hid].
      assert (Ha : m_actors s !! k = Some a').
      { specialize (Hinv k). destruct (m_actors s !! k) as [a|]; [|congruence].
        destruct (decide _) as [[? _]|_]; [lia|].
        destruct Hinv as (a1 & Ha1 & Hst). assert (a1 = a') as -> by congruence.
        f_equal. symmetry. by apply sleep_wake_step_networked. }
      split; [by rewrite DeleteTruck_mark|].
      split; [by rewrite DeleteTruck_mismatches|].
      split; [by apply registry_wf_DeleteTruck|].
      intros t. destruct (decide (t = k)) as [->|Hne].
      * rewrite Ha. rewrite decide_True by (split; [lia|done]).
        rewrite <- Hid. apply DeleteTruck_cleared.
      * pose proof (DeleteTruck_lookup a' sk t ltac:(congruence)) as Hd.
        specialize (Hinv t). destruct (m_actors s !! t) as [b|].
        -- destruct (decide (t < k /\ _)) as [Hc|Hc].
           ++ rewrite decide_True by (split; [lia|tauto]).
              rewrite Hinv in Hd. by apply option_Forall2_None_l in Hd.
           ++ rewrite decide_False by (intros [? ?]; apply Hc; split; [lia|done]).
              destruct Hinv as (b1 & Hb1 & Hst1). rewrite Hb1 in Hd.
              apply option_Forall2_Some_l in Hd. destruct Hd as (b2 & Hb2 & Hst2).
              exists b2. split; [done|]. by eapply sleep_wake_step_trans.
        -- rewrite Hinv in Hd. by apply option_Forall2_None_l in Hd.
    + rewrite (RemoveStreamSource_body_skip sk k Hnone).
      split_and!; [done..|].
      intros t. specialize (Hinv t). destruct (m_actors s !! t) as [b|] eqn:Hb; [|done].
      destruct (decide (t < k /\ _)) as [Hc|Hc].
      * by rewrite decide_True by (split; [lia|tauto]).
      * rewrite decide_False; [done|]. intros (Ht & Hbn & Hbs). apply Hc.
        split; [|done]. destruct (decide (t = k)) as [->|]; [|lia].
        exfalso. destruct Hinv as (b1 & Hb1 & Hst1).
        pose proof (sleep_wake_step_networked_fwd b b1 Hst1 Hbn) as ->.
        by apply (Hnone b).
Qed.

End RemoveSource.

Lemma RemoveStreamSource_spec sourceid s :
  registry_wf s ->
  m_free_actor_slot (RemoveStreamSource sourceid s) = m_free_actor_slot s /\
  m_stream_mismatches (RemoveStreamSource sourceid s)
  = delete sourceid (m_stream_mismatches s) /\
  registry_wf (RemoveStreamSource sourceid s) /\
  (forall t, m_actors s !! t = None ->
     m_actors (RemoveStreamSource sourceid s) !! t = None) /\
  (forall t a, m_actors s !! t = Some a ->
     ar_sim_state a = NETWORKED_OK -> ar_net_source_id a = sourceid ->
     m_actors (RemoveStreamSource sourceid s) !! t = None) /\
  (forall t a, m_actors s !! t = Some a ->
     ~ (ar_sim_state a = NETWORKED_OK /\ ar_net_source_id a = sourceid) ->
     exists a', m_actors (RemoveStreamSource sourceid s) !! t = Some a' /\
                sleep_wake_step a a').
Proof.
  intros Hwf. unfold RemoveStreamSource. cbn zeta.
  set (s1 := set_m_stream_mismatches (delete sourceid (m_stream_mismatches s)) s).
  assert (Hwf1 : registry_wf s1) by exact Hwf.
  destruct (RemoveStreamSource_loop sourceid s1 Hwf1 (m_free_actor_slot s1))
    as (Hmark & Hmm & Hwf' & Hinv).
  cbn zeta in Hmark, Hmm, Hwf', Hinv.
  set (s' := foldl _ s1 _) in *.
  split; [done|]. split; [done|]. split; [done|]. split; [|split].
  - intros t Ht. specialize (Hinv t). change (m_actors s1) with (m_actors s) in Hinv.
    by rewrite Ht in Hinv.
  - intros t a Ha Hn Hs. specialize (Hinv t). change (m_actors s1) with (m_actors s) in Hinv.
    rewrite Ha in Hinv. rewrite decide_True in Hinv; [done|].
    split; [|done]. apply (Hwf t a Ha).
  - intros t a Ha Hno. specialize (Hinv t). change (m_actors s1) with (m_actors s) in Hinv.
    rewrite Ha in Hinv. rewrite decide_False in Hinv; [done|]. intros [_ ?]. by apply Hno.
Qed.

(** X9: on a well-formed registry [RemoveStreamSource] forgets the source:
    its mismatch entry is erased, no networked actor of the source is left
    below the high-water mark, so that [checkStreamsOK] answers 2 and
    [getBeam] finds none of its streams; the mark does not move. *)
Theorem RemoveStreamSource_forgets_source (sourceid : Z) (s : ActorManager) :
  registry_wf s ->
  m_stream_mismatches (RemoveStreamSource sourceid s) !! sourceid = None /\
  ~ networked_actor_of (RemoveStreamSource sourceid s) sourceid /\
  (checkStreamsOK sourceid (RemoveStreamSource sourceid s)).1 = 2%Z /\
  (forall stream_id, getBeam sourceid stream_id (RemoveStreamSource sourceid s) = None) /\
  m_free_actor_slot (RemoveStreamSource sourceid s) = m_free_actor_slot s.
Proof.
  intros Hwf.
  destruct (RemoveStreamSource_spec sourceid s Hwf)
    as (Hmark & Hmm & Hwf' & Hnone & Hdel & Hkeep).
  assert (Hno : forall t a', m_actors (RemoveStreamSource sourceid s) !! t = Some a' ->
                ~ (ar_sim_state a' = NETWORKED_OK /\ ar_net_source_id a' = sourceid)).
  { intros t a' Ha' [Hn Hs]. destruct (m_actors s !! t) as [a|] eqn:Ha.
    - destruct (decide (ar_sim_state a = NETWORKED_OK /\ ar_net_source_id a = sourceid))
        as [[Hn0 Hs0]|Hc].
      + rewrite (Hdel t a Ha Hn0 Hs0) in Ha'. done.
      + destruct (Hkeep t a Ha Hc) as (a1 & Ha1 & Hst).
        assert (a1 = a') as -> by congruence.
        pose proof (sleep_wake_step_networked a a' Hst Hn) as ->. by apply Hc.
    - rewrite (Hnone t Ha) in Ha'. done. }
  assert (Hmm' : m_stream_mismatches (RemoveStreamSource sourceid s) !! sourceid = None).
  { rewrite Hmm. apply lookup_delete_eq. }
  assert (Hnet : ~ networked_actor_of (RemoveStreamSource sourceid s) sourceid).
  { intros (t & a & _ & Ha & Hn & Hs). by apply (Hno t a). }
  split; [done|]. split; [done|]. split; [|split; [|done]].
  - rewrite checkStreamsOK_unfold. cbn [fst].
    unfold mismatch_set. rewrite Hmm'. cbn [default].
    rewrite bool_decide_eq_false_2 by (intros H; by apply H).
    destruct (has_networked_actor _ _ _) eqn:Hh; [|done].
    apply has_networked_actor_below in Hh. by exfalso.
  - intros stream_id. unfold getBeam. apply getBeam_scan_None.
    intros t y _ Hy (Hn & Hs & _). by apply (Hno t y).
Qed.

(** X10: on a well-formed registry [RemoveStreamSource] deletes exactly the
    networked actors of the source: every other actor keeps its slot, a
    networked or invalid one unchanged, a local one up to its sleep state
    and sleep timer; empty slots stay empty and the mismatch sets of the
    other sources are kept. *)
Theorem RemoveStreamSource_keeps_others (sourceid : Z) (s : ActorManager) :
  registry_wf s ->
  (forall t a, m_actors s !! t = Some a ->
     if decide (ar_sim_state a = NETWORKED_OK /\ ar_net_source_id a = sourceid)
     then m_actors (RemoveStreamSource sourceid s) !! t = None
     else exists a', m_actors (RemoveStreamSource sourceid s) !! t = Some a' /\
                     sleep_wake_step a a') /\
  (forall t, m_actors s !! t = None ->
     m_actors (RemoveStreamSource sourceid s) !! t = None) /\
  (forall other, other <> sourceid ->
     m_stream_mismatches (RemoveStreamSource sourceid s) !! other
     = m_stream_mismatches s !! other) /\
  registry_wf (RemoveStreamSource sourceid s).
Proof.
  intros Hwf.
  destruct (RemoveStreamSource_spec sourceid s Hwf)
    as (Hmark & Hmm & Hwf' & Hnone & Hdel & Hkeep).
  split; [|split; [done|split; [|done]]].
  - intros t a Ha. destruct (decide _) as [[Hn Hs]|Hc]; [by eapply Hdel|by apply Hkeep].
  - intros other Hne. rewrite Hmm. by apply lookup_delete_ne.
Qed.

Section RemoteSpawn.

Variable MAX_TRUCKS : nat.

Lemma GetFreeTruckSlot_none s :
  (GetFreeTruckSlot MAX_TRUCKS s).1 = (-1)%Z <->
  forall u, u < MAX_TRUCKS -> ~ slot_free s u.
Proof.
  destruct (GetFreeTruckSlot_cases MAX_TRUCKS s) as [(t & Hf & Hle & ->)|[Hf ->]]; cbn [fst].
  - split; [lia|]. intros Hall. exfalso.
    apply first_free_slot_Some in Hf. destruct Hf as (Ht & Hfree & Hnone & _).
    apply (Hall t); [lia|]. by split.
  - split; [|done]. intros _ u Hu [Hfree Hnone].
    apply (proj1 (first_free_slot_None _ _ _ 0) Hf u); [lia|done].
Qed.

Lemma GetFreeTruckSlot_value s :
  (GetFreeTruckSlot MAX_TRUCKS s).1 = (-1)%Z \/
  exists t, (GetFreeTruckSlot MAX_TRUCKS s).1 = Z.of_nat t.
Proof.
  destruct (GetFreeTruckSlot_cases MAX_TRUCKS s) as [(t & Hf & Hle & ->)|[Hf ->]];
    [right; by exists t|by left].
Qed.

Lemma GetFreeTruckSlot_wf s t :
  registry_wf s -> (GetFreeTruckSlot MAX_TRUCKS s).1 = Z.of_nat t ->
  t = m_free_actor_slot s.
Proof.
  intros Hwf Ht.
  destruct (GetFreeTruckSlot_cases MAX_TRUCKS s) as [(t' & Hf & Hle & E)|[Hf E]];
    rewrite E in Ht; cbn [fst] in Ht; [|lia].
  assert (t' = t) as -> by lia.
  apply first_free_slot_Some in Hf. destruct Hf as (Hlt & Hfree & Hnone & Hmin).
  destruct (decide (t = m_free_actor_slot s)) as [|Hne]; [done|]. exfalso.
  apply (Hmin (m_free_actor_slot s)); [lia|]. split; [lia|].
  destruct (m_actors s !! m_free_actor_slot s) as [a|] eqn:Ha; [|done].
  destruct (Hwf _ a Ha). lia.
Qed.

Lemma CreateRemoteInstance_unloaded src str proto s :
  CreateRemoteInstance MAX_TRUCKS false src str proto s = ((-1)%Z, s).
Proof. reflexivity. Qed.

Lemma CreateRemoteInstance_loaded src str proto s :
  CreateRemoteInstance MAX_TRUCKS true src str proto s =
  if bool_decide ((GetFreeTruckSlot MAX_TRUCKS s).1 = -1)%Z
  then ((-1)%Z, (GetFreeTruckSlot MAX_TRUCKS s).2)
  else if bool_decide (ar_sim_state proto = INVALID)
  then ((-1)%Z,
        DeleteTruck (Some (new_Actor (Z.to_nat (GetFreeTruckSlot MAX_TRUCKS s).1) proto))
          (GetFreeTruckSlot MAX_TRUCKS s).2)
  else (1%Z,
        set_m_actors
          (<[Z.to_nat (GetFreeTruckSlot MAX_TRUCKS s).1 :=
               set_ar_net_stream_id str
                 (set_ar_net_source_id src
                    (new_Actor (Z.to_nat (GetFreeTruckSlot MAX_TRUCKS s).1) proto))]>
             (m_actors (GetFreeTruckSlot MAX_TRUCKS s).2))
          (GetFreeTruckSlot MAX_TRUCKS s).2).
Proof.
  unfold CreateRemoteInstance. cbn [negb].
  destruct (GetFreeTruckSlot MAX_TRUCKS s) as [truck_num s1]. cbn [fst snd].
  reflexivity.
Qed.

(** X11: [CreateRemoteInstance] answers 1 or -1, and 1 exactly when the
    resource is loaded, a slot at or above the high-water mark is free and
    the constructed actor is valid.  A request for a missing resource
    leaves the manager as it was; once the resource is found the slot is
    taken from the registry, also when the request then fails. *)
Theorem CreateRemoteInstance_outcomes (checkResourceLoaded : bool)
    (origin_sourceid origin_streamid : Z) (proto : Actor) (s : ActorManager) :
  let r := CreateRemoteInstance MAX_TRUCKS checkResourceLoaded
             origin_sourceid origin_streamid proto s in
  (r.1 = 1%Z \/ r.1 = (-1)%Z) /\
  (r.1 = 1%Z <->
     checkResourceLoaded = true /\ (exists t, t < MAX_TRUCKS /\ slot_free s t) /\
     ar_sim_state proto <> INVALID) /\
  (checkResourceLoaded = false -> r.2 = s) /\
  (checkResourceLoaded = true ->
     m_free_actor_slot r.2 = m_free_actor_slot (GetFreeTruckSlot MAX_TRUCKS s).2).
Proof.
  cbn zeta. destruct checkResourceLoaded.
  2:{ rewrite CreateRemoteInstance_unloaded. cbn [fst snd].
      split; [by right|]. split; [|done]. split; [done|]. by intros [? _]. }
  rewrite CreateRemoteInstance_loaded.
  assert (Hfree : (exists t, t < MAX_TRUCKS /\ slot_free s t) <->
                  (GetFreeTruckSlot MAX_TRUCKS s).1 <> (-1)%Z).
  { rewrite GetFreeTruckSlot_none. split.
    - intros (t & Ht & Hf) Hall. by apply (Hall t).
    - intros Hn. destruct (GetFreeTruckSlot_value s) as [E|[t E]].
      + exfalso. apply Hn. by apply GetFreeTruckSlot_none.
      + exists t. destruct (GetFreeTruckSlot_success MAX_TRUCKS s t E) as (? & ? & _).
        done. }
  destruct (bool_decide ((GetFreeTruckSlot MAX_TRUCKS s).1 = -1)%Z) eqn:Hslot.
  - apply bool_decide_eq_true in Hslot. cbn [fst snd].
    split; [by right|]. split; [|done]. split; [done|].
    intros (_ & Hex & _). by apply Hfree in Hex.
  - apply bool_decide_eq_false in Hslot.
    destruct (bool_decide (ar_sim_state proto = INVALID)) eqn:Hinv; cbn [fst snd].
    + apply bool_decide_eq_true in Hinv. split; [by right|]. split; [|split; [done|]].
      * split; [done|]. by intros (_ & _ & ?).
      * intros _. apply DeleteTruck_mark.
    + apply bool_decide_eq_false in Hinv. split; [by left|]. split; [|done].
      split; [|done]. intros _. split; [done|]. split; [by apply Hfree|done].
Qed.

End RemoteSpawn.

Lemma is_stream_actor_remote src str n proto :
  ar_sim_state proto = NETWORKED_OK ->
  is_stream_actor src str
    (set_ar_net_stream_id str (set_ar_net_source_id src (new_Actor n proto))).
Proof. intros H. by split. Qed.

(** X12: on a well-formed registry a successful [CreateRemoteInstance] of a
    networked actor puts it in the slot at the high-water mark, with the
    source and stream of the request, and keeps the registry well formed.
    [getBeam] then finds the stream: the new actor, unless an older actor
    of the same stream sits in a lower slot, which shadows it.
    [checkStreamsOK] for the source no longer answers 2. *)
Theorem remote_actor_registered (MAX_TRUCKS : nat) (source_id stream_id : Z)
    (proto : Actor) (s s' : ActorManager) :
  registry_wf s -> ar_sim_state proto = NETWORKED_OK ->
  CreateRemoteInstance MAX_TRUCKS true source_id stream_id proto s = (1%Z, s') ->
  m_actors s' !! m_free_actor_slot s
  = Some (set_ar_net_stream_id stream_id
            (set_ar_net_source_id source_id (new_Actor (m_free_actor_slot s) proto))) /\
  m_free_actor_slot s' = S (m_free_actor_slot s) /\
  registry_wf s' /\
  getBeam source_id stream_id s'
  = Some (default
            (set_ar_net_stream_id stream_id
               (set_ar_net_source_id source_id (new_Actor (m_free_actor_slot s) proto)))
            (getBeam source_id stream_id s)) /\
  (checkStreamsOK source_id s').1 <> 2%Z.
Proof.
  intros Hwf Hnet. rewrite CreateRemoteInstance_loaded.
  destruct (bool_decide ((GetFreeTruckSlot MAX_TRUCKS s).1 = -1)%Z) eqn:Hslot; [done|].
  apply bool_decide_eq_false in Hslot.
  rewrite bool_decide_eq_false_2 by congruence.
  destruct (GetFreeTruckSlot_value MAX_TRUCKS s) as [E|[t E]]; [done|].
  pose proof (GetFreeTruckSlot_wf MAX_TRUCKS s t Hwf E) as ->.
  destruct (GetFreeTruckSlot_success MAX_TRUCKS s _ E) as (Hlt & [_ Hempty] & E2).
  rewrite E, E2, Nat2Z.id. intros [= <-].
  set (n := m_free_actor_slot s) in *.
  set (b := set_ar_net_stream_id stream_id (set_ar_net_source_id source_id (new_Actor n proto))).
  assert (Hb : is_stream_actor source_id stream_id b)
    by by apply is_stream_actor_remote.
  set (s' := set_m_actors _ _).
  assert (Hs' : m_actors s' = <[n := b]> (m_actors s)) by reflexivity.
  assert (Hn' : m_free_actor_slot s' = n + 1) by reflexivity.
  clearbody s'. rewrite Hs', Hn'.
  split; [apply lookup_insert_eq|]. split; [lia|]. split; [|split].
  - intros t a. rewrite Hs', Hn'.
    intros [[<- <-]|[Hne Ha]]%lookup_insert_Some.
    + split; [lia|done].
    + destruct (Hwf t a Ha) as [Hlt' ?]. fold n in Hlt'. split; [lia|done].
  - unfold getBeam. rewrite Hs', Hn'. fold n.
    destruct (getBeam_scan (m_actors s) source_id stream_id (seq 0 n)) as [y|] eqn:Hy;
      cbn [default].
    + apply getBeam_scan_Some in Hy. destruct Hy as (t & Ht & Hty & Hm & Hmin).
      apply getBeam_scan_Some. exists t. split; [lia|].
      split; [rewrite lookup_insert_ne by lia; done|]. split; [done|].
      intros u z Hu. rewrite lookup_insert_ne by lia. by apply Hmin.
    + apply getBeam_scan_Some. exists n. split; [lia|].
      split; [apply lookup_insert_eq|]. split; [done|].
      intros u z Hu. rewrite lookup_insert_ne by lia.
      apply (proj1 (getBeam_scan_None _ _ _ _ _) Hy). lia.
  - rewrite checkStreamsOK_unfold. cbn [fst].
    destruct (bool_decide _); [done|].
    rewrite (proj2 (has_networked_actor_below s' source_id)); [done|].
    exists n, b. rewrite Hs', Hn'.
    split; [lia|]. split; [apply lookup_insert_eq|]. split; apply Hb.
Qed.

Section RemoteAnswers.

Variables (actors : gmap nat Actor) (stream_result : nat -> Z).

Lemma answered_in_nil a0 code : ~ answered_in actors stream_result a0 0 code.
Proof. intros (t & a & Ht & _). lia. Qed.

Lemma answered_in_cons a0 len code :
  answered_in actors stream_result a0 (S len) code <->
  (exists a, actors !! a0 = Some a /\ ar_sim_state a <> NETWORKED_OK /\
             stream_result a0 = code) \/
  answered_in actors stream_result (S a0) len code.
Proof.
  split.
  - intros (t & a & Ht & Ha & Hn & Hc). destruct (decide (t = a0)) as [->|Hne].
    + left. by exists a.
    + right. exists t, a. split; [lia|done].
  - intros [(a & Ha & Hn & Hc)|(t & a & Ht & Ha & Hn & Hc)].
    + exists a0, a. split; [lia|done].
    + exists t, a. split; [lia|done].
Qed.

(** The three verdicts of the scan, started with [result]. *)
Lemma checkStreamsRemoteOK_scan_spec len : forall a0 result,
  result = 1%Z \/ result = 2%Z ->
  (answered_in actors stream_result a0 len (-1)
   /\ checkStreamsRemoteOK_scan actors stream_result result (seq a0 len) = 0%Z) \/
  (~ answered_in actors stream_result a0 len (-1)
   /\ (result = 1%Z \/ answered_in actors stream_result a0 len 1)
   /\ checkStreamsRemoteOK_scan actors stream_result result (seq a0 len) = 1%Z) \/
  (~ answered_in actors stream_result a0 len (-1)
   /\ result = 2%Z /\ ~ answered_in actors stream_result a0 len 1
   /\ checkStreamsRemoteOK_scan actors stream_result result (seq a0 len) = 2%Z).
Proof.
  induction len as [|len IH]; intros a0 result Hres.
  - cbn [seq checkStreamsRemoteOK_scan].
    destruct Hres as [->| ->]; right; [left|right]; split_and!;
      auto using answered_in_nil.
  - cbn [seq checkStreamsRemoteOK_scan]. rewrite !answered_in_cons.
    (* slot a0 contributes no answer: the verdict is that of the rest *)
    assert (Hskip :
      (forall code, (code = 1 \/ code = -1)%Z ->
         ~ exists a, actors !! a0 = Some a /\ ar_sim_state a <> NETWORKED_OK /\
                     stream_result a0 = code) ->
      forall P : Z -> Prop,
        P (checkStreamsRemoteOK_scan actors stream_result result (seq (S a0) len)) ->
        (((exists a, actors !! a0 = Some a /\ ar_sim_state a <> NETWORKED_OK /\
                     stream_result a0 = (-1)%Z) \/
          answered_in actors stream_result (S a0) len (-1)) /\ P 0%Z) \/
        (~ ((exists a, actors !! a0 = Some a /\ ar_sim_state a <> NETWORKED_OK /\
                       stream_result a0 = (-1)%Z) \/
            answered_in actors stream_result (S a0) len (-1)) /\
         (result = 1%Z \/
          (exists a, actors !! a0 = Some a /\ ar_sim_state a <> NETWORKED_OK /\
                     stream_result a0 = 1%Z) \/
          answered_in actors stream_result (S a0) len 1) /\ P 1%Z) \/
        (~ ((exists a, actors !! a0 = Some a /\ ar_sim_state a <> NETWORKED_OK /\
                       stream_result a0 = (-1)%Z) \/
            answered_in actors stream_result (S a0) len (-1)) /\
         result = 2%Z /\
         ~ ((exists a, actors !! a0 = Some a /\ ar_sim_state a <> NETWORKED_OK /\
                       stream_result a0 = 1%Z) \/
            answered_in actors stream_result (S a0) len 1) /\ P 2%Z)).
    { intros Hno P HP.
      destruct (IH (S a0) result Hres) as [[Hb Hr]|[(Hb & Hg & Hr)|(Hb & H2 & Hg & Hr)]];
        rewrite Hr in HP.
      - left. split; [by right|done].
      - right. left. split; [|split; [|done]].
        + intros [H|H]; [by apply (Hno (-1)%Z); [right|]|by apply Hb].
        + destruct Hg as [?|?]; [by left|right; by right].
      - right. right. split; [|split; [done|split; [|done]]].
        + intros [H|H]; [by apply (Hno (-1)%Z); [right|]|by apply Hb].
        + intros [H|H]; [by apply (Hno 1%Z); [left|]|by apply Hg]. }
    destruct (actors !! a0) as [a|] eqn:Ha.
    2:{ apply (Hskip ltac:(by intros code _ (a & [=] & _)) (fun r => _ = r) eq_refl). }
    destruct (bool_decide (ar_sim_state a = NETWORKED_OK)) eqn:Hn.
    { apply bool_decide_eq_true in Hn.
      apply (Hskip ltac:(by intros code _ (a1 & [= <-] & Hn1 & _)) (fun r => _ = r) eq_refl). }
    apply bool_decide_eq_false in Hn.
    destruct (bool_decide (stream_result a0 = -1)%Z) eqn:Hm1.
    { apply bool_decide_eq_true in Hm1. left. split; [|done]. left. by exists a. }
    apply bool_decide_eq_false in Hm1.
    destruct (bool_decide (stream_result a0 = 1)%Z) eqn:H1.
    + apply bool_decide_eq_true in H1.
      destruct (IH (S a0) 1%Z ltac:(by left))
        as [[Hb Hr0]|[(Hb & Hg & Hr1)|(Hb & H2 & _)]]; [| |done].
      * left. split; [by right|done].
      * right. left. split; [|split; [|done]].
        -- intros [(a1 & _ & _ & E)|H]; [congruence|by apply Hb].
        -- right. left. by exists a.
    + apply bool_decide_eq_false in H1.
      apply (Hskip ltac:(by intros code [->| ->] (a1 & _ & _ & E)) (fun r => _ = r) eq_refl).
Qed.

End RemoteAnswers.

(** X13: [checkStreamsRemoteOK] looks at the answers recorded for the local
    and invalid actors below the high-water mark only: it returns 0 exactly
    when one of them was answered -1, 1 exactly when none was answered -1
    and one was answered 1, and 2 otherwise.  A single refusal outweighs
    any number of acceptances. *)
Theorem checkStreamsRemoteOK_verdict (stream_result : nat -> Z) (s : ActorManager) :
  (checkStreamsRemoteOK stream_result s = 0%Z <-> remote_answer stream_result s (-1)) /\
  (checkStreamsRemoteOK stream_result s = 1%Z <->
     ~ remote_answer stream_result s (-1) /\ remote_answer stream_result s 1) /\
  (checkStreamsRemoteOK stream_result s = 2%Z <->
     ~ remote_answer stream_result s (-1) /\ ~ remote_answer stream_result s 1).
Proof.
  unfold checkStreamsRemoteOK, remote_answer.
  destruct (checkStreamsRemoteOK_scan_spec (m_actors s) stream_result
              (m_free_actor_slot s) 0 2%Z ltac:(by right))
    as [[Hb ->]|[(Hb & Hg & ->)|(Hb & _ & Hg & ->)]].
  - split; [done|]. split; split; try done; by intros [? _].
  - destruct Hg as [?|Hg]; [done|]. split; [done|]. split; [done|].
    split; [done|]. by intros [_ ?].
  - split; [done|]. split; [|done]. split; [done|]. by intros [_ ?].
Qed.

(** * Waking and sleeping on request *)

Lemma update_loop_lookup (c : Actor -> bool) (g : Actor -> Actor) (m : gmap nat Actor) n :
  forall t,
  foldl (fun m t => match m !! t with
                    | Some a => if c a then <[t := g a]> m else m
                    | None => m
                    end) m (seq 0 n) !! t
  = if decide (t < n) then (fun a => if c a then g a else a) <$> m !! t else m !! t.
Proof.
  induction n as [|n IH]; intros t.
  - cbn [seq foldl]. destruct (decide (t < 0)); [lia|done].
  - rewrite seq_S, foldl_app. cbn [foldl Nat.add].
    set (mn := foldl _ m (seq 0 n)) in *.
    pose proof (IH n) as Hn. rewrite decide_False in Hn by lia. rewrite Hn.
    destruct (decide (t = n)) as [->|Hne].
    + rewrite decide_True by lia. destruct (m !! n) as [a|] eqn:Ha; cbn [fmap option_fmap option_map].
      * destruct (c a); [by rewrite lookup_insert_eq|]. congruence.
      * congruence.
    + assert (Hmn : match m !! n with
                    | Some a => if c a then <[n := g a]> mn else mn
                    | None => mn
                    end !! t = mn !! t).
      { destruct (m !! n) as [a|]; [|done]. destruct (c a); [|done].
        by rewrite lookup_insert_ne. }
      rewrite Hmn, IH.
      destruct (decide (t < n)), (decide (t < S n)); try lia; done.
Qed.

Lemma sendAllTrucksSleeping_lookup s t :
  m_actors (sendAllTrucksSleeping s) !! t =
  if decide (t < m_free_actor_slot s)
  then (fun a => if bool_decide (ar_sim_state a = LOCAL_SIMULATED)
                 then set_ar_sim_state LOCAL_SLEEPING a else a) <$> m_actors s !! t
  else m_actors s !! t.
Proof.
  unfold sendAllTrucksSleeping. cbn zeta.
  cbn [m_actors set_m_actors set_m_forced_active m_free_actor_slot].
  apply (update_loop_lookup (fun a => bool_decide (ar_sim_state a = LOCAL_SIMULATED))
           (set_ar_sim_state LOCAL_SLEEPING)).
Qed.

Lemma sendAllTrucksSleeping_fields s :
  sendAllTrucksSleeping s =
  set_m_actors (m_actors (sendAllTrucksSleeping s)) (set_m_forced_active false s).
Proof. reflexivity. Qed.

(** X14: [sendAllTrucksSleeping] clears [m_forced_active] and leaves no
    simulated actor below the high-water mark: each one is put to sleep
    with its sleep timer as it was; sleeping, networked and invalid actors,
    the slots at or above the mark and the other fields of the manager are
    left alone. *)
Theorem sendAllTrucksSleeping_effect (s : ActorManager) :
  sendAllTrucksSleeping s
  = set_m_actors (m_actors (sendAllTrucksSleeping s)) (set_m_forced_active false s) /\
  (forall t a, t < m_free_actor_slot s ->
     m_actors (sendAllTrucksSleeping s) !! t = Some a ->
     ar_sim_state a <> LOCAL_SIMULATED) /\
  (forall t a, m_actors s !! t = Some a ->
     exists a', m_actors (sendAllTrucksSleeping s) !! t = Some a' /\
       same_body a a' /\ ar_sleep_counter a' = ar_sleep_counter a /\
       (a' = a \/ (t < m_free_actor_slot s /\ ar_sim_state a = LOCAL_SIMULATED /\
                   ar_sim_state a' = LOCAL_SLEEPING))) /\
  (forall t, m_actors s !! t = None -> m_actors (sendAllTrucksSleeping s) !! t = None).
Proof.
  split; [apply sendAllTrucksSleeping_fields|]. split; [|split].
  - intros t a Ht. rewrite sendAllTrucksSleeping_lookup, decide_True by done.
    destruct (m_actors s !! t) as [a0|]; [|done]. cbn.
    destruct (bool_decide (ar_sim_state a0 = LOCAL_SIMULATED)) eqn:Hs.
    + by intros [= <-].
    + apply bool_decide_eq_false in Hs. by intros [= <-].
  - intros t a Ha. rewrite sendAllTrucksSleeping_lookup, Ha.
    destruct (decide (t < m_free_actor_slot s)) as [Ht|Ht].
    + cbn. destruct (bool_decide (ar_sim_state a = LOCAL_SIMULATED)) eqn:Hs.
      * apply bool_decide_eq_true in Hs. eexists. split; [done|].
        split; [apply same_body_set_state|]. split; [done|]. right. done.
      * exists a. split; [done|]. split; [apply same_body_refl|]. split; [done|by left].
    + exists a. split; [done|]. split; [apply same_body_refl|]. split; [done|by left].
  - intros t Ha. rewrite sendAllTrucksSleeping_lookup, Ha. by destruct (decide _).
Qed.

Lemma for_each_unchanged {S : Type} (body : nat -> S -> option S) (ts : list nat) (st : S) :
  (forall t, t ∈ ts -> body t st = Some st) -> for_each body ts st = Some st.
Proof.
  induction ts as [|t ts IH]; intros Hb; [done|]. cbn [for_each].
  rewrite Hb by left. apply IH. intros u Hu. apply Hb. by right.
Qed.

(** With nobody at the wheel and no simulated actor below the high-water
    mark a pass has nothing to do. *)
Lemma quiet_pass dt s :
  GetPlayerActorInternal s = None ->
  (forall t a, t < m_free_actor_slot s -> m_actors s !! t = Some a ->
               ar_sim_state a <> LOCAL_SIMULATED) ->
  UpdateSleepingState dt s = s.
Proof.
  intros Hplayer Hquiet.
  assert (Hsleep : sleep_phase dt s = s).
  { unfold sleep_phase. destruct (negb (m_forced_active s)); [|done].
    transitivity (set_m_actors (m_actors s) s); [|apply set_m_actors_id].
    f_equal. apply map_eq. intros t.
    rewrite sleep_loop_lookup. destruct (decide (t < m_free_actor_slot s)) as [Ht|]; [|done].
    destruct (m_actors s !! t) as [a|] eqn:Ha; [|done]. cbn. f_equal.
    unfold sleep_step. rewrite bool_decide_eq_false_2; [done|]. by eapply Hquiet. }
  assert (Hwake : wake_player s = s).
  { unfold wake_player. by rewrite Hplayer. }
  unfold UpdateSleepingState, UpdateSleepingState_visited.
  rewrite Hsleep, Hwake. unfold player_activation. rewrite Hplayer.
  rewrite for_each_unchanged.
  - apply set_m_actors_id.
  - intros t Ht. apply elem_of_seq in Ht. unfold snowball_body. cbn [fst].
    destruct (m_actors s !! t) as [a|] eqn:Ha; [|done].
    rewrite bool_decide_eq_false_2; [done|]. eapply Hquiet; [|done]. lia.
Qed.

(** X15: with nobody at the wheel, the state reached by
    [sendAllTrucksSleeping] is stable: a pass of [UpdateSleepingState]
    leaves the manager exactly as it is, whatever the elapsed time. *)
Theorem sleep_all_is_stable (dt : Q) (s : ActorManager) :
  getTruck (m_player_actor s) s = None ->
  UpdateSleepingState dt (sendAllTrucksSleeping s) = sendAllTrucksSleeping s.
Proof.
  intros Hplayer. apply quiet_pass.
  - unfold GetPlayerActorInternal, getTruck in *.
    change (m_player_actor (sendAllTrucksSleeping s)) with (m_player_actor s).
    change (m_free_actor_slot (sendAllTrucksSleeping s)) with (m_free_actor_slot s).
    destruct (_ && _); [|done]. rewrite sendAllTrucksSleeping_lookup, Hplayer.
    by destruct (decide _).
  - intros t a Ht. change (m_free_actor_slot (sendAllTrucksSleeping s))
      with (m_free_actor_slot s) in Ht.
    rewrite sendAllTrucksSleeping_lookup, decide_True by done.
    destruct (m_actors s !! t) as [a0|]; [|done]. cbn.
    destruct (bool_decide (ar_sim_state a0 = LOCAL_SIMULATED)) eqn:Hs.
    + by intros [= <-].
    + apply bool_decide_eq_false in Hs. by intros [= <-].
Qed.

(** X15, instance: a lone simulated actor, nobody at the wheel. *)
Lemma sleep_all_is_stable_witness :
  UpdateSleepingState 1 (sendAllTrucksSleeping lone_actor_manager)
  = sendAllTrucksSleeping lone_actor_manager.
Proof. apply (sleep_all_is_stable 1 lone_actor_manager). reflexivity. Defined.

Lemma getTruck_occupancy number s m :
  (forall t, is_Some (m !! t) <-> is_Some (m_actors s !! t)) ->
  is_Some (getTruck number (set_m_actors m s)) <-> is_Some (getTruck number s).
Proof.
  intros Hocc. unfold getTruck.
  change (m_free_actor_slot (set_m_actors m s)) with (m_free_actor_slot s).
  destruct (_ && _); [apply Hocc|done].
Qed.

Lemma activateAllTrucks_loop s n :
  let wake_loop :=
    foldl (fun m t => match m !! t with
                      | Some a =>
                          if bool_decide (ar_sim_state a = LOCAL_SLEEPING)
                          then <[t := set_ar_sleep_counter 0
                                        (set_ar_sim_state LOCAL_SIMULATED a)]> m
                          else m
                      | None => m
                      end) (m_actors s) (seq 0 n) in
  foldl (fun (st : gmap nat Actor * list nat) t =>
           let '(m, writes) := st in
           match m !! t with
           | Some a =>
               if bool_decide (ar_sim_state a = LOCAL_SLEEPING)
               then (<[t := set_ar_sleep_counter 0
                              (set_ar_sim_state LOCAL_SIMULATED a)]> m,
                     match getTruck (m_simulated_actor s) (set_m_actors m s) with
                     | Some _ => writes ++ [t]
                     | None => writes
                     end)
               else st
           | None => st
           end)
    (m_actors s, []) (seq 0 n)
  = (wake_loop,
     match getTruck (m_simulated_actor s) s with
     | Some _ =>
         List.filter
           (fun t => match m_actors s !! t with
                     | Some a => bool_decide (ar_sim_state a = LOCAL_SLEEPING)
                     | None => false
                     end) (seq 0 n)
     | None => []
     end).
Proof.
  cbn zeta. induction n as [|n IH].
  - cbn [seq foldl List.filter]. by destruct (getTruck _ _).
  - rewrite !seq_S, !foldl_app, List.filter_app, IH. cbn [foldl Nat.add List.filter].
    set (mn := foldl _ (m_actors s) (seq 0 n)).
    assert (Hlook : forall t, mn !! t =
              if decide (t < n)
              then (fun a => if bool_decide (ar_sim_state a = LOCAL_SLEEPING)
                             then set_ar_sleep_counter 0 (set_ar_sim_state LOCAL_SIMULATED a)
                             else a) <$> m_actors s !! t
              else m_actors s !! t).
    { intros t. apply (update_loop_lookup
        (fun a => bool_decide (ar_sim_state a = LOCAL_SLEEPING))
        (fun a => set_ar_sleep_counter 0 (set_ar_sim_state LOCAL_SIMULATED a))). }
    assert (Hn : mn !! n = m_actors s !! n).
    { rewrite Hlook. by rewrite decide_False by lia. }
    assert (Hocc : is_Some (getTruck (m_simulated_actor s) (set_m_actors mn s))
                   <-> is_Some (getTruck (m_simulated_actor s) s)).
    { apply getTruck_occupancy. intros t. rewrite Hlook.
      destruct (decide _); [|done]. by rewrite fmap_is_Some. }
    rewrite Hn. destruct (m_actors s !! n) as [a|] eqn:Ha.
    + destruct (bool_decide (ar_sim_state a = LOCAL_SLEEPING)).
      * f_equal.
        destruct (getTruck (m_simulated_actor s) (set_m_actors mn s)) as [x|] eqn:E1,
                 (getTruck (m_simulated_actor s) s) as [y|] eqn:E2; try done.
        -- exfalso. destruct (proj1 Hocc ltac:(done)) as [? [=]].
        -- exfalso. destruct (proj2 Hocc ltac:(done)) as [? [=]].
      * f_equal. destruct (getTruck (m_simulated_actor s) s); [|done].
        by rewrite app_nil_r.
    + f_equal. destruct (getTruck (m_simulated_actor s) s); [|done].
      by rewrite app_nil_r.
Qed.

Lemma activateAllTrucks_eq s :
  activateAllTrucks s =
  (set_m_actors
     (foldl (fun m t => match m !! t with
                        | Some a =>
                            if bool_decide (ar_sim_state a = LOCAL_SLEEPING)
                            then <[t := set_ar_sleep_counter 0
                                          (set_ar_sim_state LOCAL_SIMULATED a)]> m
                            else m
                        | None => m
                        end) (m_actors s) (seq 0 (m_free_actor_slot s))) s,
   match getTruck (m_simulated_actor s) s with
   | Some _ => sleeping_slots s
   | None => []
   end).
Proof.
  unfold activateAllTrucks. pose proof (activateAllTrucks_loop s (m_free_actor_slot s)) as H.
  cbn zeta in H. rewrite H. reflexivity.
Qed.

Lemma activateAllTrucks_lookup s t :
  m_actors (activateAllTrucks s).1 !! t =
  if decide (t < m_free_actor_slot s)
  then (fun a => if bool_decide (ar_sim_state a = LOCAL_SLEEPING)
                 then wake a else a) <$> m_actors s !! t
  else m_actors s !! t.
Proof.
  rewrite activateAllTrucks_eq. cbn [fst m_actors set_m_actors].
  apply (update_loop_lookup (fun a => bool_decide (ar_sim_state a = LOCAL_SLEEPING))
           (fun a => set_ar_sleep_counter 0 (set_ar_sim_state LOCAL_SIMULATED a))).
Qed.

(** X16: [activateAllTrucks] wakes every sleeping actor below the
    high-water mark (state [LOCAL_SIMULATED], sleep timer zero) and leaves
    none asleep there; the actors that were not asleep keep their sleep
    timer, and nothing else of the manager changes.  The drag flag is
    overwritten for exactly the actors woken, in slot order, and only when
    [m_simulated_actor] names an actor. *)
Theorem activateAllTrucks_effect (s : ActorManager) :
  (activateAllTrucks s).1 = set_m_actors (m_actors (activateAllTrucks s).1) s /\
  (forall t a, t < m_free_actor_slot s ->
     m_actors (activateAllTrucks s).1 !! t = Some a ->
     ar_sim_state a <> LOCAL_SLEEPING) /\
  (forall t,
     m_actors (activateAllTrucks s).1 !! t =
     (fun a => if bool_decide (t < m_free_actor_slot s /\ ar_sim_state a = LOCAL_SLEEPING)
               then wake a else a) <$> m_actors s !! t) /\
  (activateAllTrucks s).2
  = match getTruck (m_simulated_actor s) s with
    | Some _ => sleeping_slots s
    | None => []
    end.
Proof.
  split; [by rewrite activateAllTrucks_eq|]. split; [|split].
  - intros t a Ht. rewrite activateAllTrucks_lookup, decide_True by done.
    destruct (m_actors s !! t) as [a0|]; [|done]. cbn.
    destruct (bool_decide (ar_sim_state a0 = LOCAL_SLEEPING)) eqn:Hs.
    + by intros [= <-].
    + apply bool_decide_eq_false in Hs. by intros [= <-].
  - intros t. rewrite activateAllTrucks_lookup.
    destruct (m_actors s !! t) as [a|]; [|by destruct (decide _)]. cbn.
    destruct (decide (t < m_free_actor_slot s)) as [Ht|Ht]; cbn; f_equal.
    + destruct (bool_decide (ar_sim_state a = LOCAL_SLEEPING)) eqn:Hs.
      * apply bool_decide_eq_true in Hs. by rewrite bool_decide_eq_true_2.
      * apply bool_decide_eq_false in Hs. rewrite bool_decide_eq_false_2; [done|].
        by intros [_ ?].
    + rewrite bool_decide_eq_false_2; [done|]. by intros [? _].
  - by rewrite activateAllTrucks_eq.
Qed.

(** X17: [sendAllTrucksSleeping] followed by [activateAllTrucks] resets the
    local actors below the high-water mark: each one comes out simulated
    with a sleep timer of zero, whatever its state and timer were. *)
Theorem sleep_then_activate_resets (s : ActorManager) (t : nat) (a : Actor) :
  t < m_free_actor_slot s -> m_actors s !! t = Some a -> is_local a ->
  m_actors (activateAllTrucks (sendAllTrucksSleeping s)).1 !! t = Some (wake a).
Proof.
  intros Ht Ha Hl. rewrite activateAllTrucks_lookup.
  change (m_free_actor_slot (sendAllTrucksSleeping s)) with (m_free_actor_slot s).
  rewrite decide_True by done.
  rewrite sendAllTrucksSleeping_lookup, decide_True by done. rewrite Ha. cbn. f_equal.
  destruct Hl as [Hs|Hs].
  - rewrite (bool_decide_eq_true_2 _ Hs). cbn.
    rewrite bool_decide_eq_true_2 by done. reflexivity.
  - rewrite (bool_decide_eq_false_2 (ar_sim_state a = LOCAL_SIMULATED)) by congruence.
    by rewrite (bool_decide_eq_true_2 _ Hs).
Qed.

(** X17, instance: the moving player actor of the chain of three, with
    its timer at 0, and the actor next to it, asleep for 11 s. *)
Lemma sleep_then_activate_resets_witness :
  m_actors (activateAllTrucks (sendAllTrucksSleeping chain_manager)).1 !! 1
  = Some (wake actor_B).
Proof. apply (sleep_then_activate_resets chain_manager 1 actor_B); [simpl; lia|reflexivity|by right]. Defined.

(** * Actors in a collision box *)

Section BoxLookup.

Variables (actors : gmap nat Actor) (isInside : nat -> bool).

Lemma inside_in_nil a0 t : ~ inside_in actors isInside a0 0 t.
Proof. intros [Ht _]. lia. Qed.

Lemma inside_in_cons a0 len t :
  inside_in actors isInside a0 (S len) t <->
  (t = a0 /\ is_Some (actors !! a0) /\ isInside a0 = true) \/
  inside_in actors isInside (S a0) len t.
Proof.
  unfold inside_in. split.
  - intros (Ht & Ha & Hi). destruct (decide (t = a0)) as [->|Hne]; [by left|].
    right. split; [lia|done].
  - intros [(-> & Ha & Hi)|(Ht & Ha & Hi)]; (split; [lia|done]).
Qed.

(** After a first actor was found in slot [i], any further one makes the
    answer -1. *)
Lemma FindTruckInsideBox_loop_found (i : nat) len : forall a0,
  ((forall t, ~ inside_in actors isInside a0 len t) /\
   FindTruckInsideBox_loop actors isInside (Z.of_nat i) (seq a0 len) = Z.of_nat i) \/
  ((exists t, inside_in actors isInside a0 len t) /\
   FindTruckInsideBox_loop actors isInside (Z.of_nat i) (seq a0 len) = (-1)%Z).
Proof.
  induction len as [|len IH]; intros a0; cbn [seq FindTruckInsideBox_loop].
  - left. split; [apply inside_in_nil|done].
  - assert (Hskip : ~ (is_Some (actors !! a0) /\ isInside a0 = true) ->
      ((forall t, ~ inside_in actors isInside a0 (S len) t) /\
       FindTruckInsideBox_loop actors isInside (Z.of_nat i) (seq (S a0) len) = Z.of_nat i) \/
      ((exists t, inside_in actors isInside a0 (S len) t) /\
       FindTruckInsideBox_loop actors isInside (Z.of_nat i) (seq (S a0) len) = (-1)%Z)).
    { intros Hno. destruct (IH (S a0)) as [[Hnone Hr]|[(t & Ht) Hr]].
      - left. split; [|done]. intros t [(-> & H)|H]%inside_in_cons; [done|by apply (Hnone t)].
      - right. split; [|done]. exists t. apply inside_in_cons. by right. }
    destruct (actors !! a0) as [a|] eqn:Ha.
    + destruct (isInside a0) eqn:Hi.
      * rewrite bool_decide_eq_false_2 by lia. right. split; [|done].
        exists a0. apply inside_in_cons. left. by rewrite Ha.
      * apply Hskip. by intros [_ ?].
    + apply Hskip. intros [[? [=]] _].
Qed.

(** Before any actor was found: none, exactly one, or at least two in the
    range. *)
Lemma FindTruckInsideBox_loop_spec len : forall a0,
  ((forall t, ~ inside_in actors isInside a0 len t) /\
   FindTruckInsideBox_loop actors isInside (-1) (seq a0 len) = (-1)%Z) \/
  (exists t, inside_in actors isInside a0 len t /\
     (forall u, inside_in actors isInside a0 len u -> u = t) /\
     FindTruckInsideBox_loop actors isInside (-1) (seq a0 len) = Z.of_nat t) \/
  ((exists t u, t <> u /\ inside_in actors isInside a0 len t /\
                inside_in actors isInside a0 len u) /\
   FindTruckInsideBox_loop actors isInside (-1) (seq a0 len) = (-1)%Z).
Proof.
  induction len as [|len IH]; intros a0; cbn [seq FindTruckInsideBox_loop].
  - left. split; [apply inside_in_nil|done].
  - assert (Hskip : ~ (is_Some (actors !! a0) /\ isInside a0 = true) ->
      ((forall t, ~ inside_in actors isInside a0 (S len) t) /\
       FindTruckInsideBox_loop actors isInside (-1) (seq (S a0) len) = (-1)%Z) \/
      (exists t, inside_in actors isInside a0 (S len) t /\
         (forall u, inside_in actors isInside a0 (S len) u -> u = t) /\
         FindTruckInsideBox_loop actors isInside (-1) (seq (S a0) len) = Z.of_nat t) \/
      ((exists t u, t <> u /\ inside_in actors isInside a0 (S len) t /\
                    inside_in actors isInside a0 (S len) u) /\
       FindTruckInsideBox_loop actors isInside (-1) (seq (S a0) len) = (-1)%Z)).
    { intros Hno.
      assert (Hsame : forall t, inside_in actors isInside a0 (S len) t <->
                                inside_in actors isInside (S a0) len t).
      { intros t. rewrite inside_in_cons. split; [|by right].
        intros [(-> & H)|H]; [done|done]. }
      destruct (IH (S a0)) as [[Hnone Hr]|[(t & Ht & Huniq & Hr)|[(t & u & Hne & Ht & Hu) Hr]]].
      - left. split; [|done]. intros t Ht. apply (Hnone t). by apply Hsame.
      - right. left. exists t. split; [by apply Hsame|]. split; [|done].
        intros u Hu. apply Huniq. by apply Hsame.
      - right. right. split; [|done]. exists t, u. split; [done|].
        split; by apply Hsame. }
    destruct (actors !! a0) as [a|] eqn:Ha.
    + destruct (isInside a0) eqn:Hi.
      * rewrite bool_decide_eq_true_2 by done.
        assert (Hin0 : inside_in actors isInside a0 (S len) a0).
        { apply inside_in_cons. left. by rewrite Ha. }
        destruct (FindTruckInsideBox_loop_found a0 len (S a0)) as [[Hnone Hr]|[(t & Ht) Hr]].
        -- right. left. exists a0. split; [done|]. split; [|done].
           intros u [(-> & _)|Hu]%inside_in_cons; [done|]. by destruct (Hnone u).
        -- right. right. split; [|done]. exists a0, t. split.
           ++ destruct Ht as [Ht _]. lia.
           ++ split; [done|]. apply inside_in_cons. by right.
      * apply Hskip. by intros [_ ?].
    + apply Hskip. intros [[? [=]] _].
Qed.

End BoxLookup.

(** X18: [FindTruckInsideBox] returns the slot of the actor in the box when
    exactly one actor below the high-water mark is in it, and -1 in every
    other case: no actor in the box, or two or more. *)
Theorem FindTruckInsideBox_unique (isInside : nat -> bool) (s : ActorManager) :
  (forall t, FindTruckInsideBox isInside s = Z.of_nat t <->
     inside_slot isInside s t /\ forall u, inside_slot isInside s u -> u = t) /\
  (FindTruckInsideBox isInside s = (-1)%Z <->
     ~ exists t, inside_slot isInside s t /\ forall u, inside_slot isInside s u -> u = t).
Proof.
  unfold FindTruckInsideBox, inside_slot.
  destruct (FindTruckInsideBox_loop_spec (m_actors s) isInside (m_free_actor_slot s) 0)
    as [[Hnone ->]|[(t & Ht & Huniq & ->)|[(t & u & Hne & Ht & Hu) ->]]].
  - split.
    + intros t. split; [lia|]. intros [Ht _]. by destruct (Hnone t).
    + split; [|done]. intros _ (t & Ht & _). by destruct (Hnone t).
  - split.
    + intros t'. split.
      * intros E. assert (t' = t) as -> by lia. done.
      * intros [Ht' _]. f_equal. symmetry. by apply Huniq.
    + split; [lia|]. intros Hn. exfalso. apply Hn. by exists t.
  - split.
    + intros t'. split; [lia|]. intros [_ Huniq]. exfalso. apply Hne.
      by rewrite (Huniq t Ht), (Huniq u Hu).
    + split; [|done]. intros _ (t' & _ & Huniq). apply Hne.
      by rewrite (Huniq t Ht), (Huniq u Hu).
Qed.




Lemma registry_wf_forallb s :
  forallb (fun '(t, a) => (t <? m_free_actor_slot s) && (ar_instance_id a =? t))
    (map_to_list (m_actors s)) = true ->
  registry_wf s.
Proof.
  intros H t a Ha. rewrite forallb_forall in H.
  specialize (H (t, a)). cbn in H.
  assert (Hin : In (t, a) (map_to_list (m_actors s))).
  { apply list_elem_of_In. by apply elem_of_map_to_list. }
  apply H in Hin. apply andb_true_iff in Hin. destruct Hin as [H1 H2].
  apply Nat.ltb_lt in H1. apply Nat.eqb_eq in H2. done.
Qed.


Lemma FindTruckInsideBox_cases isInside s :
  ((~ exists t, inside_slot isInside s t /\ forall u, inside_slot isInside s u -> u = t)
   /\ FindTruckInsideBox isInside s = (-1)%Z) \/
  (exists t, inside_slot isInside s t /\ (forall u, inside_slot isInside s u -> u = t) /\
             FindTruckInsideBox isInside s = Z.of_nat t).
Proof.
  unfold FindTruckInsideBox, inside_slot.
  destruct (FindTruckInsideBox_loop_spec (m_actors s) isInside (m_free_actor_slot s) 0)
    as [[Hnone ->]|[(t & Ht & Huniq & ->)|[(t & u & Hne & Ht & Hu) ->]]].
  - left. split; [|done]. intros (t & Ht & _). by destruct (Hnone t).
  - right. by exists t.
  - left. split; [|done]. intros (t' & _ & Huniq). apply Hne.
    by rewrite (Huniq t Ht), (Huniq u Hu).
Qed.

(** X20: on a well-formed registry [RemoveActorByCollisionBox] deletes an
    actor only when it is the single actor in the box and is not networked:
    then its slot is emptied.  With no actor in the box, with two or more,
    or with a networked one the manager stays as it is. *)
Theorem RemoveActorByCollisionBox_single_local (isInside : nat -> bool)
    (s : ActorManager) :
  registry_wf s ->
  ((~ exists t, inside_slot isInside s t /\ forall u, inside_slot isInside s u -> u = t) ->
   RemoveActorByCollisionBox isInside s = s) /\
  (forall t a, inside_slot isInside s t -> (forall u, inside_slot isInside s u -> u = t) ->
     m_actors s !! t = Some a ->
     if bool_decide (ar_sim_state a = NETWORKED_OK)
     then RemoveActorByCollisionBox isInside s = s
     else RemoveActorByCollisionBox isInside s = DeleteTruck (Some a) s /\
          m_actors (RemoveActorByCollisionBox isInside s) !! t = None).
Proof.
  intros Hwf. unfold RemoveActorByCollisionBox.
  destruct (FindTruckInsideBox_cases isInside s) as [[Hno ->]|(t & Ht & Huniq & ->)].
  - split; [done|]. intros t a Ht Huniq. exfalso. apply Hno. by exists t.
  - split.
    + intros Hno. exfalso. apply Hno. by exists t.
    + intros t' a Ht' _ Ha. assert (t' = t) as -> by by apply Huniq.
      destruct (Hwf t a Ha) as [Hlt Hid].
      unfold removeTruck.
      rewrite (bool_decide_eq_false_2 (Z.of_nat t < 0)%Z) by lia.
      rewrite (bool_decide_eq_false_2 (Z.of_nat (m_free_actor_slot s) < Z.of_nat t)%Z) by lia.
      cbn [orb]. rewrite Nat2Z.id, Ha.
      destruct (bool_decide (ar_sim_state a = NETWORKED_OK)); [done|].
      split; [done|]. rewrite <- Hid. apply DeleteTruck_cleared.
Qed.

(** X20, instance: of the four actors of [remote_manager] only the sleeping
    local one of slot 1 is in the box. *)
Lemma RemoveActorByCollisionBox_single_local_witness :
  RemoveActorByCollisionBox (Nat.eqb 1) remote_manager
  = DeleteTruck (m_actors remote_manager !! 1) remote_manager /\
  m_actors (RemoveActorByCollisionBox (Nat.eqb 1) remote_manager) !! 1 = None.
Proof.
  refine (proj2 (RemoveActorByCollisionBox_single_local (Nat.eqb 1) remote_manager _)
            1 (example_actor 1 LOCAL_SLEEPING 11 0 (box_x 1 3)) _ _ _).
  - apply registry_wf_forallb. vm_compute. reflexivity.
  - split; [simpl; lia|]. split; [by eexists|reflexivity].
  - intros u (Hu & _ & Hi). by apply Nat.eqb_eq in Hi.
  - reflexivity.
Defined.

(** * Cycling through the actors *)

Lemma GetMostRecentTruckSlot_range s :
  GetMostRecentTruckSlot s = (-1)%Z \/
  ((0 <= GetMostRecentTruckSlot s < Z.of_nat (m_free_actor_slot s))%Z /\
   is_Some (m_actors s !! Z.to_nat (GetMostRecentTruckSlot s))).
Proof.
  unfold GetMostRecentTruckSlot.
  destruct (getTruck (m_player_actor s) s) as [a|] eqn:Hp.
  - right. apply getTruck_Some in Hp. destruct Hp as [? Ha]. by rewrite Ha.
  - destruct (getTruck (m_prev_player_actor s) s) as [a|] eqn:Hq; [|by left].
    right. apply getTruck_Some in Hq. destruct Hq as [? Ha]. by rewrite Ha.
Qed.

Section Cycling.

Variables (isPreloadedWithTerrain : nat -> bool) (s : ActorManager).

Lemma enter_first_seq_cases len : forall a,
  (enter_first isPreloadedWithTerrain s (seq a len) = None /\
   forall i, a <= i < a + len -> can_enter isPreloadedWithTerrain s i = false) \/
  (exists j, a <= j < a + len /\ can_enter isPreloadedWithTerrain s j = true /\
             (forall i, a <= i < j -> can_enter isPreloadedWithTerrain s i = false) /\
             enter_first isPreloadedWithTerrain s (seq a len) = Some (setCurrentTruck (Z.of_nat j) s)).
Proof.
  induction len as [|len IH]; intros a; cbn [seq enter_first].
  - left. split; [done|]. intros i Hi. lia.
  - destruct (can_enter isPreloadedWithTerrain s a) eqn:Ha.
    + right. exists a. split; [lia|]. split; [done|]. split; [|done]. intros i Hi. lia.
    + destruct (IH (S a)) as [[Hn Hall]|(j & Hj & Hc & Hmin & Hr)].
      * left. split; [done|]. intros i Hi.
        destruct (decide (i = a)) as [->|]; [done|]. apply Hall. lia.
      * right. exists j. split; [lia|]. split; [done|]. split; [|done].
        intros i Hi. destruct (decide (i = a)) as [->|]; [done|]. apply Hmin. lia.
Qed.

Lemma enter_first_rev_seq_cases len : forall a,
  (enter_first isPreloadedWithTerrain s (rev (seq a len)) = None /\
   forall i, a <= i < a + len -> can_enter isPreloadedWithTerrain s i = false) \/
  (exists j, a <= j < a + len /\ can_enter isPreloadedWithTerrain s j = true /\
             (forall i, j < i < a + len -> can_enter isPreloadedWithTerrain s i = false) /\
             enter_first isPreloadedWithTerrain s (rev (seq a len)) = Some (setCurrentTruck (Z.of_nat j) s)).
Proof.
  induction len as [|len IH]; intros a.
  - left. split; [done|]. intros i Hi. lia.
  - rewrite seq_S, rev_app_distr. cbn [rev app enter_first].
    destruct (can_enter isPreloadedWithTerrain s (a + len)) eqn:Ha.
    + right. exists (a + len). split; [lia|]. split; [done|]. split; [|done].
      intros i Hi. lia.
    + destruct (IH a) as [[Hn Hall]|(j & Hj & Hc & Hmin & Hr)].
      * left. split; [done|]. intros i Hi.
        destruct (decide (i = a + len)) as [->|]; [done|]. apply Hall. lia.
      * right. exists j. split; [lia|]. split; [done|]. split; [|done].
        intros i Hi. destruct (decide (i = a + len)) as [->|]; [done|]. apply Hmin. lia.
Qed.

Lemma slots_between_cases (lo hi : Z) :
  (0 <= lo)%Z ->
  (enter_first isPreloadedWithTerrain s (slots_between lo hi) = None /\
   none_enterable isPreloadedWithTerrain s lo hi) \/
  (exists j, (lo <= Z.of_nat j < hi)%Z /\ can_enter isPreloadedWithTerrain s j = true /\
             none_enterable isPreloadedWithTerrain s lo (Z.of_nat j) /\
             enter_first isPreloadedWithTerrain s (slots_between lo hi)
             = Some (setCurrentTruck (Z.of_nat j) s)).
Proof.
  intros Hlo. unfold slots_between.
  destruct (enter_first_seq_cases (Z.to_nat hi - Z.to_nat lo) (Z.to_nat lo))
    as [[Hn Hall]|(j & Hj & Hc & Hmin & Hr)].
  - left. split; [done|]. intros i Hi. apply Hall. lia.
  - right. exists j. split; [lia|]. split; [done|]. split; [|done].
    intros i Hi. apply Hmin. lia.
Qed.

Lemma rev_slots_between_cases (lo hi : Z) :
  (0 <= lo)%Z ->
  (enter_first isPreloadedWithTerrain s (rev (slots_between lo hi)) = None /\
   none_enterable isPreloadedWithTerrain s lo hi) \/
  (exists j, (lo <= Z.of_nat j < hi)%Z /\ can_enter isPreloadedWithTerrain s j = true /\
             none_enterable isPreloadedWithTerrain s (Z.of_nat j + 1) hi /\
             enter_first isPreloadedWithTerrain s (rev (slots_between lo hi))
             = Some (setCurrentTruck (Z.of_nat j) s)).
Proof.
  intros Hlo. unfold slots_between.
  destruct (enter_first_rev_seq_cases (Z.to_nat hi - Z.to_nat lo) (Z.to_nat lo))
    as [[Hn Hall]|(j & Hj & Hc & Hmin & Hr)].
  - left. split; [done|]. intros i Hi. apply Hall. lia.
  - right. exists j. split; [lia|]. split; [done|]. split; [|done].
    intros i Hi. apply Hmin. lia.
Qed.

Lemma can_enter_below i : can_enter isPreloadedWithTerrain s i = true -> is_Some (m_actors s !! i).
Proof. unfold can_enter. destruct (m_actors s !! i); [by eexists|done]. Qed.

(** A pivot of -1 leaves an empty second loop. *)
Lemma slots_between_none_pivot : slots_between 0 (-1) = [].
Proof. reflexivity. Qed.

Lemma enterNextTruck_cases :
  (none_enterable isPreloadedWithTerrain s 0 (Z.of_nat (m_free_actor_slot s)) /\
   enterNextTruck isPreloadedWithTerrain s = s) \/
  (exists j, is_next isPreloadedWithTerrain s (GetMostRecentTruckSlot s) j /\
             enterNextTruck isPreloadedWithTerrain s = setCurrentTruck (Z.of_nat j) s).
Proof.
  unfold enterNextTruck. cbn zeta.
  set (p := GetMostRecentTruckSlot s).
  assert (Hp : (p = -1 \/ 0 <= p < Z.of_nat (m_free_actor_slot s))%Z).
  { destruct (GetMostRecentTruckSlot_range s) as [?|[? _]]; [by left|by right]. }
  destruct (slots_between_cases (p + 1) (Z.of_nat (m_free_actor_slot s)) ltac:(lia))
    as [[-> Hup]|(j & Hj & Hc & Hmin & ->)].
  2:{ right. exists j. split; [|done]. split; [done|]. split; [lia|]. left.
      split; [lia|done]. }
  destruct (slots_between_cases 0 p ltac:(lia)) as [[-> Hdown]|(j & Hj & Hc & Hmin & ->)].
  2:{ right. exists j. split; [|done]. split; [done|]. split; [lia|]. right. left.
      split; [lia|done]. }
  destruct (bool_decide (0 <= p)%Z) eqn:H0; cbn [andb].
  - apply bool_decide_eq_true in H0.
    destruct (can_enter isPreloadedWithTerrain s (Z.to_nat p)) eqn:Hc.
    + right. exists (Z.to_nat p). rewrite Z2Nat.id by done. split; [|done].
      split; [done|]. split; [lia|]. right. right. rewrite Z2Nat.id by done. done.
    + left. split; [|done]. intros i Hi.
      destruct (decide (Z.of_nat i < p)%Z); [apply Hdown; lia|].
      destruct (decide (p < Z.of_nat i)%Z); [apply Hup; lia|].
      assert (i = Z.to_nat p) as -> by lia. done.
  - apply bool_decide_eq_false in H0. left. split; [|done].
    intros i Hi. apply Hup. lia.
Qed.

Lemma enterPreviousTruck_cases :
  (none_enterable isPreloadedWithTerrain s 0 (Z.of_nat (m_free_actor_slot s)) /\
   enterPreviousTruck isPreloadedWithTerrain s = s) \/
  (exists j, is_previous isPreloadedWithTerrain s (GetMostRecentTruckSlot s) j /\
             enterPreviousTruck isPreloadedWithTerrain s = setCurrentTruck (Z.of_nat j) s).
Proof.
  unfold enterPreviousTruck. cbn zeta.
  set (p := GetMostRecentTruckSlot s).
  assert (Hp : (p = -1 \/ 0 <= p < Z.of_nat (m_free_actor_slot s))%Z).
  { destruct (GetMostRecentTruckSlot_range s) as [?|[? _]]; [by left|by right]. }
  destruct (rev_slots_between_cases 0 p ltac:(lia)) as [[-> Hdown]|(j & Hj & Hc & Hmin & ->)].
  2:{ right. exists j. split; [|done]. split; [done|]. split; [lia|]. left.
      split; [lia|done]. }
  destruct (rev_slots_between_cases (p + 1) (Z.of_nat (m_free_actor_slot s)) ltac:(lia))
    as [[-> Hup]|(j & Hj & Hc & Hmin & ->)].
  2:{ right. exists j. split; [|done]. split; [done|]. split; [lia|]. right. left.
      split; [lia|done]. }
  destruct (bool_decide (0 <= p)%Z) eqn:H0; cbn [andb].
  - apply bool_decide_eq_true in H0.
    destruct (can_enter isPreloadedWithTerrain s (Z.to_nat p)) eqn:Hc.
    + right. exists (Z.to_nat p). rewrite Z2Nat.id by done. split; [|done].
      split; [done|]. split; [lia|]. right. right. rewrite Z2Nat.id by done. done.
    + left. split; [|done]. intros i Hi.
      destruct (decide (Z.of_nat i < p)%Z); [apply Hdown; lia|].
      destruct (decide (p < Z.of_nat i)%Z); [apply Hup; lia|].
      assert (i = Z.to_nat p) as -> by lia. done.
  - apply bool_decide_eq_false in H0. left. split; [|done].
    intros i Hi. apply Hup. lia.
Qed.

End Cycling.

Lemma setCurrentTruck_prev new_truck s :
  m_prev_player_actor (setCurrentTruck new_truck s) = m_player_actor s.
Proof. by rewrite setCurrentTruck_eq. Qed.

Lemma sleep_wake_step_networked_iff a a' :
  sleep_wake_step a a' ->
  (ar_sim_state a' = NETWORKED_OK <-> ar_sim_state a = NETWORKED_OK).
Proof.
  intros Hst. split; intros Hn.
  - by rewrite <- (sleep_wake_step_networked a a' Hst Hn).
  - by rewrite (sleep_wake_step_networked_fwd a a' Hst Hn).
Qed.

Lemma can_enter_setCurrentTruck isPreloadedWithTerrain new_truck s i :
  can_enter isPreloadedWithTerrain (setCurrentTruck new_truck s) i
  = can_enter isPreloadedWithTerrain s i.
Proof.
  unfold can_enter. pose proof (setCurrentTruck_lookup new_truck s i) as H.
  destruct (m_actors s !! i) as [a|].
  - apply option_Forall2_Some_l in H. destruct H as (a' & -> & Hst).
    f_equal. f_equal. apply bool_decide_ext. by apply sleep_wake_step_networked_iff.
  - apply option_Forall2_None_l in H. by rewrite H.
Qed.

Lemma none_enterable_setCurrentTruck isPreloadedWithTerrain new_truck s lo hi :
  none_enterable isPreloadedWithTerrain (setCurrentTruck new_truck s) lo hi <->
  none_enterable isPreloadedWithTerrain s lo hi.
Proof.
  unfold none_enterable.
  split; intros H i Hi; specialize (H i Hi); by rewrite can_enter_setCurrentTruck in *.
Qed.

Lemma setCurrentTruck_mark new_truck s :
  m_free_actor_slot (setCurrentTruck new_truck s) = m_free_actor_slot s.
Proof. apply setCurrentTruck_fields. Qed.

Lemma setCurrentTruck_player new_truck s :
  m_player_actor (setCurrentTruck new_truck s) = new_truck.
Proof. apply setCurrentTruck_fields. Qed.

Lemma setCurrentTruck_is_Some new_truck s i :
  is_Some (m_actors (setCurrentTruck new_truck s) !! i) <-> is_Some (m_actors s !! i).
Proof.
  pose proof (setCurrentTruck_lookup new_truck s i) as H.
  destruct (m_actors s !! i) as [a|].
  - apply option_Forall2_Some_l in H. destruct H as (a' & -> & _). split; by eexists.
  - apply option_Forall2_None_l in H. by rewrite H.
Qed.

(** After entering an actor below the mark, its slot is the most recent
    one. *)
Lemma GetMostRecentTruckSlot_entered s j :
  j < m_free_actor_slot s -> is_Some (m_actors s !! j) ->
  GetMostRecentTruckSlot (setCurrentTruck (Z.of_nat j) s) = Z.of_nat j.
Proof.
  intros Hj Ha. unfold GetMostRecentTruckSlot.
  rewrite setCurrentTruck_player.
  assert (Hg : is_Some (getTruck (Z.of_nat j) (setCurrentTruck (Z.of_nat j) s))).
  { unfold getTruck. rewrite setCurrentTruck_mark.
    rewrite !bool_decide_eq_true_2 by lia. cbn [andb]. rewrite Nat2Z.id.
    by apply setCurrentTruck_is_Some. }
  by destruct Hg as [a ->].
Qed.

Lemma GetMostRecentTruckSlot_player s a :
  getTruck (m_player_actor s) s = Some a -> GetMostRecentTruckSlot s = m_player_actor s.
Proof. intros H. unfold GetMostRecentTruckSlot. by rewrite H. Qed.

(** Closes a goal in which a slot passes the test inside a range that
    holds no such slot. *)
Ltac enterable_clash :=
  match goal with
  | H : none_enterable _ _ _ _, Hc : can_enter _ _ ?i = true |- _ =>
      let E := fresh in
      assert (E : can_enter _ _ i = false) by (apply H; lia);
      rewrite E in Hc; discriminate
  end.

(** At most one slot can be the next (the previous) one. *)
Lemma is_next_unique f s p j j' : is_next f s p j -> is_next f s p j' -> j = j'.
Proof.
  intros (Hc & Hj & H) (Hc' & Hj' & H').
  destruct (decide (j = j')) as [|Hne]; [done|]. exfalso.
  assert (j < j' \/ j' < j) as [?|?] by lia.
  all: destruct H as [[? ?]|[(? & ? & ?)|(? & ? & ?)]],
                H' as [[? ?]|[(? & ? & ?)|(? & ? & ?)]];
    try lia; enterable_clash.
Qed.

Lemma is_previous_unique f s p j j' : is_previous f s p j -> is_previous f s p j' -> j = j'.
Proof.
  intros (Hc & Hj & H) (Hc' & Hj' & H').
  destruct (decide (j = j')) as [|Hne]; [done|]. exfalso.
  assert (j < j' \/ j' < j) as [?|?] by lia.
  all: destruct H as [[? ?]|[(? & ? & ?)|(? & ? & ?)]],
                H' as [[? ?]|[(? & ? & ?)|(? & ? & ?)]];
    try lia; enterable_clash.
Qed.

Lemma is_next_back f s p j :
  is_next f s (Z.of_nat p) j -> can_enter f s p = true -> p < m_free_actor_slot s ->
  is_previous f s (Z.of_nat j) p.
Proof.
  intros (Hc & Hj & H) Hp Hlt. split; [done|]. split; [done|].
  destruct H as [[? ?]|[(? & ? & ?)|(? & ? & ?)]].
  - left. split; [lia|]. intros i Hi. apply H0. lia.
  - right. left. split; [lia|]. split; [done|]. intros i Hi. apply H0. lia.
  - right. right. assert (j = p) as -> by lia. done.
Qed.

Lemma is_previous_back f s p j :
  is_previous f s (Z.of_nat p) j -> can_enter f s p = true -> p < m_free_actor_slot s ->
  is_next f s (Z.of_nat j) p.
Proof.
  intros (Hc & Hj & H) Hp Hlt. split; [done|]. split; [done|].
  destruct H as [[? ?]|[(? & ? & ?)|(? & ? & ?)]].
  - left. split; [lia|]. intros i Hi. apply H0. lia.
  - right. left. split; [lia|]. split; [|done]. intros i Hi. apply H1. lia.
  - right. right. assert (j = p) as -> by lia. done.
Qed.

Lemma is_next_setCurrentTruck f new_truck s p j :
  is_next f (setCurrentTruck new_truck s) p j <-> is_next f s p j.
Proof.
  unfold is_next. rewrite can_enter_setCurrentTruck, setCurrentTruck_mark.
  by rewrite !none_enterable_setCurrentTruck.
Qed.

Lemma is_previous_setCurrentTruck f new_truck s p j :
  is_previous f (setCurrentTruck new_truck s) p j <-> is_previous f s p j.
Proof.
  unfold is_previous. rewrite can_enter_setCurrentTruck, setCurrentTruck_mark.
  by rewrite !none_enterable_setCurrentTruck.
Qed.

Lemma can_enter_true f s j :
  can_enter f s j = true ->
  exists a, m_actors s !! j = Some a /\ ar_sim_state a <> NETWORKED_OK /\ f j = false.
Proof.
  unfold can_enter. destruct (m_actors s !! j) as [a|]; [|done].
  intros [Hn Hf]%andb_true_iff. exists a. split; [done|].
  apply negb_true_iff in Hn. apply bool_decide_eq_false in Hn.
  apply negb_true_iff in Hf. done.
Qed.

(** X21: [enterNextTruck] enters the first actor that is neither networked
    nor preloaded with the terrain, walking the slots below the high-water
    mark upwards from the one after the most recent player slot, around
    the end and back to that slot itself; the actor left becomes the
    previous player actor.  When no slot below the mark holds such an
    actor the manager stays as it is. *)
Theorem enterNextTruck_selects (isPreloadedWithTerrain : nat -> bool) (s : ActorManager) :
  (none_enterable isPreloadedWithTerrain s 0 (Z.of_nat (m_free_actor_slot s)) /\
   enterNextTruck isPreloadedWithTerrain s = s) \/
  (exists j a, is_next isPreloadedWithTerrain s (GetMostRecentTruckSlot s) j /\
     m_actors s !! j = Some a /\ ar_sim_state a <> NETWORKED_OK /\
     isPreloadedWithTerrain j = false /\
     enterNextTruck isPreloadedWithTerrain s = setCurrentTruck (Z.of_nat j) s /\
     m_player_actor (enterNextTruck isPreloadedWithTerrain s) = Z.of_nat j /\
     m_prev_player_actor (enterNextTruck isPreloadedWithTerrain s) = m_player_actor s).
Proof.
  destruct (enterNextTruck_cases isPreloadedWithTerrain s) as [?|(j & Hj & E)]; [by left|].
  right. destruct (can_enter_true _ _ _ (proj1 Hj)) as (a & Ha & Hn & Hf).
  exists j, a. rewrite E, setCurrentTruck_player, setCurrentTruck_prev. done.
Qed.

(** X22: [enterPreviousTruck] does the same walking downwards: from the
    slot before the most recent player slot down to 0, then from the
    high-water mark down, and last that slot itself. *)
Theorem enterPreviousTruck_selects (isPreloadedWithTerrain : nat -> bool)
    (s : ActorManager) :
  (none_enterable isPreloadedWithTerrain s 0 (Z.of_nat (m_free_actor_slot s)) /\
   enterPreviousTruck isPreloadedWithTerrain s = s) \/
  (exists j a, is_previous isPreloadedWithTerrain s (GetMostRecentTruckSlot s) j /\
     m_actors s !! j = Some a /\ ar_sim_state a <> NETWORKED_OK /\
     isPreloadedWithTerrain j = false /\
     enterPreviousTruck isPreloadedWithTerrain s = setCurrentTruck (Z.of_nat j) s /\
     m_player_actor (enterPreviousTruck isPreloadedWithTerrain s) = Z.of_nat j /\
     m_prev_player_actor (enterPreviousTruck isPreloadedWithTerrain s) = m_player_actor s).
Proof.
  destruct (enterPreviousTruck_cases isPreloadedWithTerrain s) as [?|(j & Hj & E)];
    [by left|].
  right. destruct (can_enter_true _ _ _ (proj1 Hj)) as (a & Ha & Hn & Hf).
  exists j, a. rewrite E, setCurrentTruck_player, setCurrentTruck_prev. done.
Qed.

(** X23: when the player sits in an actor that can be entered, going to
    the next actor and then to the previous one leads back to it, and so
    does going to the previous one and then to the next. *)
Theorem enter_next_previous_round_trip (isPreloadedWithTerrain : nat -> bool)
    (s : ActorManager) (a : Actor) :
  getTruck (m_player_actor s) s = Some a ->
  can_enter isPreloadedWithTerrain s (Z.to_nat (m_player_actor s)) = true ->
  m_player_actor (enterPreviousTruck isPreloadedWithTerrain
                    (enterNextTruck isPreloadedWithTerrain s)) = m_player_actor s /\
  m_player_actor (enterNextTruck isPreloadedWithTerrain
                    (enterPreviousTruck isPreloadedWithTerrain s)) = m_player_actor s.
Proof.
  intros Hplayer Hcan.
  pose proof (GetMostRecentTruckSlot_player s a Hplayer) as Hpivot.
  apply getTruck_Some in Hplayer. destruct Hplayer as [Hrange Ha].
  set (p := Z.to_nat (m_player_actor s)) in *.
  assert (Hp : m_player_actor s = Z.of_nat p) by lia.
  assert (Hlt : p < m_free_actor_slot s) by lia.
  assert (Hsome : ~ none_enterable isPreloadedWithTerrain s 0
                      (Z.of_nat (m_free_actor_slot s))).
  { intros Hnone. rewrite (Hnone p) in Hcan by lia. done. }
  split.
  - destruct (enterNextTruck_cases isPreloadedWithTerrain s) as [[? _]|(j & Hj & ->)];
      [done|].
    rewrite Hpivot, Hp in Hj.
    pose proof (is_next_back _ _ _ _ Hj Hcan Hlt) as Hback.
    destruct Hj as (Hcj & Hjlt & _).
    destruct (enterPreviousTruck_cases isPreloadedWithTerrain
                (setCurrentTruck (Z.of_nat j) s)) as [[Hnone _]|(j' & Hj' & ->)].
    + exfalso. apply Hsome. rewrite setCurrentTruck_mark in Hnone.
      by apply none_enterable_setCurrentTruck in Hnone.
    + rewrite GetMostRecentTruckSlot_entered in Hj';
        [|done|by eapply can_enter_below].
      apply is_previous_setCurrentTruck in Hj'.
      rewrite (is_previous_unique _ _ _ _ _ Hj' Hback).
      by rewrite setCurrentTruck_player.
  - destruct (enterPreviousTruck_cases isPreloadedWithTerrain s) as [[? _]|(j & Hj & ->)];
      [done|].
    rewrite Hpivot, Hp in Hj.
    pose proof (is_previous_back _ _ _ _ Hj Hcan Hlt) as Hback.
    destruct Hj as (Hcj & Hjlt & _).
    destruct (enterNextTruck_cases isPreloadedWithTerrain
                (setCurrentTruck (Z.of_nat j) s)) as [[Hnone _]|(j' & Hj' & ->)].
    + exfalso. apply Hsome. rewrite setCurrentTruck_mark in Hnone.
      by apply none_enterable_setCurrentTruck in Hnone.
    + rewrite GetMostRecentTruckSlot_entered in Hj';
        [|done|by eapply can_enter_below].
      apply is_next_setCurrentTruck in Hj'.
      rewrite (is_next_unique _ _ _ _ _ Hj' Hback).
      by rewrite setCurrentTruck_player.
Qed.

(** X23, instance: the player in slot 0 of the chain of three local
    actors, none preloaded with the terrain. *)
Lemma enter_next_previous_round_trip_witness :
  m_player_actor (enterPreviousTruck (fun _ => false)
                    (enterNextTruck (fun _ => false) chain_manager)) = 0%Z /\
  m_player_actor (enterNextTruck (fun _ => false)
                    (enterPreviousTruck (fun _ => false) chain_manager)) = 0%Z.
Proof.
  apply (enter_next_previous_round_trip (fun _ => false) chain_manager actor_A);
    reflexivity.
Defined.

Lemma first_rescuer_cases (actors : gmap nat Actor) (flag : nat -> bool) len : forall a0,
  (first_rescuer actors flag (seq a0 len) = None /\
   forall t, a0 <= t < a0 + len -> is_Some (actors !! t) -> flag t = false) \/
  (exists t, a0 <= t < a0 + len /\ is_Some (actors !! t) /\ flag t = true /\
     (forall u, a0 <= u < t -> is_Some (actors !! u) -> flag u = false) /\
     first_rescuer actors flag (seq a0 len) = Some t).
Proof.
  induction len as [|len IH]; intros a0; cbn [seq first_rescuer].
  - left. split; [done|]. intros t Ht. lia.
  - assert (Hskip : (is_Some (actors !! a0) -> flag a0 = false) ->
      (first_rescuer actors flag (seq (S a0) len) = None /\
       forall t, a0 <= t < a0 + S len -> is_Some (actors !! t) -> flag t = false) \/
      (exists t, a0 <= t < a0 + S len /\ is_Some (actors !! t) /\ flag t = true /\
         (forall u, a0 <= u < t -> is_Some (actors !! u) -> flag u = false) /\
         first_rescuer actors flag (seq (S a0) len) = Some t)).
    { intros Hno. destruct (IH (S a0)) as [[Hn Hall]|(t & Ht & Ha & Hf & Hmin & Hr)].
      - left. split; [done|]. intros t Ht.
        destruct (decide (t = a0)) as [->|]; [done|]. apply Hall. lia.
      - right. exists t. split; [lia|]. split; [done|]. split; [done|]. split; [|done].
        intros u Hu. destruct (decide (u = a0)) as [->|]; [done|]. apply Hmin. lia. }
    destruct (actors !! a0) as [a|] eqn:Ha.
    + destruct (flag a0) eqn:Hf.
      * right. exists a0. split; [lia|]. rewrite Ha. split; [by eexists|].
        split; [done|]. split; [|done]. intros u Hu. lia.
      * by apply Hskip.
    + apply Hskip. intros [? [=]].
Qed.

(** X24: [enterRescueTruck] answers whether a rescue actor sits below the
    high-water mark.  If so the player enters the one in the lowest slot,
    by way of person mode: the previous player slot is forgotten (-1).  If
    not the manager stays as it is. *)
Theorem enterRescueTruck_enters_lowest (ar_rescuer_flag : nat -> bool) (s : ActorManager) :
  ((forall t, ~ rescuer_slot ar_rescuer_flag s t) /\
   enterRescueTruck ar_rescuer_flag s = (false, s)) \/
  (exists t, rescuer_slot ar_rescuer_flag s t /\
     (forall u, rescuer_slot ar_rescuer_flag s u -> t <= u) /\
     (enterRescueTruck ar_rescuer_flag s).1 = true /\
     m_player_actor (enterRescueTruck ar_rescuer_flag s).2 = Z.of_nat t /\
     m_prev_player_actor (enterRescueTruck ar_rescuer_flag s).2 = (-1)%Z /\
     m_free_actor_slot (enterRescueTruck ar_rescuer_flag s).2 = m_free_actor_slot s /\
     is_Some (m_actors (enterRescueTruck ar_rescuer_flag s).2 !! t)).
Proof.
  unfold enterRescueTruck, rescuer_slot.
  destruct (first_rescuer_cases (m_actors s) ar_rescuer_flag (m_free_actor_slot s) 0)
    as [[-> Hall]|(t & Ht & Ha & Hf & Hmin & ->)].
  - left. split; [|done]. intros t (Ht & Ha & Hf).
    rewrite (Hall t) in Hf by (done || lia). done.
  - right. exists t. split; [split; [lia|done]|]. split.
    + intros u (Hu & Hau & Hfu). destruct (decide (t <= u)) as [|Hgt]; [done|].
      rewrite (Hmin u) in Hfu by (done || lia). done.
    + cbn [fst snd]. split; [done|].
      rewrite setCurrentTruck_player, setCurrentTruck_prev, setCurrentTruck_player.
      rewrite !setCurrentTruck_mark. split; [done|]. split; [done|]. split; [done|].
      by rewrite !setCurrentTruck_is_Some.
Qed.

Lemma DeleteTruck_player_fields b s :
  m_player_actor (DeleteTruck (Some b) s)
  = (if bool_decide (m_player_actor s = Z.of_nat (ar_instance_id b))
     then (-1)%Z else m_player_actor s) /\
  m_prev_player_actor (DeleteTruck (Some b) s)
  = (if bool_decide (m_player_actor s = Z.of_nat (ar_instance_id b))
     then m_player_actor s else m_prev_player_actor s).
Proof.
  unfold DeleteTruck. destruct (bool_decide _); cbn; [|done].
  by rewrite setCurrentTruck_player, setCurrentTruck_prev.
Qed.

(** X25: deleting the actor the player sits in leaves the player on foot
    (-1) with the emptied slot as previous player slot, so that no slot
    counts as the most recent one and the next call of [enterNextTruck]
    starts its walk at slot 0.  Deleting another actor does not change the
    player slot. *)
Theorem DeleteTruck_player_on_foot (b : Actor) (s : ActorManager) :
  (m_player_actor s = Z.of_nat (ar_instance_id b) ->
     m_player_actor (DeleteTruck (Some b) s) = (-1)%Z /\
     m_prev_player_actor (DeleteTruck (Some b) s) = Z.of_nat (ar_instance_id b) /\
     GetMostRecentTruckSlot (DeleteTruck (Some b) s) = (-1)%Z) /\
  (m_player_actor s <> Z.of_nat (ar_instance_id b) ->
     m_player_actor (DeleteTruck (Some b) s) = m_player_actor s).
Proof.
  destruct (DeleteTruck_player_fields b s) as [Hp Hq]. split.
  - intros E. rewrite bool_decide_eq_true_2 in Hp, Hq by done.
    split; [done|]. split; [congruence|].
    unfold GetMostRecentTruckSlot. rewrite Hp, Hq, E.
    assert (Hnone : getTruck (Z.of_nat (ar_instance_id b)) (DeleteTruck (Some b) s) = None).
    { unfold getTruck. destruct (_ && _); [|done]. rewrite Nat2Z.id.
      apply DeleteTruck_cleared. }
    rewrite Hnone. reflexivity.
  - intros Hne. by rewrite bool_decide_eq_false_2 in Hp.
Qed.

(** * A frame without substeps *)

Section DispatcherFrame.

Context {W : Type}.
Variable K : Kernels W.

(** X27: a frame of zero substeps runs no force or collision kernel: the
    manager is returned as it is, and the physics state only goes through
    [preUpdatePhysics] of every actor and [postUpdatePhysics] of the
    actors whose participation flag is still set from an earlier frame. *)
Theorem UpdatePhysicsSimulation_zero_substeps (threadPool : option ThreadPool)
    (s : ActorManager) (w : W) :
  (m_physics_steps s <= 0)%Z ->
  UpdatePhysicsSimulation K threadPool s w =
  (s,
   foldl (fun w t => match m_actors s !! t with
                     | Some a =>
                         if ar_update_physics a
                         then postUpdatePhysics K t (inject_Z (m_physics_steps s) * PHYSICS_DT) w
                         else w
                     | None => w
                     end)
     (foldl (fun w t => match m_actors s !! t with
                        | Some _ =>
                            preUpdatePhysics K t (inject_Z (m_physics_steps s) * PHYSICS_DT) w
                        | None => w
                        end) w (seq 0 (m_free_actor_slot s)))
     (seq 0 (m_free_actor_slot s))).
Proof.
  intros Hsteps. unfold UpdatePhysicsSimulation. cbn zeta.
  assert (E : Z.to_nat (m_physics_steps s) = 0) by lia. rewrite E.
  cbn [seq foldl]. by rewrite set_m_actors_id.
Qed.

End DispatcherFrame.

(** X27, instance: the log of a frame of zero substeps of one actor whose
    flag is not set. *)
Lemma UpdatePhysicsSimulation_zero_substeps_witness :
  UpdatePhysicsSimulation logging_kernels (Some submission_order)
    lone_actor_manager []
  = (lone_actor_manager, [EvPreUpdate 0]).
Proof.
  apply (UpdatePhysicsSimulation_zero_substeps logging_kernels
           (Some submission_order) lone_actor_manager []).
  simpl. lia.
Defined.

(** * The worker pool *)

(** X28: the constructor creates [gEnv->threadPool] only when
    multithreading is on, the pool is not disabled and [m_num_cpu_cores] is
    at least 2, and then with exactly that many threads; the
    single-threaded pool of the simulation task exists exactly when
    multithreading is on.  A thread count of the settings is taken only
    when above 1, and with the defaults a machine reporting at most two
    physical cores and two hardware threads gets no pool. *)
Theorem ActorManager_thread_pool_size (app_multithread : bool) (NumThreadsInThreadPool : Z)
    (DisableThreadPool : bool) (logical_cpus physical_cpus : Z) :
  let r := ActorManager_thread_pool app_multithread NumThreadsInThreadPool
             DisableThreadPool logical_cpus physical_cpus in
  (forall n, r.1.2 = Some n <->
     app_multithread = true /\ DisableThreadPool = false /\ n = r.1.1 /\ (2 <= n)%Z) /\
  (r.2 = if app_multithread then Some 1%Z else None) /\
  (app_multithread = true -> (1 < NumThreadsInThreadPool)%Z ->
     r.1.1 = NumThreadsInThreadPool) /\
  (app_multithread = true -> (NumThreadsInThreadPool <= 1)%Z ->
     r.1.1 = (if bool_decide (physical_cpus < 6 /\ physical_cpus < logical_cpus)%Z
              then logical_cpus - 1 else physical_cpus - 1)%Z) /\
  ((NumThreadsInThreadPool <= 1)%Z -> (logical_cpus <= 2)%Z -> (physical_cpus <= 2)%Z ->
     r.1.2 = None).
Proof.
  cbn zeta. unfold ActorManager_thread_pool.
  destruct app_multithread.
  2:{ cbn. split; [|split; [done|split; [done|split; [done|done]]]].
      intros n. split; [done|]. by intros [? _]. }
  set (cores := if bool_decide (1 < NumThreadsInThreadPool)%Z then _ else _).
  assert (Hcores :
    ((1 < NumThreadsInThreadPool)%Z -> cores = NumThreadsInThreadPool) /\
    ((NumThreadsInThreadPool <= 1)%Z ->
       cores = (if bool_decide (physical_cpus < 6 /\ physical_cpus < logical_cpus)%Z
                then logical_cpus - 1 else physical_cpus - 1)%Z)).
  { unfold cores. split; intros H.
    - by rewrite bool_decide_eq_true_2.
    - rewrite bool_decide_eq_false_2 by lia.
      destruct (bool_decide (physical_cpus < 6)%Z) eqn:H1,
               (bool_decide (physical_cpus < logical_cpus)%Z) eqn:H2; cbn [andb];
        try apply bool_decide_eq_true in H1; try apply bool_decide_eq_true in H2;
        try apply bool_decide_eq_false in H1; try apply bool_decide_eq_false in H2.
      + by rewrite bool_decide_eq_true_2.
      + rewrite bool_decide_eq_false_2; [done|]. by intros [_ ?].
      + rewrite bool_decide_eq_false_2; [done|]. by intros [? _].
      + rewrite bool_decide_eq_false_2; [done|]. by intros [? _]. }
  destruct Hcores as [Hc1 Hc2]. clearbody cores.
  destruct (bool_decide (cores < 2)%Z) eqn:Hlt.
  - apply bool_decide_eq_true in Hlt. cbn [fst snd].
    split; [|split; [done|split; [by intros _|split; [by intros _|done]]]].
    intros n. split; [done|]. intros (_ & _ & -> & ?). lia.
  - apply bool_decide_eq_false in Hlt.
    destruct DisableThreadPool; cbn [negb fst snd].
    + split; [|split; [done|split; [by intros _|split; [by intros _|done]]]].
      intros n. split; [done|]. by intros (_ & ? & _).
    + split; [|split; [done|split; [by intros _|split; [by intros _|]]]].
      * intros n. split.
        -- intros [= <-]. split; [done|]. split; [done|]. split; [done|lia].
        -- by intros (_ & _ & -> & _).
      * intros Hn Hl Hp. exfalso. rewrite (Hc2 Hn) in Hlt.
        destruct (bool_decide _); lia.
Qed.

(** * The actor given to the physics task *)

Lemma first_simulated_cases (actors : gmap nat Actor) len : forall a0,
  (first_simulated actors (seq a0 len) = None /\
   forall t a, a0 <= t < a0 + len -> actors !! t = Some a ->
               ar_sim_state a <> LOCAL_SIMULATED) \/
  (exists t a, a0 <= t < a0 + len /\ actors !! t = Some a /\
     ar_sim_state a = LOCAL_SIMULATED /\
     (forall u b, a0 <= u < t -> actors !! u = Some b -> ar_sim_state b <> LOCAL_SIMULATED) /\
     first_simulated actors (seq a0 len) = Some t).
Proof.
  induction len as [|len IH]; intros a0; cbn [seq first_simulated].
  - left. split; [done|]. intros t a Ht. lia.
  - assert (Hskip :
      (forall a, actors !! a0 = Some a -> ar_sim_state a <> LOCAL_SIMULATED) ->
      (first_simulated actors (seq (S a0) len) = None /\
       forall t a, a0 <= t < a0 + S len -> actors !! t = Some a ->
                   ar_sim_state a <> LOCAL_SIMULATED) \/
      (exists t a, a0 <= t < a0 + S len /\ actors !! t = Some a /\
         ar_sim_state a = LOCAL_SIMULATED /\
         (forall u b, a0 <= u < t -> actors !! u = Some b ->
                      ar_sim_state b <> LOCAL_SIMULATED) /\
         first_simulated actors (seq (S a0) len) = Some t)).
    { intros Hno. destruct (IH (S a0)) as [[Hn Hall]|(t & a & Ht & Ha & Hs & Hmin & Hr)].
      - left. split; [done|]. intros t a Ht Ha.
        destruct (decide (t = a0)) as [->|]; [by apply Hno|]. apply (Hall t); [lia|done].
      - right. exists t, a. split; [lia|]. split; [done|]. split; [done|]. split; [|done].
        intros u b Hu Hb. destruct (decide (u = a0)) as [->|]; [by apply Hno|].
        apply (Hmin u); [lia|done]. }
    destruct (actors !! a0) as [a|] eqn:Ha.
    + destruct (bool_decide (ar_sim_state a = LOCAL_SIMULATED)) eqn:Hs.
      * apply bool_decide_eq_true in Hs. right. exists a0, a.
        split; [lia|]. split; [done|]. split; [done|]. split; [|done]. intros u b Hu. lia.
      * apply bool_decide_eq_false in Hs. apply Hskip. by intros ? [= <-].
    + apply Hskip. by intros ? [=].
Qed.

Lemma update_unfold dt s :
  exists steps remainder clock dt',
  let s2 := UpdateSleepingState dt'
              (set_timing (m_physics_frames s + 1) steps remainder clock s) in
  update dt s =
  if bool_decide (m_player_actor s2 = -1)%Z
  then match first_simulated (m_actors s2) (seq 0 (m_free_actor_slot s2)) with
       | Some t => set_m_simulated_actor (Z.of_nat t) (set_m_simulated_actor (m_player_actor s2) s2)
       | None => set_m_simulated_actor (m_player_actor s2) s2
       end
  else set_m_simulated_actor (m_player_actor s2) s2.
Proof. do 4 eexists. cbn zeta. unfold update. cbn zeta. reflexivity. Qed.

(** X29: [update] leaves the player slot, the high-water mark and the
    occupancy of the slots alone and chooses [m_simulated_actor] after the
    sleep pass: the player slot when the player sits in an actor (whether
    or not the slot holds one), else the lowest slot below the mark whose
    actor is simulated after the pass, else -1. *)
Theorem update_simulated_actor (dt : Q) (s : ActorManager) :
  m_player_actor (update dt s) = m_player_actor s /\
  m_free_actor_slot (update dt s) = m_free_actor_slot s /\
  (m_player_actor s <> (-1)%Z -> m_simulated_actor (update dt s) = m_player_actor s) /\
  (m_player_actor s = (-1)%Z ->
     (m_simulated_actor (update dt s) = (-1)%Z /\
      forall t a, t < m_free_actor_slot s -> m_actors (update dt s) !! t = Some a ->
                  ar_sim_state a <> LOCAL_SIMULATED) \/
     (exists t a, m_simulated_actor (update dt s) = Z.of_nat t /\
        t < m_free_actor_slot s /\ m_actors (update dt s) !! t = Some a /\
        ar_sim_state a = LOCAL_SIMULATED /\
        forall u b, u < t -> m_actors (update dt s) !! u = Some b ->
                    ar_sim_state b <> LOCAL_SIMULATED)).
Proof.
  destruct (update_unfold dt s) as (steps & remainder & clock & dt' & E).
  cbn zeta in E. rewrite E. clear E.
  set (s1 := set_timing _ steps remainder clock s).
  assert (Hs2 : UpdateSleepingState dt' s1
                = set_m_actors (m_actors (UpdateSleepingState dt' s1)) s1)
    by apply UpdateSleepingState_fields.
  set (s2 := UpdateSleepingState dt' s1) in *.
  assert (Hp : m_player_actor s2 = m_player_actor s) by by rewrite Hs2.
  assert (Hn : m_free_actor_slot s2 = m_free_actor_slot s) by by rewrite Hs2.
  clearbody s2. rewrite Hp, Hn.
  destruct (bool_decide (m_player_actor s = -1)%Z) eqn:Hd.
  - apply bool_decide_eq_true in Hd.
    destruct (first_simulated_cases (m_actors s2) (m_free_actor_slot s) 0)
      as [[-> Hall]|(t & a & Ht & Ha & Hs & Hmin & ->)]; cbn.
    + split; [done|]. split; [done|]. split; [done|]. intros _. left.
      split; [done|]. intros t a Ht. apply Hall. lia.
    + split; [done|]. split; [done|]. split; [done|]. intros _. right.
      exists t, a. split; [done|]. split; [lia|]. split; [done|]. split; [done|].
      intros u b Hu. apply Hmin. lia.
  - apply bool_decide_eq_false in Hd. cbn.
    split; [done|]. split; [done|]. split; [done|done].
Qed.

(** * The further properties on concrete inputs *)

Lemma remote_manager_wf : registry_wf remote_manager.
Proof. apply registry_wf_forallb. vm_compute. reflexivity. Qed.

(** X9, instance: source 7, with two streams and a mismatch on record. *)
Lemma RemoveStreamSource_forgets_source_witness :
  m_stream_mismatches (RemoveStreamSource 7 remote_manager) !! 7%Z = None /\
  ~ networked_actor_of (RemoveStreamSource 7 remote_manager) 7 /\
  (checkStreamsOK 7 (RemoveStreamSource 7 remote_manager)).1 = 2%Z /\
  (forall stream_id, getBeam 7 stream_id (RemoveStreamSource 7 remote_manager) = None) /\
  m_free_actor_slot (RemoveStreamSource 7 remote_manager)
  = m_free_actor_slot remote_manager.
Proof. exact (RemoveStreamSource_forgets_source 7 remote_manager remote_manager_wf). Defined.

(** X10, instance: the local actor of slot 1 and the stream of source 8
    in slot 2 survive the removal of source 7. *)
Lemma RemoveStreamSource_keeps_others_witness :
  (forall t a, m_actors remote_manager !! t = Some a ->
     if decide (ar_sim_state a = NETWORKED_OK /\ ar_net_source_id a = 7%Z)
     then m_actors (RemoveStreamSource 7 remote_manager) !! t = None
     else exists a', m_actors (RemoveStreamSource 7 remote_manager) !! t = Some a' /\
                     sleep_wake_step a a') /\
  (forall t, m_actors remote_manager !! t = None ->
     m_actors (RemoveStreamSource 7 remote_manager) !! t = None) /\
  (forall other, other <> 7%Z ->
     m_stream_mismatches (RemoveStreamSource 7 remote_manager) !! other
     = m_stream_mismatches remote_manager !! other) /\
  registry_wf (RemoveStreamSource 7 remote_manager).
Proof. exact (RemoveStreamSource_keeps_others 7 remote_manager remote_manager_wf). Defined.

(** X12, instance: a second registration of stream 1 of source 7, which
    slot 0 already holds: the new actor goes to slot 4 and [getBeam] keeps
    answering with the one of slot 0. *)
Lemma remote_actor_registered_witness :
  m_actors (CreateRemoteInstance 8 true 7 1 (remote_actor 0 0 0) remote_manager).2
    !! m_free_actor_slot remote_manager
  = Some (set_ar_net_stream_id 1
            (set_ar_net_source_id 7
               (new_Actor (m_free_actor_slot remote_manager) (remote_actor 0 0 0)))) /\
  m_free_actor_slot (CreateRemoteInstance 8 true 7 1 (remote_actor 0 0 0) remote_manager).2
  = S (m_free_actor_slot remote_manager) /\
  registry_wf (CreateRemoteInstance 8 true 7 1 (remote_actor 0 0 0) remote_manager).2 /\
  getBeam 7 1 (CreateRemoteInstance 8 true 7 1 (remote_actor 0 0 0) remote_manager).2
  = Some (default
            (set_ar_net_stream_id 1
               (set_ar_net_source_id 7
                  (new_Actor (m_free_actor_slot remote_manager) (remote_actor 0 0 0))))
            (getBeam 7 1 remote_manager)) /\
  (checkStreamsOK 7
     (CreateRemoteInstance 8 true 7 1 (remote_actor 0 0 0) remote_manager).2).1 <> 2%Z.
Proof.
  apply (remote_actor_registered 8 7 1 (remote_actor 0 0 0) remote_manager).
  - exact remote_manager_wf.
  - reflexivity.
  - vm_compute. reflexivity.
Defined.

(** * Network events *)

Lemma CreateRemoteInstance_registered MAX_TRUCKS source_id stream_id proto s s' :
  registry_wf s ->
  CreateRemoteInstance MAX_TRUCKS true source_id stream_id proto s = (1%Z, s') ->
  s' = set_m_actors
         (<[m_free_actor_slot s :=
              set_ar_net_stream_id stream_id
                (set_ar_net_source_id source_id
                   (new_Actor (m_free_actor_slot s) proto))]> (m_actors s))
         (set_m_free_actor_slot (m_free_actor_slot s + 1) s) /\
  m_actors s !! m_free_actor_slot s = None.
Proof.
  intros Hwf. rewrite CreateRemoteInstance_loaded.
  destruct (bool_decide ((GetFreeTruckSlot MAX_TRUCKS s).1 = -1)%Z) eqn:Hslot; [done|].
  apply bool_decide_eq_false in Hslot.
  destruct (bool_decide (ar_sim_state proto = INVALID)); [done|].
  destruct (GetFreeTruckSlot_value MAX_TRUCKS s) as [E|[t E]]; [done|].
  pose proof (GetFreeTruckSlot_wf MAX_TRUCKS s t Hwf E) as ->.
  destruct (GetFreeTruckSlot_success MAX_TRUCKS s _ E) as (Hlt & [_ Hempty] & E2).
  rewrite E, E2, Nat2Z.id. intros [= <-]. done.
Qed.

Lemma handleStreamData_two MAX_TRUCKS p1 p2 s :
  handleStreamData MAX_TRUCKS [p1; p2] s
  = handle_packet MAX_TRUCKS p2 (handle_packet MAX_TRUCKS p1 (s, [])).
Proof. reflexivity. Qed.

(** X30: a stream that is announced and then withdrawn leaves no actor
    behind.  On a well-formed registry that does not know the stream yet,
    [handleStreamData] answers the registration of a networked actor with
    status 1 and, on the packet that unregisters the stream, deletes the
    actor again: [getBeam] finds nothing, the stream is not among the
    mismatched streams of the source, and every other actor keeps its
    slot.  The slot spent on the actor is not given back: the high-water
    mark has moved up by one. *)
Theorem register_then_unregister (MAX_TRUCKS : nat) (p1 p2 : recv_packet_t)
    (s s1 : ActorManager) :
  registry_wf s ->
  header_command p1 = MSG2_STREAM_REGISTER -> reg_type p1 = 0%Z ->
  reg_resource_loaded p1 = true -> ar_sim_state (reg_proto p1) = NETWORKED_OK ->
  header_command p2 = MSG2_STREAM_UNREGISTER ->
  header_source p2 = reg_origin_sourceid p1 ->
  header_streamid p2 = reg_origin_streamid p1 ->
  getBeam (header_source p2) (header_streamid p2) s = None ->
  CreateRemoteInstance MAX_TRUCKS true (reg_origin_sourceid p1) (reg_origin_streamid p1)
    (reg_proto p1) s = (1%Z, s1) ->
  (handleStreamData MAX_TRUCKS [p1; p2] s).2 = [AddPacket_REGISTER_RESULT 1] /\
  getBeam (header_source p2) (header_streamid p2)
    (handleStreamData MAX_TRUCKS [p1; p2] s).1 = None /\
  (header_streamid p2
     ∉ mismatch_set (handleStreamData MAX_TRUCKS [p1; p2] s).1 (header_source p2)) /\
  (forall t, option_Forall2 sleep_wake_step
               (m_actors s !! t)
               (m_actors (handleStreamData MAX_TRUCKS [p1; p2] s).1 !! t)) /\
  m_free_actor_slot (handleStreamData MAX_TRUCKS [p1; p2] s).1
  = S (m_free_actor_slot s).
Proof.
  intros Hwf Hc1 Hty Hld Hnet Hc2 Hsrc Hstr Hnone Hreg.
  assert (Hstep1 : handle_packet MAX_TRUCKS p1 (s, []) = (s1, [AddPacket_REGISTER_RESULT 1])).
  { unfold handle_packet. rewrite Hc1, Hty, Hld, Hreg.
    by rewrite bool_decide_eq_true_2. }
  destruct (CreateRemoteInstance_registered _ _ _ _ _ _ Hwf Hreg) as [Hs1 Hempty].
  rewrite <- Hsrc, <- Hstr in Hs1.
  set (n := m_free_actor_slot s) in *.
  set (b := set_ar_net_stream_id (header_streamid p2)
              (set_ar_net_source_id (header_source p2) (new_Actor n (reg_proto p1)))) in *.
  assert (Hb : is_stream_actor (header_source p2) (header_streamid p2) b)
    by by apply is_stream_actor_remote.
  assert (Hm1 : m_actors s1 = <[n := b]> (m_actors s)) by by rewrite Hs1.
  assert (Hn1 : m_free_actor_slot s1 = n + 1) by by rewrite Hs1.
  clear Hs1 Hreg.
  (* the stream actor found is the one just registered *)
  assert (Hget : getBeam (header_source p2) (header_streamid p2) s1 = Some b).
  { unfold getBeam. rewrite Hm1, Hn1. apply getBeam_scan_Some. exists n.
    split; [lia|]. split; [apply lookup_insert_eq|]. split; [done|].
    intros u z Hu. rewrite lookup_insert_ne by lia.
    apply (proj1 (getBeam_scan_None _ _ _ _ _) Hnone). fold n. lia. }
  set (s2 := DeleteTruck (Some b) s1).
  assert (Hstep2 :
    handle_packet MAX_TRUCKS p2 (s1, [AddPacket_REGISTER_RESULT 1]) =
    (match m_stream_mismatches s2 !! header_source p2 with
     | Some mismatches =>
         set_m_stream_mismatches
           (<[header_source p2 := mismatches ∖ {[header_streamid p2]}]>
              (m_stream_mismatches s2)) s2
     | None => s2
     end, [AddPacket_REGISTER_RESULT 1])).
  { unfold handle_packet. rewrite Hc2, Hget.
    rewrite (bool_decide_eq_true_2 _ (proj1 Hb)). fold s2.
    by destruct (m_stream_mismatches s2 !! header_source p2). }
  rewrite handleStreamData_two, Hstep1, Hstep2. clear Hstep1 Hstep2. cbn [fst snd].
  assert (Hid : ar_instance_id b = n) by reflexivity.
  assert (Hn2 : m_free_actor_slot s2 = n + 1).
  { unfold s2. by rewrite DeleteTruck_mark. }
  assert (Hlook : forall t, option_Forall2 sleep_wake_step (m_actors s !! t) (m_actors s2 !! t)).
  { intros t. destruct (decide (t = n)) as [->|Hne].
    - pose proof (DeleteTruck_cleared b s1) as Hc. rewrite Hid in Hc.
      fold s2 in Hc. rewrite Hempty, Hc. constructor.
    - pose proof (DeleteTruck_lookup b s1 t ltac:(by rewrite Hid)) as Hd.
      fold s2 in Hd. by rewrite Hm1, lookup_insert_ne in Hd. }
  assert (Hgone : forall s3, m_actors s3 = m_actors s2 ->
            m_free_actor_slot s3 = m_free_actor_slot s2 ->
            getBeam (header_source p2) (header_streamid p2) s3 = None).
  { intros s3 E1 E2. unfold getBeam. rewrite E1, E2. apply getBeam_scan_None.
    intros t y Ht Hy Hst. specialize (Hlook t). rewrite Hy in Hlook.
    destruct (m_actors s !! t) as [a|] eqn:Ha.
    - apply option_Forall2_Some_l in Hlook. destruct Hlook as (y' & [= <-] & Hstep).
      pose proof (sleep_wake_step_networked a y Hstep (proj1 Hst)) as ->.
      destruct (Hwf t a Ha) as [Hlt _].
      apply (proj1 (getBeam_scan_None _ _ _ _ _) Hnone t a); [lia|done|done].
    - by apply option_Forall2_None_l in Hlook. }
  split; [done|].
  destruct (m_stream_mismatches s2 !! header_source p2) as [mismatches|] eqn:Hmis.
  - split; [by apply Hgone|]. split; [|split; [done|change (m_free_actor_slot s2 = S n); lia]].
    unfold mismatch_set. cbn. rewrite lookup_insert_eq. cbn.
    rewrite elem_of_difference, elem_of_singleton. tauto.
  - split; [by apply Hgone|]. split; [|split; [done|lia]].
    unfold mismatch_set. rewrite Hmis. cbn. apply not_elem_of_empty.
Qed.

(** X30, instance: source 9 joins the four actors of three streams. *)
Lemma register_then_unregister_witness :
  (handleStreamData 8 [register_packet; unregister_packet] remote_manager).2
  = [AddPacket_REGISTER_RESULT 1] /\
  getBeam 9 1 (handleStreamData 8 [register_packet; unregister_packet] remote_manager).1
  = None /\
  (1%Z ∉ mismatch_set
          (handleStreamData 8 [register_packet; unregister_packet] remote_manager).1 9) /\
  (forall t, option_Forall2 sleep_wake_step
               (m_actors remote_manager !! t)
               (m_actors (handleStreamData 8 [register_packet; unregister_packet]
                            remote_manager).1 !! t)) /\
  m_free_actor_slot (handleStreamData 8 [register_packet; unregister_packet]
                       remote_manager).1
  = S (m_free_actor_slot remote_manager).
Proof.
  apply (register_then_unregister 8 register_packet unregister_packet remote_manager
           (CreateRemoteInstance 8 true 9 1 (remote_actor 0 0 0) remote_manager).2);
    try reflexivity.
  exact remote_manager_wf.
Defined.
